(** * A shallow embedding of the cell-absorption arena (main.js and botAI.js)

    The simulation core of the game is embedded as Rocq functions over an
    explicit world state.

    Modelling conventions.
    - JavaScript numbers are modelled as real numbers ([R]): arithmetic is
      exact, there is no rounding, no NaN and no infinity.
    - A comparison [a < b] of the source is the boolean [a <? b] obtained
      from the decision procedure of the reals.
    - [performance.now()] and [Math.random()] are oracles: the world carries
      the sequence of values each will return ([perfNow], [mathRandom]) and
      the number of values already consumed ([perfReads], [randomReads]).
    - The global arrays are lists.  A cell object that the source passes
      around by reference is named by its index in its array, so that a
      mutation through any alias is a list update at that index.
    - The divisions of the steering scan, whose divisors are derived from
      a pair of bodies, are checked: a zero divisor yields [DivByZero]
      (where JavaScript would produce NaN or an infinity, which the reals
      do not have).  The other divisions are by literal constants, by the
      number of player cells where it is not zero, and by the total mass
      of two cells that merge, which is positive as long as masses are;
      they are the division of the reals.
    - Loops whose number of iterations is not bounded by the size of their
      input (they iterate over an array that grows while it is scanned)
      take a fuel argument and yield [OutOfFuel], with the world reached so
      far, when it is exhausted.
    - [events] is a ghost field: it records, in order, the category of each
      consumption the collision resolver applies.  No function reads it. *)

From Stdlib Require Import Reals Lra Lia List Bool Arith ZArith Permutation.
Import ListNotations.
Open Scope R_scope.

(** ** Numbers and comparisons *)

Definition ltb (a b : R) : bool := if Rlt_dec a b then true else false.
Definition gtb (a b : R) : bool := ltb b a.
Definition eqb0 (a : R) : bool := if Req_dec_T a 0 then true else false.

Notation "a <? b" := (ltb a b) : R_scope.
Notation "a >? b" := (gtb a b) : R_scope.

(** ** Settings (main.js, GLOBAL VARIABLES & SETTINGS) *)

Definition MAP_WIDTH : R := 5000.
Definition MAP_HEIGHT : R := 5000.
Definition FOOD_COUNT : nat := 1000.
Definition AI_COUNT : nat := 40.
Definition FOOD_MIN_RADIUS : R := 3.
Definition FOOD_MAX_RADIUS : R := 6.
Definition MERGE_DELAY : R := 2500.
Definition MAX_CELLS : nat := 16.

(** ** Entities *)

(** A colour "#rrggbb" is its 24-bit value. *)
Definition Color : Type := Z.

Record Cell : Type := mkCell {
  x : R;
  y : R;
  radius : R;
  mass : R;
  color : Color;
  isPlayer : bool;
  vx : R;
  vy : R;
  extraVX : R;
  extraVY : R;
  drawRadius : R;
  isBoss : bool;
  lastSplitTime : R
}.

Record Food : Type := mkFood {
  fx : R;
  fy : R;
  fradius : R;
  fcolor : Color
}.

Record RotatingHexagon : Type := mkHexagon {
  hx : R;
  hy : R;
  size : R;
  rotation : R;
  rotationSpeed : R;
  massBonus : R
}.

Record RainbowEffect : Type := mkRainbow {
  ex : R;
  ey : R;
  maxLifetime : R;
  lifetime : R;
  eradius : R
}.

(** The categories of pairs the collision resolver handles. *)
Inductive Category : Type :=
| BodyPellet
| BodyStructure
| PlayerAgent
| AgentAgent.

Record World : Type := mkWorld {
  foods : list Food;
  aiCells : list Cell;
  playerCells : list Cell;
  gameOver : bool;
  hexagons : list RotatingHexagon;
  rainbowEffects : list RainbowEffect;
  mouseX : R;
  mouseY : R;
  canvasWidth : R;
  canvasHeight : R;
  perfNow : nat -> R;
  perfReads : nat;
  mathRandom : nat -> R;
  randomReads : nat;
  events : list Category
}.

(** *** Field updates *)

Definition set_x (v : R) (c : Cell) : Cell :=
  mkCell v (y c) (radius c) (mass c) (color c) (isPlayer c) (vx c) (vy c)
         (extraVX c) (extraVY c) (drawRadius c) (isBoss c) (lastSplitTime c).
Definition set_y (v : R) (c : Cell) : Cell :=
  mkCell (x c) v (radius c) (mass c) (color c) (isPlayer c) (vx c) (vy c)
         (extraVX c) (extraVY c) (drawRadius c) (isBoss c) (lastSplitTime c).
Definition set_radius (v : R) (c : Cell) : Cell :=
  mkCell (x c) (y c) v (mass c) (color c) (isPlayer c) (vx c) (vy c)
         (extraVX c) (extraVY c) (drawRadius c) (isBoss c) (lastSplitTime c).
Definition set_mass (v : R) (c : Cell) : Cell :=
  mkCell (x c) (y c) (radius c) v (color c) (isPlayer c) (vx c) (vy c)
         (extraVX c) (extraVY c) (drawRadius c) (isBoss c) (lastSplitTime c).
Definition set_vx (v : R) (c : Cell) : Cell :=
  mkCell (x c) (y c) (radius c) (mass c) (color c) (isPlayer c) v (vy c)
         (extraVX c) (extraVY c) (drawRadius c) (isBoss c) (lastSplitTime c).
Definition set_vy (v : R) (c : Cell) : Cell :=
  mkCell (x c) (y c) (radius c) (mass c) (color c) (isPlayer c) (vx c) v
         (extraVX c) (extraVY c) (drawRadius c) (isBoss c) (lastSplitTime c).
Definition set_extraVX (v : R) (c : Cell) : Cell :=
  mkCell (x c) (y c) (radius c) (mass c) (color c) (isPlayer c) (vx c) (vy c)
         v (extraVY c) (drawRadius c) (isBoss c) (lastSplitTime c).
Definition set_extraVY (v : R) (c : Cell) : Cell :=
  mkCell (x c) (y c) (radius c) (mass c) (color c) (isPlayer c) (vx c) (vy c)
         (extraVX c) v (drawRadius c) (isBoss c) (lastSplitTime c).
Definition set_drawRadius (v : R) (c : Cell) : Cell :=
  mkCell (x c) (y c) (radius c) (mass c) (color c) (isPlayer c) (vx c) (vy c)
         (extraVX c) (extraVY c) v (isBoss c) (lastSplitTime c).
Definition set_isBoss (v : bool) (c : Cell) : Cell :=
  mkCell (x c) (y c) (radius c) (mass c) (color c) (isPlayer c) (vx c) (vy c)
         (extraVX c) (extraVY c) (drawRadius c) v (lastSplitTime c).
Definition set_lastSplitTime (v : R) (c : Cell) : Cell :=
  mkCell (x c) (y c) (radius c) (mass c) (color c) (isPlayer c) (vx c) (vy c)
         (extraVX c) (extraVY c) (drawRadius c) (isBoss c) v.

Definition set_foods (v : list Food) (w : World) : World :=
  mkWorld v (aiCells w) (playerCells w) (gameOver w) (hexagons w)
          (rainbowEffects w) (mouseX w) (mouseY w) (canvasWidth w)
          (canvasHeight w) (perfNow w) (perfReads w) (mathRandom w)
          (randomReads w) (events w).
Definition set_aiCells (v : list Cell) (w : World) : World :=
  mkWorld (foods w) v (playerCells w) (gameOver w) (hexagons w)
          (rainbowEffects w) (mouseX w) (mouseY w) (canvasWidth w)
          (canvasHeight w) (perfNow w) (perfReads w) (mathRandom w)
          (randomReads w) (events w).
Definition set_playerCells (v : list Cell) (w : World) : World :=
  mkWorld (foods w) (aiCells w) v (gameOver w) (hexagons w)
          (rainbowEffects w) (mouseX w) (mouseY w) (canvasWidth w)
          (canvasHeight w) (perfNow w) (perfReads w) (mathRandom w)
          (randomReads w) (events w).
Definition set_gameOver (v : bool) (w : World) : World :=
  mkWorld (foods w) (aiCells w) (playerCells w) v (hexagons w)
          (rainbowEffects w) (mouseX w) (mouseY w) (canvasWidth w)
          (canvasHeight w) (perfNow w) (perfReads w) (mathRandom w)
          (randomReads w) (events w).
Definition set_hexagons (v : list RotatingHexagon) (w : World) : World :=
  mkWorld (foods w) (aiCells w) (playerCells w) (gameOver w) v
          (rainbowEffects w) (mouseX w) (mouseY w) (canvasWidth w)
          (canvasHeight w) (perfNow w) (perfReads w) (mathRandom w)
          (randomReads w) (events w).
Definition set_rainbowEffects (v : list RainbowEffect) (w : World) : World :=
  mkWorld (foods w) (aiCells w) (playerCells w) (gameOver w) (hexagons w)
          v (mouseX w) (mouseY w) (canvasWidth w)
          (canvasHeight w) (perfNow w) (perfReads w) (mathRandom w)
          (randomReads w) (events w).
Definition set_perfReads (v : nat) (w : World) : World :=
  mkWorld (foods w) (aiCells w) (playerCells w) (gameOver w) (hexagons w)
          (rainbowEffects w) (mouseX w) (mouseY w) (canvasWidth w)
          (canvasHeight w) (perfNow w) v (mathRandom w)
          (randomReads w) (events w).
Definition set_randomReads (v : nat) (w : World) : World :=
  mkWorld (foods w) (aiCells w) (playerCells w) (gameOver w) (hexagons w)
          (rainbowEffects w) (mouseX w) (mouseY w) (canvasWidth w)
          (canvasHeight w) (perfNow w) (perfReads w) (mathRandom w)
          v (events w).
Definition logEvent (e : Category) (w : World) : World :=
  mkWorld (foods w) (aiCells w) (playerCells w) (gameOver w) (hexagons w)
          (rainbowEffects w) (mouseX w) (mouseY w) (canvasWidth w)
          (canvasHeight w) (perfNow w) (perfReads w) (mathRandom w)
          (randomReads w) (events w ++ [e]).

(** ** Outcomes of computations that may fail *)

(** [OutOfFuel w] carries the world reached when the fuel ran out. *)
Inductive result (A : Type) : Type :=
| Ok (a : A)
| DivByZero
| OutOfFuel (w : World).
Arguments Ok {A} a.
Arguments DivByZero {A}.
Arguments OutOfFuel {A} w.

Definition bind {A B : Type} (m : result A) (f : A -> result B) : result B :=
  match m with
  | Ok a => f a
  | DivByZero => DivByZero
  | OutOfFuel w => OutOfFuel w
  end.

Notation "x <- m ;; k" := (bind m (fun x => k))
  (at level 61, m at next level, right associativity).

(** A division whose divisor is not a literal constant of the source. *)
Definition cdiv (a b : R) : result R :=
  if eqb0 b then DivByZero else Ok (a / b).

(** *** Arrays *)

(** [a.splice(i, 1)] *)
Fixpoint removeAt {A : Type} (i : nat) (l : list A) : list A :=
  match l, i with
  | [], _ => []
  | _ :: t, O => t
  | h :: t, S i' => h :: removeAt i' t
  end.

(** A mutation of the object stored at index [i]. *)
Fixpoint updateAt {A : Type} (i : nat) (f : A -> A) (l : list A) : list A :=
  match l, i with
  | [], _ => []
  | h :: t, O => f h :: t
  | h :: t, S i' => h :: updateAt i' f t
  end.

(** ** The oracles *)

(** [performance.now()] *)
Definition performanceNow (w : World) : R * World :=
  (perfNow w (perfReads w), set_perfReads (S (perfReads w)) w).

(** [Math.random()] *)
Definition random (w : World) : R * World :=
  (mathRandom w (randomReads w), set_randomReads (S (randomReads w)) w).

(** ** Utility functions *)

(** [Math.hypot(x2 - x1, y2 - y1)] *)
Definition distance (x1 y1 x2 y2 : R) : R :=
  sqrt ((x2 - x1)² + (y2 - y1)²).

Definition randomRange (mn mx : R) (w : World) : R * World :=
  let (r, w1) := random w in (r * (mx - mn) + mn, w1).

Definition clamp (val mn mx : R) : R := Rmax mn (Rmin val mx).

(** [Math.atan2(y, x)], without signed zeros. *)
Definition atan2 (b a : R) : R :=
  if 0 <? a then atan (b / a)
  else if a <? 0 then
         (if b <? 0 then atan (b / a) - PI else atan (b / a) + PI)
  else if 0 <? b then PI / 2
  else if b <? 0 then - (PI / 2)
  else 0.

(** [Math.floor(Math.random() * 16777215)], the value of the random
    colour string. *)
Definition randomColor (w : World) : Color * World :=
  let (r, w1) := random w in ((up (r * 16777215) - 1)%Z, w1).

Definition getPlayerCenter (w : World) : R * R :=
  match playerCells w with
  | [] => (canvasWidth w / 2, canvasHeight w / 2)
  | _ =>
    let sumX := fold_left (fun s c => s + x c) (playerCells w) 0 in
    let sumY := fold_left (fun s c => s + y c) (playerCells w) 0 in
    (sumX / INR (length (playerCells w)), sumY / INR (length (playerCells w)))
  end.

(** The movement target of the player cells. *)
Definition playerTarget (w : World) : R * R :=
  let (cx, cy) := getPlayerCenter w in
  (cx + (mouseX w - canvasWidth w / 2), cy + (mouseY w - canvasHeight w / 2)).

(** ** Class Cell *)

(** [new Cell(x, y, radius, color, isPlayer)] *)
Definition newCell (x0 y0 r : R) (col : Color) (player : bool) (w : World)
  : Cell * World :=
  let (t, w1) := performanceNow w in
  (mkCell x0 y0 r (r ^ 2) col player 0 0 0 0 r false t, w1).

Definition grow (amount : R) (c : Cell) : Cell :=
  let m := mass c + amount in
  set_radius (sqrt m) (set_mass m c).

(** [cell.update(target)] *)
Definition update (target : R * R) (c : Cell) : Cell :=
  let c' :=
    if isPlayer c then
      let c1 := set_y (y c + extraVY c) (set_x (x c + extraVX c) c) in
      let c2 := set_extraVY (extraVY c1 * 0.95)
                  (set_extraVX (extraVX c1 * 0.95) c1) in
      let dx := fst target - x c2 in
      let dy := snd target - y c2 in
      let angle := atan2 dy dx in
      let speed := clamp (4 - radius c2 / 20) 1 4 in
      let c3 := set_y (y c2 + sin angle * speed)
                  (set_x (x c2 + cos angle * speed) c2) in
      let c4 := set_x (clamp (x c3) (radius c3) (MAP_WIDTH - radius c3)) c3 in
      set_y (clamp (y c4) (radius c4) (MAP_HEIGHT - radius c4)) c4
    else
      let c1 := set_y (y c + (vy c + extraVY c))
                  (set_x (x c + (vx c + extraVX c)) c) in
      let c2 := set_extraVY (extraVY c1 * 0.95)
                  (set_extraVX (extraVX c1 * 0.95) c1) in
      let c3 := if (x c2 - radius c2 <? 0) || (x c2 + radius c2 >? MAP_WIDTH)
                then set_vx (vx c2 * -1) c2 else c2 in
      if (y c3 - radius c3 <? 0) || (y c3 + radius c3 >? MAP_HEIGHT)
      then set_vy (vy c3 * -1) c3 else c3
  in
  set_drawRadius (drawRadius c' + (radius c' - drawRadius c') * 0.1) c'.

(** ** Spawn functions *)

(** [new RotatingHexagon(x, y, size)] *)
Definition newHexagon (x0 y0 sz : R) (w : World) : RotatingHexagon * World :=
  let (speed, w1) := randomRange 0.01 0.05 w in
  (mkHexagon x0 y0 sz 0 speed (sz * sz), w1).

Definition spawnHexagon (w : World) : World :=
  let (x0, w1) := randomRange 100 (MAP_WIDTH - 100) w in
  let (y0, w2) := randomRange 100 (MAP_HEIGHT - 100) w1 in
  let (sz, w3) := randomRange 10 20 w2 in
  let (h, w4) := newHexagon x0 y0 sz w3 in
  set_hexagons (hexagons w4 ++ [h]) w4.

Definition spawnFood (w : World) : World :=
  let (r, w0) := random w in
  if r <? 0.1 then spawnHexagon w0
  else
    let (x0, w1) := randomRange 0 MAP_WIDTH w0 in
    let (y0, w2) := randomRange 0 MAP_HEIGHT w1 in
    let (rad, w3) := randomRange FOOD_MIN_RADIUS FOOD_MAX_RADIUS w2 in
    let (col, w4) := randomColor w3 in
    set_foods (foods w4 ++ [mkFood x0 y0 rad col]) w4.

Definition spawnAICell (w : World) : World :=
  let (chance, w0) := random w in
  if chance <? 0.5 then
    let (x0, w1) := randomRange 100 (MAP_WIDTH - 100) w0 in
    let (y0, w2) := randomRange 100 (MAP_HEIGHT - 100) w1 in
    let (rad, w3) := randomRange 50 70 w2 in
    let (boss, w4) := newCell x0 y0 rad 139%Z false w3 in
    let boss1 := set_isBoss true boss in
    let (angle, w5) := randomRange 0 (PI * 2) w4 in
    let (s1, w6) := randomRange 0.3 1 w5 in
    let boss2 := set_vx (cos angle * s1) boss1 in
    let (s2, w7) := randomRange 0.3 1 w6 in
    let boss3 := set_vy (sin angle * s2) boss2 in
    set_aiCells (aiCells w7 ++ [boss3]) w7
  else
    let (x0, w1) := randomRange 100 (MAP_WIDTH - 100) w0 in
    let (y0, w2) := randomRange 100 (MAP_HEIGHT - 100) w1 in
    let (r, w3) := random w2 in
    let rad := 10 + (25 - 10) * (r ^ 2) in
    let (col, w4) := randomColor w3 in
    let (ai, w5) := newCell x0 y0 rad col false w4 in
    let (angle, w6) := randomRange 0 (PI * 2) w5 in
    let (s1, w7) := randomRange 0.5 2 w6 in
    let ai1 := set_vx (cos angle * s1) ai in
    let (s2, w8) := randomRange 0.5 2 w7 in
    let ai2 := set_vy (sin angle * s2) ai1 in
    set_aiCells (aiCells w8 ++ [ai2]) w8.

(** ** Split mechanic *)

(** The body of the loop of [splitPlayerCells] for the cell stored at index
    [i], after the test on the number of cells.  [cellsToSplit] is a copy of
    the array, not of the cells: [cellsToSplit[i]] and [playerCells[i]] are
    the same object, since the pass only appends to [playerCells]. *)
Definition splitPlayerCell (i : nat) (w : World) : World :=
  match nth_error (playerCells w) i with
  | None => w
  | Some cell =>
    if mass cell <? 80 then w
    else
      let newMass := mass cell / 2 in
      let (t1, w1) := performanceNow w in
      let cell1 := set_lastSplitTime t1
                     (set_radius (sqrt newMass) (set_mass newMass cell)) in
      let w2 := set_playerCells (updateAt i (fun _ => cell1) (playerCells w1)) w1 in
      let (nc, w3) := newCell (x cell1) (y cell1) (radius cell1) (color cell1)
                              true w2 in
      let nc1 := set_mass newMass nc in
      let (t3, w4) := performanceNow w3 in
      let nc2 := set_lastSplitTime t3 nc1 in
      let (tx, ty) := playerTarget w4 in
      let angle := atan2 (ty - y cell1) (tx - x cell1) in
      let impulse := 10 in
      let nc3 := set_extraVY (sin angle * impulse)
                   (set_extraVX (cos angle * impulse) nc2) in
      let nc4 := set_y (y nc3 + extraVY nc3) (set_x (x nc3 + extraVX nc3) nc3) in
      let cell2 := set_extraVY (extraVY cell1 - sin angle * impulse * 0.5)
                     (set_extraVX (extraVX cell1 - cos angle * impulse * 0.5)
                                  cell1) in
      set_playerCells (updateAt i (fun _ => cell2) (playerCells w4) ++ [nc4]) w4
  end.

(** The loop over [cellsToSplit]: [n] cells remain, the next one is at
    index [i]. *)
Fixpoint splitLoop (n i : nat) (w : World) : World :=
  match n with
  | O => w
  | S n' =>
    if (MAX_CELLS <=? length (playerCells w))%nat then w
    else splitLoop n' (S i) (splitPlayerCell i w)
  end.

Definition splitPlayerCells (w : World) : World :=
  splitLoop (length (playerCells w)) 0 w.

(** [splitBot(bot, impulse)], where [bot] is [aiCells[k]]. *)
Definition splitBot (k : nat) (impulse : R) (w : World) : World :=
  match nth_error (aiCells w) k with
  | None => w
  | Some bot =>
    if mass bot <? 40 then w
    else
      let newMass := mass bot / 2 in
      let (t1, w1) := performanceNow w in
      let bot1 := set_lastSplitTime t1
                    (set_radius (sqrt newMass) (set_mass newMass bot)) in
      let angle := atan2 (vy bot1) (vx bot1) in
      let (nb, w2) := newCell (x bot1) (y bot1) (radius bot1) (color bot1)
                              false w1 in
      let nb1 := set_radius (sqrt newMass) (set_mass newMass nb) in
      let (t3, w3) := performanceNow w2 in
      let nb2 := set_lastSplitTime t3 nb1 in
      let nb3 := set_extraVY (sin angle * impulse)
                   (set_extraVX (cos angle * impulse) nb2) in
      let nb4 := set_y (y nb3 + extraVY nb3) (set_x (x nb3 + extraVX nb3) nb3) in
      let bot2 := set_extraVY (extraVY bot1 - sin angle * impulse * 0.5)
                    (set_extraVX (extraVX bot1 - cos angle * impulse * 0.5)
                                 bot1) in
      set_aiCells (updateAt k (fun _ => bot2) (aiCells w3) ++ [nb4]) w3
  end.

(** ** Collision and merging *)

Definition checkCollision (cellA cellB : Cell) : bool :=
  distance (x cellA) (y cellA) (x cellB) (y cellB) <? radius cellA + radius cellB.

(** The test guarding a merge of [cellA] with [cellB]. *)
Definition canMerge (now : R) (cellA cellB : Cell) : bool :=
  checkCollision cellA cellB &&
  ((now - lastSplitTime cellA >? MERGE_DELAY) &&
   (now - lastSplitTime cellB >? MERGE_DELAY)).

(** The assignments to [cellA] when it absorbs [cellB]. *)
Definition mergeInto (now : R) (cellA cellB : Cell) : Cell :=
  let totalMass := mass cellA + mass cellB in
  let newX := (x cellA * mass cellA + x cellB * mass cellB) / totalMass in
  let newY := (y cellA * mass cellA + y cellB * mass cellB) / totalMass in
  set_lastSplitTime now
    (set_radius (sqrt totalMass)
       (set_mass totalMass (set_y newY (set_x newX cellA)))).

(** The inner loop of [mergePlayerCells]: [cellA] is [playerCells[i]] and
    [rest] the cells at the indices [j > i] still to be examined.  An
    absorbed cell is spliced out and the scan goes on at the same index
    with the grown [cellA]. *)
Fixpoint mergeInner (now : R) (cellA : Cell) (rest : list Cell)
  : Cell * list Cell :=
  match rest with
  | [] => (cellA, [])
  | cellB :: t =>
    if canMerge now cellA cellB then mergeInner now (mergeInto now cellA cellB) t
    else let (a, t') := mergeInner now cellA t in (a, cellB :: t')
  end.

(** The outer loop: one iteration per surviving cell. *)
Fixpoint mergeOuter (fuel : nat) (now : R) (cells : list Cell) : list Cell :=
  match fuel with
  | O => cells
  | S f =>
    match cells with
    | [] => []
    | cellA :: rest =>
      let (a, rest') := mergeInner now cellA rest in
      a :: mergeOuter f now rest'
    end
  end.

Definition mergePlayerCells (w : World) : World :=
  let (now, w1) := performanceNow w in
  set_playerCells (mergeOuter (length (playerCells w1)) now (playerCells w1)) w1.

(** ** The collision passes of [updateGame] *)

(** The array a pass takes its cells from. *)
Inductive Owner : Type := Players | Agents.

Definition cellsOf (o : Owner) (w : World) : list Cell :=
  match o with Players => playerCells w | Agents => aiCells w end.

Definition set_cellsOf (o : Owner) (v : list Cell) (w : World) : World :=
  match o with Players => set_playerCells v w | Agents => set_aiCells v w end.

(** The loop [for (let i = foods.length - 1; i >= 0; i--)] for the cell at
    index [p] of its array; the indices below [i] remain to be examined. *)
Fixpoint eatFoods (o : Owner) (p i : nat) (w : World) : World :=
  match i with
  | O => w
  | S i' =>
    match nth_error (cellsOf o w) p, nth_error (foods w) i' with
    | Some cell, Some f =>
      if distance (x cell) (y cell) (fx f) (fy f) <? radius cell + fradius f
      then
        let w1 := set_cellsOf o (updateAt p (grow (fradius f ^ 2 * 0.5))
                                          (cellsOf o w)) w in
        let w2 := set_foods (removeAt i' (foods w1)) w1 in
        eatFoods o p i' (spawnFood (logEvent BodyPellet w2))
      else eatFoods o p i' w
    | _, _ => eatFoods o p i' w
    end
  end.

(** [for (let cell of ...)] over the cells of [o]; the pass does not change
    the number of cells. *)
Definition eatFoodPass (o : Owner) (w : World) : World :=
  fold_left (fun w' p => eatFoods o p (length (foods w')) w')
            (seq 0 (length (cellsOf o w))) w.

(** Player cells against AI cells: the inner loop for [aiCells[i]], with
    the player indices below [j] still to be examined. *)
Fixpoint playerVsAIInner (i j : nat) (w : World) : World :=
  match j with
  | O => w
  | S j' =>
    match nth_error (aiCells w) i, nth_error (playerCells w) j' with
    | Some ai, Some cell =>
      if distance (x cell) (y cell) (x ai) (y ai) <? radius cell + radius ai
      then
        if mass cell >? mass ai * 1.1 then
          let w1 := set_playerCells (updateAt j' (grow (mass ai * 0.5))
                                              (playerCells w)) w in
          let w2 := set_aiCells (removeAt i (aiCells w1)) w1 in
          spawnAICell (logEvent PlayerAgent w2)
        else if mass ai >? mass cell * 1.1 then
          let w1 := set_playerCells (removeAt j' (playerCells w)) w in
          let w2 := match playerCells w1 with
                    | [] => set_gameOver true w1
                    | _ => w1
                    end in
          logEvent PlayerAgent w2
        else playerVsAIInner i j' w
      else playerVsAIInner i j' w
    | _, _ => playerVsAIInner i j' w
    end
  end.

Fixpoint playerVsAIOuter (i : nat) (w : World) : World :=
  match i with
  | O => w
  | S i' => playerVsAIOuter i' (playerVsAIInner i' (length (playerCells w)) w)
  end.

Definition playerVsAI (w : World) : World :=
  playerVsAIOuter (length (aiCells w)) w.

(** AI cells against AI cells.  The two nested loops are run from the
    state [(i, j)]; each consumption appends a spawned cell to the array
    being scanned, so the number of iterations depends on the random
    oracle. *)
Fixpoint aiVsAILoop (fuel i j : nat) (w : World) : result World :=
  match fuel with
  | O => OutOfFuel w
  | S f =>
    if (i <? length (aiCells w))%nat then
      if (j <? length (aiCells w))%nat then
        match nth_error (aiCells w) i, nth_error (aiCells w) j with
        | Some cellA, Some cellB =>
          if distance (x cellA) (y cellA) (x cellB) (y cellB)
             <? radius cellA + radius cellB
          then
            if mass cellA >? mass cellB * 1.1 then
              let w1 := set_aiCells (updateAt i (grow (mass cellB * 0.5))
                                              (aiCells w)) w in
              let w2 := set_aiCells (removeAt j (aiCells w1)) w1 in
              aiVsAILoop f i j (spawnAICell (logEvent AgentAgent w2))
            else if mass cellB >? mass cellA * 1.1 then
              let w1 := set_aiCells (updateAt j (grow (mass cellA * 0.5))
                                              (aiCells w)) w in
              let w2 := set_aiCells (removeAt i (aiCells w1)) w1 in
              aiVsAILoop f i (S i) (spawnAICell (logEvent AgentAgent w2))
            else aiVsAILoop f i (S j) w
          else aiVsAILoop f i (S j) w
        | _, _ => aiVsAILoop f i (S j) w
        end
      else aiVsAILoop f (S i) (S (S i)) w
    else Ok w
  end.

Definition aiVsAI (fuel : nat) (w : World) : result World :=
  aiVsAILoop fuel 0 1 w.

(** [new RainbowEffect(x, y)] *)
Definition newRainbowEffect (x0 y0 : R) : RainbowEffect :=
  mkRainbow x0 y0 1000 1000 50.

(** Player cells against hexagons, for the player cell at index [p]. *)
Fixpoint eatHexagons (p i : nat) (w : World) : World :=
  match i with
  | O => w
  | S i' =>
    match nth_error (playerCells w) p, nth_error (hexagons w) i' with
    | Some cell, Some hex =>
      if distance (x cell) (y cell) (hx hex) (hy hex) <? radius cell + size hex
      then
        let w1 := set_playerCells (updateAt p (grow (massBonus hex * 1.5))
                                            (playerCells w)) w in
        let w2 := set_rainbowEffects
                    (rainbowEffects w1 ++ [newRainbowEffect (hx hex) (hy hex)])
                    w1 in
        let w3 := set_hexagons (removeAt i' (hexagons w2)) w2 in
        eatHexagons p i' (logEvent BodyStructure w3)
      else eatHexagons p i' w
    | _, _ => eatHexagons p i' w
    end
  end.

Definition eatHexagonPass (w : World) : World :=
  fold_left (fun w' p => eatHexagons p (length (hexagons w')) w')
            (seq 0 (length (playerCells w))) w.

(** The collision part of [updateGame], in the order of the source. *)
Definition resolveCollisions (fuel : nat) (w : World) : result World :=
  let w1 := eatFoodPass Players w in
  let w2 := eatFoodPass Agents w1 in
  let w3 := playerVsAI w2 in
  w4 <- aiVsAI fuel w3 ;;
  Ok (eatHexagonPass w4).

(** ** Bot AI (botAI.js) *)

Definition dangerDistance : R := 300.
Definition preyDistance : R := 400.
Definition splitDistance : R := 150.

(** The steering accumulator [steerX], [steerY], [count]. *)
Record Steer : Type := mkSteer {
  steerX : R;
  steerY : R;
  count : nat
}.

(** How the body of the loop over the opponents ends: normally, or with
    the call [splitBot(bot, 20)] followed by [break]. *)
Inductive ScanStep : Type :=
| Next (s : Steer)
| SplitAndBreak (s : Steer).

(** The split condition of the prey branch. *)
Definition splitCondition (now : R) (bot op : Cell) (d : R) : bool :=
  ((isBoss bot && (mass op <? mass bot * 0.45)) ||
   (negb (isBoss bot) && (mass op <? mass bot / 3))) &&
  (d <? splitDistance) &&
  (now - lastSplitTime bot >? MERGE_DELAY).

(** The body of [for (let op of opponents)]. *)
Definition scanOpponent (now effectivePreyDistance : R) (bot op : Cell)
           (s : Steer) : result ScanStep :=
  let d := distance (x bot) (y bot) (x op) (y op) in
  if eqb0 d then Ok (Next s)
  else
    s1 <- (if (mass op >? mass bot * 1.1) && (d <? dangerDistance) then
             ux <- cdiv (x op - x bot) d ;;
             uy <- cdiv (y op - y bot) d ;;
             Ok (mkSteer (steerX s - ux) (steerY s - uy) (S (count s)))
           else Ok s) ;;
    if (mass op <? mass bot * 0.9) && (d <? effectivePreyDistance) then
      ux <- cdiv (x op - x bot) d ;;
      uy <- cdiv (y op - y bot) d ;;
      let s2 := mkSteer (steerX s1 + ux) (steerY s1 + uy) (S (count s1)) in
      if splitCondition now bot op d then Ok (SplitAndBreak s2)
      else Ok (Next s2)
    else Ok (Next s1).

Fixpoint scanOpponents (now effectivePreyDistance : R) (bot : Cell)
         (opponents : list Cell) (s : Steer) : result ScanStep :=
  match opponents with
  | [] => Ok (Next s)
  | op :: rest =>
    r <- scanOpponent now effectivePreyDistance bot op s ;;
    match r with
    | Next s' => scanOpponents now effectivePreyDistance bot rest s'
    | SplitAndBreak s' => Ok (SplitAndBreak s')
    end
  end.

(** The opponents of [aiCells[k]]: the player cells, then the other bots. *)
Definition opponentsOf (k : nat) (w : World) : list Cell :=
  playerCells w ++ removeAt k (aiCells w).

(** The end of the body of [for (let bot of aiCells)]: the new velocity. *)
Definition steer (k : nat) (s : Steer) (w : World) : result World :=
  if (0 <? count s)%nat then
    sx <- cdiv (steerX s) (INR (count s)) ;;
    sy <- cdiv (steerY s) (INR (count s)) ;;
    let mag := sqrt (sx * sx + sy * sy) in
    n <- (if mag >? 0 then
            nx <- cdiv sx mag ;;
            ny <- cdiv sy mag ;;
            Ok (nx, ny)
          else Ok (sx, sy)) ;;
    let (speed, w1) := randomRange 0.5 2 w in
    Ok (set_aiCells
          (updateAt k (fun b => set_vy (snd n * speed) (set_vx (fst n * speed) b))
                    (aiCells w1)) w1)
  else Ok w.

(** The body of [for (let bot of aiCells)] for the bot at index [k].  The
    opponents are scanned in the state before any split: the scan changes
    nothing until it calls [splitBot], after which it stops. *)
Definition updateBot (now : R) (k : nat) (w : World) : result World :=
  match nth_error (aiCells w) k with
  | None => Ok w
  | Some bot =>
    let effectivePreyDistance := if isBoss bot then 600 else preyDistance in
    r <- scanOpponents now effectivePreyDistance bot (opponentsOf k w)
                       (mkSteer 0 0 0) ;;
    match r with
    | Next s => steer k s w
    | SplitAndBreak s => steer k s (splitBot k 20 w)
    end
  end.

(** The loop over [aiCells], which sees the bots that splits append. *)
Fixpoint botLoop (fuel : nat) (now : R) (k : nat) (w : World) : result World :=
  match fuel with
  | O => OutOfFuel w
  | S f =>
    if (k <? length (aiCells w))%nat then
      w' <- updateBot now k w ;;
      botLoop f now (S k) w'
    else Ok w
  end.

Definition updateBotAI (fuel : nat) (w : World) : result World :=
  let (now, w1) := performanceNow w in
  botLoop fuel now 0 w1.

(** ** The tick *)

(** [ai.update()] passes no target; the bot branch of [update] reads none. *)
Definition noTarget : R * R := (0, 0).

Definition updateGame (fuel : nat) (w : World) : result World :=
  if gameOver w then Ok w
  else
    let target := playerTarget w in
    let w1 := set_playerCells (map (update target) (playerCells w)) w in
    let w2 := set_aiCells (map (update noTarget) (aiCells w1)) w1 in
    w3 <- updateBotAI fuel w2 ;;
    w4 <- resolveCollisions fuel w3 ;;
    Ok (mergePlayerCells w4).

(** ** Vocabulary of the properties *)

(** The outcome of a split of [cell], stored at index [i] of the array
    [arr], from the world [w] to the world [w']: the parent stays at its
    index with half of the mass, one child with the other half is
    appended, and both carry a reading of [performance.now()] taken by the
    split. *)
Definition halved (arr : World -> list Cell) (i : nat) (cell : Cell)
           (w w' : World) : Prop :=
  exists parent child,
    nth_error (arr w') i = Some parent /\
    nth_error (arr w') (length (arr w)) = Some child /\
    length (arr w') = S (length (arr w)) /\
    mass parent = mass cell / 2 /\
    mass child = mass cell / 2 /\
    mass child + mass parent = mass cell /\
    lastSplitTime parent = perfNow w (perfReads w) /\
    lastSplitTime child = perfNow w (perfReads w + 2) /\
    perfReads w' = (perfReads w + 3)%nat.

(** Both cells have waited for more than the merge delay. *)
Definition cooledDown (now : R) (cellA cellB : Cell) : Prop :=
  now - lastSplitTime cellA > MERGE_DELAY /\
  now - lastSplitTime cellB > MERGE_DELAY.

(** The fields of a cell that the merge pass does not assign to. *)
Definition sameFrame (c c' : Cell) : Prop :=
  vx c' = vx c /\ vy c' = vy c /\
  extraVX c' = extraVX c /\ extraVY c' = extraVY c /\
  color c' = color c /\ drawRadius c' = drawRadius c /\
  isPlayer c' = isPlayer c /\ isBoss c' = isBoss c.

(** A group of the merge pass: a cell and the cells it absorbs, in the
    order in which it absorbs them; what is left of the group is the first
    cell after the successive merges. *)
Definition members (g : Cell * list Cell) : list Cell := fst g :: snd g.
Definition survivor (now : R) (g : Cell * list Cell) : Cell :=
  fold_left (mergeInto now) (snd g) (fst g).

(** The world after the velocity of the bot at index [k] was set to the
    direction [(ux, uy)] scaled by a fresh random speed. *)
Definition withVelocity (k : nat) (ux uy : R) (w : World) : World :=
  let (speed, w1) := randomRange 0.5 2 w in
  set_aiCells
    (updateAt k (fun b => set_vy (uy * speed) (set_vx (ux * speed) b))
              (aiCells w1)) w1.

(** The world a computation ends in, or is in when its fuel runs out. *)
Definition reached (r : result World) (w' : World) : Prop :=
  r = Ok w' \/ r = OutOfFuel w'.

(** What a pass over pellets does between [w] and [w']: it applies some
    number [n] of pellet consumptions, calls the spawn policy [n] times
    (each call of [spawnFood] draws five random numbers), and leaves the
    number of pellets and hexagons, taken together, as it was. *)
Definition pelletPass (w w' : World) : Prop :=
  exists n,
    events w' = events w ++ repeat BodyPellet n /\
    randomReads w' = (randomReads w + 5 * n)%nat /\
    (length (foods w') + length (hexagons w')
     = length (foods w) + length (hexagons w))%nat /\
    length (aiCells w') = length (aiCells w) /\
    length (playerCells w') = length (playerCells w).

(** What a pass of category [c] over the bots does: some number of
    consumptions, the same number of bots afterwards, and the pellets and
    hexagons untouched. *)
Definition agentPass (c : Category) (w w' : World) : Prop :=
  exists n,
    events w' = events w ++ repeat c n /\
    length (aiCells w') = length (aiCells w) /\
    foods w' = foods w /\ hexagons w' = hexagons w.

(** What the pass over hexagons does: [n] consumptions, [n] hexagons
    fewer, no random draw (so no call of a spawn function), and the pellets
    and bots untouched. *)
Definition structurePass (w w' : World) : Prop :=
  exists n,
    events w' = events w ++ repeat BodyStructure n /\
    (length (hexagons w') + n = length (hexagons w))%nat /\
    foods w' = foods w /\
    randomReads w' = randomReads w /\
    aiCells w' = aiCells w.




(** ** Sample worlds *)

(** A cell of mass [m] at [(x0, y0)], at rest, last split at time [t]. *)
Definition cellAt (x0 y0 m : R) (player boss : bool) (t : R) : Cell :=
  mkCell x0 y0 (sqrt m) m 0%Z player 0 0 0 0 (sqrt m) boss t.

(** A world with the given entities, whose clock shows [10000 + n] at its
    [n]-th reading and whose random draws are all [1/2]. *)
Definition arena (fs : list Food) (ais players : list Cell)
           (hs : list RotatingHexagon) : World :=
  mkWorld fs ais players false hs [] 0 0 0 0
          (fun n => 10000 + INR n) 0 (fun _ => 0.5) 0 [].

(** A lone player cell of mass 50. *)
Definition player50 : Cell := cellAt 2500 2500 50 true false 0.
Definition world_player50 : World := arena [] [] [player50] [].

(** A bot of mass 300 and a player cell of mass 100, far apart. *)
Definition bot300 : Cell := cellAt 1000 1000 300 false false 0.
Definition player100 : Cell := cellAt 2500 2500 100 true false 0.
Definition world_split : World := arena [] [bot300] [player100] [].

(** A bot and a player cell of mass 30, far apart. *)
Definition bot30 : Cell := cellAt 1000 1000 30 false false 0.
Definition player30 : Cell := cellAt 2500 2500 30 true false 0.
Definition world_small : World := arena [] [bot30] [player30] [].

(** Two player cells of mass 50 and 70 whose circles overlap, last split
    3000 ms before the first reading of the clock. *)
Definition player50m : Cell := cellAt 0 0 50 true false 7000.
Definition player70m : Cell := cellAt 3 4 70 true false 7000.
Definition world_merge : World := arena [] [] [player50m; player70m] [].


(** A bot of mass 100 moving to the right, midway between two player cells
    of mass 400, each at distance 100. *)
Definition bot100 : Cell :=
  mkCell 1000 1000 (sqrt 100) 100 0%Z false 1 0 0 0 (sqrt 100) false 0.
Definition predatorEast : Cell := cellAt 1100 1000 400 true false 0.
Definition predatorWest : Cell := cellAt 900 1000 400 true false 0.
Definition world_standoff : World :=
  arena [] [bot100] [predatorEast; predatorWest] [].

(** A bot of mass 100 and one player cell of mass 400 at distance 100. *)
Definition world_flee : World := arena [] [bot100] [predatorEast] [].

(** A player cell of mass 100 within reach of a bot of mass 400. *)
Definition victim100 : Cell := cellAt 0 0 100 true false 0.
Definition hunter400 : Cell := cellAt 5 0 400 false false 0.
Definition world_hunt : World := arena [] [hunter400] [victim100] [].

(** The same two cells, and far from them a second player cell of mass 100
    sitting on a hexagon of size 10. *)
Definition grazer100 : Cell := cellAt 1000 1000 100 true false 0.
Definition hexagon10 : RotatingHexagon := mkHexagon 1000 1000 10 0 0.02 (10 * 10).
Definition world_order : World :=
  arena [] [hunter400] [victim100; grazer100] [hexagon10].

(** A lone player cell sitting on a hexagon. *)
Definition world_hexagon : World := arena [] [] [grazer100] [hexagon10].

(** A player cell of mass 100 and a bot of mass 400 with the same centre. *)
Definition centred400 : Cell := cellAt 0 0 400 false false 0.
Definition world_same_centre : World := arena [] [centred400] [victim100] [].

(** ** Initialization, extras and the frame (main.js) *)

Definition leb (a b : R) : bool := if Rle_dec a b then true else false.

Notation "a <=? b" := (leb a b) : R_scope.

(** The body of the loop of [initFoods]: one random pellet. *)
Definition initFood (w : World) : World :=
  let (x0, w1) := randomRange 0 MAP_WIDTH w in
  let (y0, w2) := randomRange 0 MAP_HEIGHT w1 in
  let (rad, w3) := randomRange FOOD_MIN_RADIUS FOOD_MAX_RADIUS w2 in
  let (col, w4) := randomColor w3 in
  set_foods (foods w4 ++ [mkFood x0 y0 rad col]) w4.

Definition initFoods (w : World) : World :=
  Nat.iter FOOD_COUNT initFood (set_foods [] w).

(** The body of the loop of [initAICells]: with one chance in two a call
    of [spawnAICell], which may make a boss, otherwise a regular bot. *)
Definition initAICell (w : World) : World :=
  let (r0, w0) := random w in
  if r0 <? 0.5 then spawnAICell w0
  else
    let (x0, w1) := randomRange 100 (MAP_WIDTH - 100) w0 in
    let (y0, w2) := randomRange 100 (MAP_HEIGHT - 100) w1 in
    let (r, w3) := random w2 in
    let rad := 10 + (25 - 10) * (r ^ 2) in
    let (col, w4) := randomColor w3 in
    let (ai, w5) := newCell x0 y0 rad col false w4 in
    let (angle, w6) := randomRange 0 (PI * 2) w5 in
    let (s1, w7) := randomRange 0.5 2 w6 in
    let ai1 := set_vx (cos angle * s1) ai in
    let (s2, w8) := randomRange 0.5 2 w7 in
    let ai2 := set_vy (sin angle * s2) ai1 in
    set_aiCells (aiCells w8 ++ [ai2]) w8.

Definition initAICells (w : World) : World :=
  Nat.iter AI_COUNT initAICell (set_aiCells [] w).

(** The colour "#00AA00" of the player. *)
Definition playerColor : Color := 43520%Z.

Definition initPlayer (w : World) : World :=
  let w0 := set_playerCells [] w in
  let (cell, w1) := newCell (MAP_WIDTH / 2) (MAP_HEIGHT / 2) 20 playerColor
                            true w0 in
  set_playerCells (playerCells w1 ++ [cell]) w1.

Definition startGame (w : World) : World :=
  initPlayer (initAICells (initFoods (set_gameOver false w))).

(** [hex.update()] *)
Definition hexagonUpdate (h : RotatingHexagon) : RotatingHexagon :=
  mkHexagon (hx h) (hy h) (size h) (rotation h + rotationSpeed h)
            (rotationSpeed h) (massBonus h).

(** [effect.update(delta)] *)
Definition effectUpdate (delta : R) (e : RainbowEffect) : RainbowEffect :=
  mkRainbow (ex e) (ey e) (maxLifetime e) (lifetime e - delta) (eradius e).

(** The loop [for (let i = rainbowEffects.length - 1; i >= 0; i--)] of
    [updateExtras]; the indices below [i] remain to be handled. *)
Fixpoint expireEffects (i : nat) (l : list RainbowEffect) : list RainbowEffect :=
  match i with
  | O => l
  | S i' =>
    let l1 := updateAt i' (effectUpdate 16) l in
    match nth_error l1 i' with
    | Some e =>
      if lifetime e <=? 0 then expireEffects i' (removeAt i' l1)
      else expireEffects i' l1
    | None => expireEffects i' l1
    end
  end.

Definition updateExtras (w : World) : World :=
  let w1 := set_hexagons (map hexagonUpdate (hexagons w)) w in
  set_rainbowEffects
    (expireEffects (length (rainbowEffects w1)) (rainbowEffects w1)) w1.

(** The body of [gameLoop], drawing apart. *)
Definition gameFrame (fuel : nat) (w : World) : result World :=
  if gameOver w then Ok w
  else
    w1 <- updateGame fuel w ;;
    Ok (updateExtras w1).

(** ** The mutations of a tick, one by one *)

(** The two loops of [updateGame] that call [update]. *)
Definition moveCells (w : World) : World :=
  let target := playerTarget w in
  let w1 := set_playerCells (map (update target) (playerCells w)) w in
  set_aiCells (map (update noTarget) (aiCells w1)) w1.

(** The branch of [eatFoods] taken when the cell at index [p] overlaps the
    pellet [f] stored at index [i]. *)
Definition eatPellet (o : Owner) (p i : nat) (f : Food) (w : World) : World :=
  let w1 := set_cellsOf o (updateAt p (grow (fradius f ^ 2 * 0.5))
                                    (cellsOf o w)) w in
  let w2 := set_foods (removeAt i (foods w1)) w1 in
  spawnFood (logEvent BodyPellet w2).

(** The two consuming branches of [playerVsAIInner], for the bot [ai] at
    index [i] and the player cell at index [j]. *)
Definition playerEatsBot (i j : nat) (ai : Cell) (w : World) : World :=
  let w1 := set_playerCells (updateAt j (grow (mass ai * 0.5))
                                      (playerCells w)) w in
  let w2 := set_aiCells (removeAt i (aiCells w1)) w1 in
  spawnAICell (logEvent PlayerAgent w2).

Definition botEatsPlayer (j : nat) (w : World) : World :=
  let w1 := set_playerCells (removeAt j (playerCells w)) w in
  let w2 := match playerCells w1 with
            | [] => set_gameOver true w1
            | _ => w1
            end in
  logEvent PlayerAgent w2.

(** The consuming branches of [aiVsAILoop]: the bot at index [i] grows by
    half of the mass of [eaten], which is removed from index [j]. *)
Definition botEatsBot (i j : nat) (eaten : Cell) (w : World) : World :=
  let w1 := set_aiCells (updateAt i (grow (mass eaten * 0.5)) (aiCells w)) w in
  let w2 := set_aiCells (removeAt j (aiCells w1)) w1 in
  spawnAICell (logEvent AgentAgent w2).

(** The consuming branch of [eatHexagons]. *)
Definition eatHexagon (p i : nat) (hex : RotatingHexagon) (w : World) : World :=
  let w1 := set_playerCells (updateAt p (grow (massBonus hex * 1.5))
                                      (playerCells w)) w in
  let w2 := set_rainbowEffects
              (rainbowEffects w1 ++ [newRainbowEffect (hx hex) (hy hex)])
              w1 in
  let w3 := set_hexagons (removeAt i (hexagons w2)) w2 in
  logEvent BodyStructure w3.

(** ** Vocabulary of the further properties *)

(** A cell as every constructor and every mutation of the source leaves
    it: of positive mass, with the radius that goes with the mass. *)
Definition healthy (c : Cell) : Prop :=
  0 < mass c /\ radius c = sqrt (mass c).

(** Every random draw lies in [0, 1), as [Math.random] promises. *)
Definition fairRandom (w : World) : Prop :=
  forall n, 0 <= mathRandom w n < 1.

Definition healthyWorld (w : World) : Prop :=
  Forall healthy (playerCells w) /\
  Forall healthy (aiCells w) /\
  Forall (fun h => 0 <= massBonus h) (hexagons w) /\
  fairRandom w.

(** The game-over flag is up exactly when no player cell is left. *)
Definition flagged (w : World) : Prop :=
  gameOver w = true <-> playerCells w = [].

Definition totalMass (l : list Cell) : R :=
  fold_right (fun c s => mass c + s) 0 l.

(** The test under which the collision passes let one of two bodies
    consume the other. *)
Definition consumes (a b : Cell) : bool :=
  (distance (x a) (y a) (x b) (y b) <? radius a + radius b) &&
  ((mass a >? mass b * 1.1) || (mass b >? mass a * 1.1)).

(** No bot can consume another, no bot and player cell can consume each
    other. *)
Definition quietBots (w : World) : Prop :=
  forall i j a b,
    nth_error (aiCells w) i = Some a -> nth_error (aiCells w) j = Some b ->
    i <> j -> consumes a b = false.

Definition quietPlayers (w : World) : Prop :=
  forall i j ai cell,
    nth_error (aiCells w) i = Some ai ->
    nth_error (playerCells w) j = Some cell ->
    consumes cell ai = false.

(** The populations of [v] against those of [w]: as many pellets,
    hexagons and effects together, no fewer bots, no more player cells. *)
Definition populations (w v : World) : Prop :=
  (length (foods v) + length (hexagons v) + length (rainbowEffects v)
   = length (foods w) + length (hexagons w) + length (rainbowEffects w))%nat /\
  (length (aiCells w) <= length (aiCells v))%nat /\
  (length (playerCells v) <= length (playerCells w))%nat.

(** A pellet and a hexagon as the spawn functions make them. *)
Definition pelletInRange (f : Food) : Prop :=
  0 <= fx f < MAP_WIDTH /\ 0 <= fy f < MAP_HEIGHT /\
  FOOD_MIN_RADIUS <= fradius f < FOOD_MAX_RADIUS /\
  (0 <= fcolor f < 16777215)%Z.

Definition hexagonInRange (h : RotatingHexagon) : Prop :=
  100 <= hx h < MAP_WIDTH - 100 /\ 100 <= hy h < MAP_HEIGHT - 100 /\
  10 <= size h < 20 /\ massBonus h = size h * size h /\
  rotation h = 0 /\ 0.01 <= rotationSpeed h < 0.05.

(** A bot as [spawnAICell] makes it, at the clock reading [t]. *)
Definition botInRange (t : R) (c : Cell) : Prop :=
  isPlayer c = false /\
  100 <= x c < MAP_WIDTH - 100 /\ 100 <= y c < MAP_HEIGHT - 100 /\
  mass c = radius c ^ 2 /\ drawRadius c = radius c /\
  extraVX c = 0 /\ extraVY c = 0 /\ lastSplitTime c = t /\
  (if isBoss c
   then 50 <= radius c < 70 /\ Rabs (vx c) < 1 /\ Rabs (vy c) < 1
   else 10 <= radius c < 25 /\ Rabs (vx c) < 2 /\ Rabs (vy c) < 2).

(** A cell after the updates of successive frames, one target per frame. *)
Definition updates (targets : list (R * R)) (c : Cell) : Cell :=
  fold_left (fun c' t => update t c') targets c.

(** The moments of a set of cells: the sums of position times mass. *)
Definition momentX (l : list Cell) : R :=
  fold_right (fun c s => x c * mass c + s) 0 l.
Definition momentY (l : list Cell) : R :=
  fold_right (fun c s => y c * mass c + s) 0 l.

Definition bonusSum (l : list RotatingHexagon) : R :=
  fold_right (fun h s => massBonus h + s) 0 l.

(** An effect that is still to be shown. *)
Definition alive (e : RainbowEffect) : bool := 0 <? lifetime e.

(** A hexagon after [n] frames. *)
Definition rotated (n : nat) (h : RotatingHexagon) : RotatingHexagon :=
  mkHexagon (hx h) (hy h) (size h) (rotation h + INR n * rotationSpeed h)
            (rotationSpeed h) (massBonus h).

(** ** Further sample data *)

(** A big player cell thrown at a corner of the map, and its target. *)
Definition cornered : Cell :=
  mkCell 30 4990 (sqrt 900) 900 playerColor true 0 0 (-80) 60 (sqrt 900)
         false 0.

(** A bot that is beyond the left wall and heads back to the map. *)
Definition strayBot : Cell :=
  mkCell (-50) 2000 (sqrt 100) 100 0%Z false 1 0 0 0 (sqrt 100) false 0.

(** Three player cells in a row. *)
Definition world_row : World :=
  arena [] [] [cellAt 100 40 100 true false 0; cellAt 200 50 100 true false 0;
               cellAt 600 60 100 true false 0] [].

(** * Properties *)

(** ** Comparisons *)

Lemma ltb_spec (a b : R) : reflect (a < b) (a <? b).
Proof. unfold ltb. destruct (Rlt_dec a b); constructor; assumption. Qed.

Lemma ltb_true (a b : R) : a < b -> (a <? b) = true.
Proof. intro H. destruct (ltb_spec a b); [reflexivity | contradiction]. Qed.

Lemma ltb_false (a b : R) : b <= a -> (a <? b) = false.
Proof. intro H. destruct (ltb_spec a b); [lra | reflexivity]. Qed.

Lemma ltb_true_iff (a b : R) : (a <? b) = true <-> a < b.
Proof. destruct (ltb_spec a b); split; intros; try assumption; try reflexivity; try discriminate; contradiction. Qed.

Lemma gtb_true (a b : R) : a > b -> (a >? b) = true.
Proof. intro H. apply ltb_true. lra. Qed.

Lemma gtb_false (a b : R) : a <= b -> (a >? b) = false.
Proof. intro H. apply ltb_false. lra. Qed.

Lemma gtb_true_iff (a b : R) : (a >? b) = true <-> a > b.
Proof. unfold gtb. rewrite ltb_true_iff. lra. Qed.

Lemma eqb0_true (a : R) : a = 0 -> eqb0 a = true.
Proof. intro H. unfold eqb0. destruct (Req_dec_T a 0); [reflexivity | contradiction]. Qed.

Lemma eqb0_false (a : R) : a <> 0 -> eqb0 a = false.
Proof. intro H. unfold eqb0. destruct (Req_dec_T a 0); [contradiction | reflexivity]. Qed.

Lemma cdiv_ok (a b : R) : b <> 0 -> cdiv a b = Ok (a / b).
Proof. intro H. unfold cdiv. rewrite eqb0_false by assumption. reflexivity. Qed.

(** ** Arrays *)

Lemma updateAt_length {A : Type} (f : A -> A) (l : list A) (i : nat) :
  length (updateAt i f l) = length l.
Proof.
  revert i. induction l as [|h t IH]; intros [|i]; simpl; auto.
Qed.

Lemma updateAt_nth {A : Type} (f : A -> A) (l : list A) (i : nat) (a : A) :
  nth_error l i = Some a -> nth_error (updateAt i f l) i = Some (f a).
Proof.
  revert i. induction l as [|h t IH]; intros [|i]; simpl; try discriminate.
  - intros [= ->]. reflexivity.
  - apply IH.
Qed.

Lemma updateAt_nth_other {A : Type} (f : A -> A) (l : list A) (i j : nat) :
  i <> j -> nth_error (updateAt i f l) j = nth_error l j.
Proof.
  revert i j. induction l as [|h t IH]; intros [|i] [|j] H; simpl; auto.
  - contradiction.
Qed.

Lemma nth_error_snoc_last {A : Type} (l : list A) (a : A) :
  nth_error (l ++ [a]) (length l) = Some a.
Proof. induction l; simpl; auto. Qed.

Lemma nth_error_snoc_lt {A : Type} (l : list A) (a b : A) (i : nat) :
  nth_error l i = Some b -> nth_error (l ++ [a]) i = Some b.
Proof.
  intro H. rewrite nth_error_app1; [assumption|].
  apply nth_error_Some. congruence.
Qed.

(** ** Splits *)

Lemma splitBot_rejected (k : nat) (impulse : R) (w : World) (bot : Cell) :
  nth_error (aiCells w) k = Some bot -> mass bot < 40 ->
  splitBot k impulse w = w.
Proof.
  intros Hk Hm. unfold splitBot. rewrite Hk, ltb_true by assumption.
  reflexivity.
Qed.

Lemma splitPlayerCell_rejected (i : nat) (w : World) (cell : Cell) :
  nth_error (playerCells w) i = Some cell -> mass cell < 80 ->
  splitPlayerCell i w = w.
Proof.
  intros Hi Hm. unfold splitPlayerCell. rewrite Hi, ltb_true by assumption.
  reflexivity.
Qed.

Lemma splitLoop_all_rejected (n i : nat) (w : World) :
  (forall j cell, nth_error (playerCells w) j = Some cell -> mass cell < 80) ->
  splitLoop n i w = w.
Proof.
  intro H. revert i. induction n as [|n IH]; intro i; cbn [splitLoop];
    [reflexivity|].
  destruct (Nat.leb MAX_CELLS (length (playerCells w))); [reflexivity|].
  assert (E : splitPlayerCell i w = w).
  { unfold splitPlayerCell. destruct (nth_error (playerCells w) i) eqn:Hi;
      [|reflexivity].
    rewrite ltb_true by (eapply H; eassumption). reflexivity. }
  rewrite E. apply IH.
Qed.

Lemma updateAt_const_twice {A : Type} (a b : A) (l : list A) (i : nat) :
  updateAt i (fun _ => b) (updateAt i (fun _ => a) l)
  = updateAt i (fun _ => b) l.
Proof.
  revert i. induction l as [|h t IH]; intros [|i]; simpl; try reflexivity.
  f_equal. apply IH.
Qed.

(** What a split that is carried out does to the player cells. *)
Lemma splitPlayerCell_accepted (i : nat) (w : World) (cell : Cell) :
  nth_error (playerCells w) i = Some cell -> 80 <= mass cell ->
  exists parent child,
    playerCells (splitPlayerCell i w)
    = updateAt i (fun _ => parent) (playerCells w) ++ [child] /\
    mass parent = mass cell / 2 /\ mass child = mass cell / 2 /\
    radius parent = sqrt (mass cell / 2) /\
    radius child = sqrt (mass cell / 2) /\
    lastSplitTime parent = perfNow w (perfReads w) /\
    lastSplitTime child = perfNow w (S (S (perfReads w))) /\
    perfReads (splitPlayerCell i w) = S (S (S (perfReads w))) /\
    isPlayer child = true /\
    aiCells (splitPlayerCell i w) = aiCells w.
Proof.
  intros Hi Hm. unfold splitPlayerCell. rewrite Hi, ltb_false by assumption.
  cbn -[atan2 updateAt cos sin sqrt playerTarget].
  destruct (playerTarget _) as [tx ty].
  cbn -[atan2 updateAt cos sin sqrt].
  rewrite updateAt_const_twice.
  eexists. eexists. split; [reflexivity|].
  cbn. repeat split; reflexivity.
Qed.

(** What a split that is carried out does to the bots. *)
Lemma splitBot_accepted (k : nat) (impulse : R) (w : World) (bot : Cell) :
  nth_error (aiCells w) k = Some bot -> 40 <= mass bot ->
  exists parent child,
    aiCells (splitBot k impulse w)
    = updateAt k (fun _ => parent) (aiCells w) ++ [child] /\
    mass parent = mass bot / 2 /\ mass child = mass bot / 2 /\
    radius parent = sqrt (mass bot / 2) /\
    radius child = sqrt (mass bot / 2) /\
    lastSplitTime parent = perfNow w (perfReads w) /\
    lastSplitTime child = perfNow w (S (S (perfReads w))) /\
    perfReads (splitBot k impulse w) = S (S (S (perfReads w))) /\
    extraVX child = cos (atan2 (vy bot) (vx bot)) * impulse /\
    extraVY child = sin (atan2 (vy bot) (vx bot)) * impulse /\
    vx parent = vx bot /\ vy parent = vy bot /\
    isPlayer child = false /\
    playerCells (splitBot k impulse w) = playerCells w /\
    randomReads (splitBot k impulse w) = randomReads w /\
    mathRandom (splitBot k impulse w) = mathRandom w.
Proof.
  intros Hk Hm. unfold splitBot. rewrite Hk, ltb_false by assumption.
  cbn -[atan2 updateAt cos sin sqrt].
  eexists. eexists. split; [reflexivity|].
  cbn -[atan2 cos sin sqrt]. repeat split; reflexivity.
Qed.

Lemma updateAt_snoc_nth {A : Type} (l : list A) (i : nat) (a b c : A) :
  nth_error l i = Some a ->
  nth_error (updateAt i (fun _ => b) l ++ [c]) i = Some b.
Proof.
  intro H. apply nth_error_snoc_lt. apply (updateAt_nth (fun _ => b) _ _ _ H).
Qed.

Lemma updateAt_snoc_last {A : Type} (l : list A) (i : nat) (f : A -> A) (c : A) :
  nth_error (updateAt i f l ++ [c]) (length l) = Some c.
Proof.
  rewrite <- (updateAt_length f l i). apply nth_error_snoc_last.
Qed.

Lemma split_halves_bot (k : nat) (impulse : R) (w : World) (bot : Cell) :
  nth_error (aiCells w) k = Some bot -> 40 <= mass bot ->
  halved aiCells k bot w (splitBot k impulse w).
Proof.
  intros Hk Hm.
  destruct (splitBot_accepted k impulse w bot Hk Hm)
    as (parent & child & E & Hp & Hc & _ & _ & Tp & Tc & Hr & _).
  exists parent, child. rewrite E, Hp, Hc, Tp, Tc, Hr.
  rewrite (updateAt_snoc_nth _ _ _ _ _ Hk), updateAt_snoc_last.
  rewrite length_app, updateAt_length. cbn [length].
  replace (perfReads w + 2)%nat with (S (S (perfReads w))) by lia.
  repeat split; try reflexivity; try lia; lra.
Qed.

Lemma split_halves_player (i : nat) (w : World) (cell : Cell) :
  nth_error (playerCells w) i = Some cell -> 80 <= mass cell ->
  halved playerCells i cell w (splitPlayerCell i w).
Proof.
  intros Hi Hm.
  destruct (splitPlayerCell_accepted i w cell Hi Hm)
    as (parent & child & E & Hp & Hc & _ & _ & Tp & Tc & Hr & _).
  exists parent, child. rewrite E, Hp, Hc, Tp, Tc, Hr.
  rewrite (updateAt_snoc_nth _ _ _ _ _ Hi), updateAt_snoc_last.
  rewrite length_app, updateAt_length. cbn [length].
  replace (perfReads w + 2)%nat with (S (S (perfReads w))) by lia.
  repeat split; try reflexivity; try lia; lra.
Qed.

(** [C3] Every split that is carried out, of a bot ([splitBot], mass at
    least 40) and of a player cell (the loop body of [splitPlayerCells],
    mass at least 80), leaves the parent in place with half of its former
    mass and appends one child with the other half, so that the two masses
    add up to the parent's former mass exactly; the parent is stamped with
    the reading of [performance.now()] taken when the split starts and the
    child with the last of the three readings the split takes. *)
Theorem split_halves_mass (w : World) (i : nat) (cell : Cell) (impulse : R) :
  (nth_error (aiCells w) i = Some cell -> 40 <= mass cell ->
   halved aiCells i cell w (splitBot i impulse w)) /\
  (nth_error (playerCells w) i = Some cell -> 80 <= mass cell ->
   halved playerCells i cell w (splitPlayerCell i w)).
Proof.
  split.
  - apply split_halves_bot.
  - apply split_halves_player.
Qed.

(** [C1] A split request for a body below 40 mass units changes nothing,
    for a bot ([splitBot]) and for a player cell (its iteration of the loop
    of [splitPlayerCells]); the threshold of the player split is 80: a
    player cell below 80 is skipped with no change, a pass over player
    cells that are all below 80 leaves the world as it is, as does a pass
    that finds 16 player cells or more, and a player cell of mass at least
    80, met while fewer than 16 player cells exist, is split. *)
Theorem split_rejected_below_threshold
  (w : World) (i : nat) (cell : Cell) (impulse : R) :
  (nth_error (aiCells w) i = Some cell -> mass cell < 40 ->
   splitBot i impulse w = w) /\
  (nth_error (playerCells w) i = Some cell -> mass cell < 40 ->
   splitLoop 1 i w = w) /\
  (nth_error (playerCells w) i = Some cell -> mass cell < 80 ->
   splitLoop 1 i w = w) /\
  (Forall (fun c => mass c < 80) (playerCells w) -> splitPlayerCells w = w) /\
  ((MAX_CELLS <= length (playerCells w))%nat -> splitPlayerCells w = w) /\
  (nth_error (playerCells w) i = Some cell -> 80 <= mass cell ->
   (length (playerCells w) < MAX_CELLS)%nat ->
   halved playerCells i cell w (splitLoop 1 i w)).
Proof.
  assert (Hlt : nth_error (playerCells w) i = Some cell -> mass cell < 80 ->
                splitLoop 1 i w = w).
  { intros Hi Hm. cbn [splitLoop].
    destruct (Nat.leb MAX_CELLS (length (playerCells w))); [reflexivity|].
    apply (splitPlayerCell_rejected i w cell Hi Hm). }
  repeat split.
  - apply splitBot_rejected.
  - intros Hi Hm. apply Hlt; [assumption | lra].
  - exact Hlt.
  - intro H. apply splitLoop_all_rejected. intros j c Hj.
    rewrite Forall_forall in H. apply H. eapply nth_error_In; eassumption.
  - intro H. unfold splitPlayerCells.
    destruct (length (playerCells w)) as [|n] eqn:E; [reflexivity|].
    cbn [splitLoop]. rewrite E.
    replace (Nat.leb MAX_CELLS (S n)) with true
      by (symmetry; apply Nat.leb_le; assumption).
    reflexivity.
  - intros Hi Hm Hn. cbn [splitLoop].
    replace (Nat.leb MAX_CELLS (length (playerCells w))) with false
      by (symmetry; apply Nat.leb_gt; assumption).
    apply (split_halves_player i w cell Hi Hm).
Qed.

(** A bot and a player cell of mass 30 are not split, and a player cell
    of mass 100 is. *)
Lemma split_rejected_below_threshold_witness :
  splitBot 0 20 world_small = world_small /\
  splitLoop 1 0 world_small = world_small /\
  splitPlayerCells world_small = world_small /\
  halved playerCells 0 player100 world_split (splitLoop 1 0 world_split).
Proof.
  destruct (split_rejected_below_threshold world_small 0 bot30 20)
    as (Hbot & _).
  destruct (split_rejected_below_threshold world_small 0 player30 20)
    as (_ & Hp40 & _ & Hpass & _).
  destruct (split_rejected_below_threshold world_split 0 player100 20)
    as (_ & _ & _ & _ & _ & Hsplit).
  repeat split.
  - apply Hbot; [reflexivity | simpl; lra].
  - apply Hp40; [reflexivity | simpl; lra].
  - apply Hpass. repeat constructor. simpl. lra.
  - apply Hsplit; [reflexivity | simpl; lra | unfold MAX_CELLS; simpl; lia].
Defined.

(** The claim [C1] as stated fails for a lone player cell of mass 50: the
    mass is at least 40 and there are fewer than 16 player cells, yet the
    split request is rejected and the world is unchanged. *)
Lemma split_player50_rejected :
  nth_error (playerCells world_player50) 0 = Some player50 /\
  40 <= mass player50 /\
  (length (playerCells world_player50) < MAX_CELLS)%nat /\
  splitPlayerCells world_player50 = world_player50.
Proof.
  repeat split.
  - simpl. lra.
  - unfold MAX_CELLS. simpl. lia.
  - apply splitLoop_all_rejected. intros [|[|j]] c; simpl; try discriminate.
    intros [= <-]. simpl. lra.
Qed.

(** A bot of mass 300 and a player cell of mass 100 are split in
    halves. *)
Lemma split_halves_mass_witness :
  halved aiCells 0 bot300 world_split (splitBot 0 20 world_split) /\
  halved playerCells 0 player100 world_split (splitPlayerCell 0 world_split).
Proof.
  split.
  - apply (proj1 (split_halves_mass world_split 0 bot300 20));
      [reflexivity | simpl; lra].
  - apply (proj2 (split_halves_mass world_split 0 player100 20));
      [reflexivity | simpl; lra].
Defined.

(** ** Square roots and distances of sample data *)

Lemma sqrt_lower_bound (a b : R) : 0 <= a -> a * a <= b -> a <= sqrt b.
Proof.
  intros Ha Hab. assert (0 <= a * a) by (apply Rmult_le_pos; assumption).
  rewrite <- (sqrt_square a Ha). apply sqrt_le_1; lra.
Qed.

Lemma sqrt_upper_bound (a b : R) : 0 <= a -> 0 <= b -> b <= a * a -> sqrt b <= a.
Proof.
  intros Ha Hb Hab. assert (0 <= a * a) by (apply Rmult_le_pos; assumption).
  rewrite <- (sqrt_square a Ha). apply sqrt_le_1; lra.
Qed.

Lemma distance_upper_bound (x1 y1 x2 y2 d : R) :
  0 <= d -> (x2 - x1) * (x2 - x1) + (y2 - y1) * (y2 - y1) <= d * d ->
  distance x1 y1 x2 y2 <= d.
Proof.
  intros Hd H. unfold distance.
  pose proof (Rle_0_sqr (x2 - x1)). pose proof (Rle_0_sqr (y2 - y1)).
  unfold Rsqr in *. apply sqrt_upper_bound; lra.
Qed.

Lemma distance_lower_bound (x1 y1 x2 y2 d : R) :
  0 <= d -> d * d <= (x2 - x1) * (x2 - x1) + (y2 - y1) * (y2 - y1) ->
  d <= distance x1 y1 x2 y2.
Proof.
  intros Hd H. unfold distance, Rsqr. apply sqrt_lower_bound; lra.
Qed.

Lemma distance_same (x1 y1 : R) : distance x1 y1 x1 y1 = 0.
Proof.
  unfold distance, Rsqr.
  replace ((x1 - x1) * (x1 - x1) + (y1 - y1) * (y1 - y1)) with 0 by ring.
  apply sqrt_0.
Qed.

Lemma distance_nonneg (x1 y1 x2 y2 : R) : 0 <= distance x1 y1 x2 y2.
Proof. apply sqrt_pos. Qed.

(** ** The merge pass *)

Lemma canMerge_iff (now : R) (cellA cellB : Cell) :
  canMerge now cellA cellB = true <->
  checkCollision cellA cellB = true /\ cooledDown now cellA cellB.
Proof.
  unfold canMerge, cooledDown.
  rewrite !andb_true_iff, !gtb_true_iff. tauto.
Qed.

Lemma mergeInto_frame (now : R) (cellA cellB : Cell) :
  sameFrame cellA (mergeInto now cellA cellB).
Proof. unfold sameFrame, mergeInto. cbn. tauto. Qed.

Lemma sameFrame_refl (c : Cell) : sameFrame c c.
Proof. unfold sameFrame. tauto. Qed.

Lemma sameFrame_trans (a b c : Cell) :
  sameFrame a b -> sameFrame b c -> sameFrame a c.
Proof.
  unfold sameFrame.
  intros (A1 & A2 & A3 & A4 & A5 & A6 & A7 & A8)
         (B1 & B2 & B3 & B4 & B5 & B6 & B7 & B8).
  repeat split; congruence.
Qed.

Lemma survivor_frame (now : R) (absorbed : list Cell) (c : Cell) :
  sameFrame c (survivor now (c, absorbed)).
Proof.
  unfold survivor. cbn [fst snd]. revert c.
  induction absorbed as [|b t IH]; intro c; cbn [fold_left].
  - apply sameFrame_refl.
  - eapply sameFrame_trans; [apply (mergeInto_frame now c b) | apply IH].
Qed.

Lemma survivor_stamped (now : R) (absorbed : list Cell) (c : Cell) :
  absorbed <> [] -> lastSplitTime (survivor now (c, absorbed)) = now.
Proof.
  unfold survivor. cbn [fst snd]. revert c.
  induction absorbed as [|b t IH]; intros c H; [contradiction|].
  cbn [fold_left]. destruct t as [|b' t'].
  - reflexivity.
  - apply IH. discriminate.
Qed.

(** The inner loop leaves [cellA] merged with the cells it absorbed and
    leaves every other cell as it was. *)
Lemma mergeInner_groups (now : R) (rest : list Cell) (cellA : Cell) :
  exists absorbed,
    fst (mergeInner now cellA rest) = survivor now (cellA, absorbed) /\
    Permutation rest (absorbed ++ snd (mergeInner now cellA rest)).
Proof.
  revert cellA. induction rest as [|b t IH]; intro a; cbn [mergeInner].
  - exists []. split; [reflexivity | constructor].
  - destruct (canMerge now a b).
    + destruct (IH (mergeInto now a b)) as (abs & E & P).
      exists (b :: abs). split; [exact E|].
      cbn [app]. constructor. exact P.
    + destruct (IH a) as (abs & E & P).
      destruct (mergeInner now a t) as [a' t']. cbn [fst snd] in *.
      exists abs. split; [exact E|].
      apply Permutation_cons_app. exact P.
Qed.

Lemma mergeInner_length (now : R) (rest : list Cell) (cellA : Cell) :
  (length (snd (mergeInner now cellA rest)) <= length rest)%nat.
Proof.
  destruct (mergeInner_groups now rest cellA) as (abs & _ & P).
  apply Permutation_length in P. rewrite length_app in P. lia.
Qed.

(** The outer loop, given one unit of fuel per cell, partitions the cells
    into groups and leaves the survivor of each. *)
Lemma mergeOuter_groups (now : R) (fuel : nat) (cells : list Cell) :
  (length cells <= fuel)%nat ->
  exists groups,
    mergeOuter fuel now cells = map (survivor now) groups /\
    Permutation cells (flat_map members groups).
Proof.
  revert cells. induction fuel as [|f IH]; intros cells Hlen.
  - destruct cells; [|cbn in Hlen; lia].
    exists []. split; [reflexivity | constructor].
  - destruct cells as [|a rest]; cbn [mergeOuter].
    + exists []. split; [reflexivity | constructor].
    + destruct (mergeInner_groups now rest a) as (abs & E & P).
      pose proof (mergeInner_length now rest a) as L.
      destruct (mergeInner now a rest) as [a' rest']. cbn [fst snd] in *.
      destruct (IH rest') as (groups & E' & P'); [cbn in Hlen; lia|].
      exists ((a, abs) :: groups). split.
      * cbn [map]. rewrite E, E'. reflexivity.
      * cbn [flat_map members fst snd app]. constructor.
        rewrite P. apply Permutation_app_head. exact P'.
Qed.

(** Fuel beyond the number of cells is not used. *)
Lemma mergeOuter_enough_fuel (now : R) (f1 f2 : nat) (cells : list Cell) :
  (length cells <= f1)%nat -> (length cells <= f2)%nat ->
  mergeOuter f1 now cells = mergeOuter f2 now cells.
Proof.
  revert f2 cells. induction f1 as [|f1 IH]; intros f2 cells H1 H2.
  - destruct cells; [|cbn in H1; lia]. destruct f2; reflexivity.
  - destruct cells as [|a rest]; [destruct f2; reflexivity|].
    destruct f2 as [|f2]; [cbn in H2; lia|].
    cbn [mergeOuter].
    pose proof (mergeInner_length now rest a) as L.
    destruct (mergeInner now a rest) as [a' rest']. cbn [snd] in L.
    cbn in H1, H2. f_equal. apply IH; lia.
Qed.

(** [C2] For a pair of player cells whose circles overlap when the merge
    pass examines it, the pair merges exactly when both cells have waited
    for more than [MERGE_DELAY] = 2500 ms since their [lastSplitTime]: then
    the first cell goes on with the sum of the masses, at the mass-weighted
    average of the two centres, stamped with the time of the pass, and the
    second cell is gone; otherwise both cells stay.  In particular a world
    with just these two player cells ends the pass with the merged cell
    alone, or with both cells untouched. *)
Theorem merge_iff_cooldown (w : World) (cellA cellB : Cell) (rest : list Cell) :
  let now := perfNow w (perfReads w) in
  let merged := mergeInto now cellA cellB in
  checkCollision cellA cellB = true ->
  (canMerge now cellA cellB = true <-> cooledDown now cellA cellB) /\
  (cooledDown now cellA cellB ->
   mergeInner now cellA (cellB :: rest) = mergeInner now merged rest) /\
  (~ cooledDown now cellA cellB ->
   mergeInner now cellA (cellB :: rest)
   = (fst (mergeInner now cellA rest),
      cellB :: snd (mergeInner now cellA rest))) /\
  (playerCells w = [cellA; cellB] -> cooledDown now cellA cellB ->
   playerCells (mergePlayerCells w) = [merged]) /\
  (playerCells w = [cellA; cellB] -> ~ cooledDown now cellA cellB ->
   playerCells (mergePlayerCells w) = [cellA; cellB]) /\
  mass merged = mass cellA + mass cellB /\
  x merged = (x cellA * mass cellA + x cellB * mass cellB)
             / (mass cellA + mass cellB) /\
  y merged = (y cellA * mass cellA + y cellB * mass cellB)
             / (mass cellA + mass cellB) /\
  radius merged = sqrt (mass cellA + mass cellB) /\
  lastSplitTime merged = now.
Proof.
  intros now merged Hov.
  assert (Hiff : canMerge now cellA cellB = true <-> cooledDown now cellA cellB).
  { rewrite canMerge_iff. tauto. }
  assert (Hno : ~ cooledDown now cellA cellB -> canMerge now cellA cellB = false).
  { intro H. destruct (canMerge now cellA cellB) eqn:E; [|reflexivity].
    exfalso. apply H, Hiff. reflexivity. }
  split; [exact Hiff|].
  split.
  { intro H. apply Hiff in H. cbn [mergeInner]. rewrite H. reflexivity. }
  split.
  { intro H. apply Hno in H. cbn [mergeInner]. rewrite H.
    destruct (mergeInner now cellA rest). reflexivity. }
  split.
  { intros Hw H. apply Hiff in H. unfold mergePlayerCells. cbn.
    rewrite Hw. cbn. fold now. rewrite H. reflexivity. }
  split.
  { intros Hw H. apply Hno in H. unfold mergePlayerCells. cbn.
    rewrite Hw. cbn. fold now. rewrite H. reflexivity. }
  cbn. repeat split; reflexivity.
Qed.

Lemma overlap_player50m_player70m : checkCollision player50m player70m = true.
Proof.
  unfold checkCollision. cbn [x y radius player50m player70m cellAt].
  apply ltb_true.
  assert (distance 0 0 3 4 <= 5) by (apply distance_upper_bound; lra).
  assert (7 <= sqrt 50) by (apply sqrt_lower_bound; lra).
  assert (8 <= sqrt 70) by (apply sqrt_lower_bound; lra).
  lra.
Qed.

(** Two player cells of mass 50 and 70 that overlap, 3000 ms after their
    last split, merge into one cell of mass 120 at the weighted centre. *)
Lemma merge_iff_cooldown_witness :
  exists merged,
    playerCells (mergePlayerCells world_merge) = [merged] /\
    mass merged = 120 /\
    x merged = (0 * 50 + 3 * 70) / 120 /\
    y merged = (0 * 50 + 4 * 70) / 120 /\
    lastSplitTime merged = 10000.
Proof.
  destruct (merge_iff_cooldown world_merge player50m player70m []
              overlap_player50m_player70m)
    as (_ & _ & _ & Hpass & _ & Hmass & Hx & Hy & _ & Ht).
  eexists. split.
  - apply Hpass; [reflexivity|]. unfold cooledDown, MERGE_DELAY. cbn. lra.
  - rewrite Hmass, Hx, Hy, Ht. cbn. repeat split; lra.
Defined.

(** [C10] The merge pass leaves the pellets, the bots, the hexagons, the
    effects and the game-over flag as they were.  It partitions the player
    cells into groups, each made of a cell and of the cells it absorbs, and
    leaves one cell per group: that cell keeps the steering velocity, the
    split impulse, the colour and the draw radius of the first cell of its
    group; it is that very cell, unchanged in every field, when the group
    absorbed nothing, and otherwise it carries the time of the pass. *)
Theorem merge_pass_frame (w : World) :
  let now := perfNow w (perfReads w) in
  let w' := mergePlayerCells w in
  foods w' = foods w /\ aiCells w' = aiCells w /\
  hexagons w' = hexagons w /\ rainbowEffects w' = rainbowEffects w /\
  gameOver w' = gameOver w /\
  exists groups,
    playerCells w' = map (survivor now) groups /\
    Permutation (playerCells w) (flat_map members groups) /\
    Forall (fun g =>
              sameFrame (fst g) (survivor now g) /\
              (snd g = [] /\ survivor now g = fst g \/
               snd g <> [] /\ lastSplitTime (survivor now g) = now))
           groups.
Proof.
  intros now w'. unfold w', mergePlayerCells. cbn.
  repeat (split; [reflexivity|]).
  destruct (mergeOuter_groups now (length (playerCells w)) (playerCells w))
    as (groups & E & P); [lia|].
  exists groups. repeat split; try assumption.
  apply Forall_forall. intros [c abs] _. split.
  - apply survivor_frame.
  - cbn [fst snd]. destruct abs as [|b t].
    + left. split; reflexivity.
    + right. split; [discriminate|]. apply survivor_stamped. discriminate.
Qed.

(** ** The steering scan *)

Section Scan.

(** The time of the tick, the prey range of the bot, and the bot. *)
Variables (now eff : R) (bot : Cell).


(** An opponent at distance zero is passed over. *)
Lemma scanOpponent_zero_distance (op : Cell) (s : Steer) :
  distance (x bot) (y bot) (x op) (y op) = 0 ->
  scanOpponent now eff bot op s = Ok (Next s).
Proof.
  intro H. unfold scanOpponent. rewrite eqb0_true by assumption. reflexivity.
Qed.

(** The body of the scan never divides by zero. *)
Lemma scanOpponent_ok (op : Cell) (s : Steer) :
  exists r, scanOpponent now eff bot op s = Ok r.
Proof.
  unfold scanOpponent.
  destruct (eqb0 (distance (x bot) (y bot) (x op) (y op))) eqn:Hd;
    [eexists; reflexivity|].
  assert (Hnz : distance (x bot) (y bot) (x op) (y op) <> 0).
  { intro E. rewrite (eqb0_true _ E) in Hd. discriminate. }
  rewrite !(cdiv_ok _ _ Hnz).
  destruct (_ && _); cbn [bind];
    destruct (_ && _); cbn [bind];
    try destruct (splitCondition _ _ _ _); eexists; reflexivity.
Qed.

Lemma scanOpponents_ok (ops : list Cell) (s : Steer) :
  exists r, scanOpponents now eff bot ops s = Ok r.
Proof.
  revert s. induction ops as [|op rest IH]; intro s; cbn [scanOpponents].
  - eexists; reflexivity.
  - destruct (scanOpponent_ok op s) as ([s' | s'] & E);
      rewrite E; cbn [bind].
    + apply IH.
    + eexists; reflexivity.
Qed.



Lemma scanOpponents_continue (op : Cell) (before after : list Cell)
      (s0 s s' : Steer) :
  scanOpponents now eff bot before s0 = Ok (Next s) ->
  scanOpponent now eff bot op s = Ok (Next s') ->
  scanOpponents now eff bot (before ++ op :: after) s0
  = scanOpponents now eff bot after s'.
Proof.
  revert s0. induction before as [|b t IH]; intros s0 Hb Hop.
  - cbn in Hb. injection Hb as <-. cbn [app scanOpponents]. rewrite Hop.
    reflexivity.
  - cbn [app scanOpponents] in *.
    destruct (scanOpponent now eff bot b s0) as [[s1 | s1] | |];
      cbn [bind] in *; try discriminate.
    apply IH; assumption.
Qed.

End Scan.

(** ** The new velocity *)

Lemma INR_count_nonzero (n : nat) : (0 < n)%nat -> INR n <> 0.
Proof. intro H. apply not_0_INR. lia. Qed.

Lemma steer_no_contribution (k : nat) (s : Steer) (w : World) :
  count s = 0%nat -> steer k s w = Ok w.
Proof. intro H. unfold steer. rewrite H. reflexivity. Qed.

Lemma steer_direction (k : nat) (s : Steer) (w : World) :
  (0 < count s)%nat ->
  exists ux uy,
    steer k s w = Ok (withVelocity k ux uy w) /\
    (steerX s <> 0 \/ steerY s <> 0 -> ux * ux + uy * uy = 1) /\
    (steerX s = 0 -> steerY s = 0 -> ux = 0 /\ uy = 0).
Proof.
  intro Hc. unfold steer.
  replace (Nat.ltb 0 (count s)) with true
    by (symmetry; apply Nat.ltb_lt; assumption).
  pose proof (INR_count_nonzero _ Hc) as Hn.
  rewrite !(cdiv_ok _ _ Hn). cbn [bind].
  set (sx := steerX s / INR (count s)).
  set (sy := steerY s / INR (count s)).
  set (mag := sqrt (sx * sx + sy * sy)).
  assert (Hsq : 0 <= sx * sx + sy * sy).
  { pose proof (Rle_0_sqr sx). pose proof (Rle_0_sqr sy). unfold Rsqr in *. lra. }
  destruct (ltb_spec 0 mag) as [Hpos | Hnpos].
  - unfold gtb. rewrite (ltb_true _ _ Hpos).
    assert (Hm : mag <> 0) by lra.
    rewrite !(cdiv_ok _ _ Hm). cbn [bind fst snd].
    exists (sx / mag), (sy / mag). split; [reflexivity|]. split.
    + intros _. assert (E : mag * mag = sx * sx + sy * sy)
        by (apply sqrt_sqrt; assumption).
      field_simplify_eq; [|assumption]. lra.
    + intros Hx Hy. exfalso. unfold mag, sx, sy in Hpos.
      rewrite Hx, Hy in Hpos.
      replace (0 / INR (count s) * (0 / INR (count s)) +
               0 / INR (count s) * (0 / INR (count s))) with 0 in Hpos
        by (field; assumption).
      rewrite sqrt_0 in Hpos. lra.
  - unfold gtb. rewrite ltb_false by lra. cbn [bind fst snd].
    exists sx, sy. split; [reflexivity|].
    assert (Hz : sqrt (sx * sx + sy * sy) = 0).
    { pose proof (sqrt_pos (sx * sx + sy * sy)) as Hp.
      unfold mag in Hnpos. lra. }
    apply sqrt_eq_0 in Hz; [|assumption].
    assert (Hsx : sx = 0) by nra. assert (Hsy : sy = 0) by nra.
    split.
    + intros [Hx | Hy]; exfalso.
      * apply Hx. unfold sx in Hsx.
        apply (Rmult_eq_compat_r (INR (count s))) in Hsx.
        unfold Rdiv in Hsx. rewrite Rmult_assoc, Rinv_l in Hsx by assumption.
        lra.
      * apply Hy. unfold sy in Hsy.
        apply (Rmult_eq_compat_r (INR (count s))) in Hsy.
        unfold Rdiv in Hsy. rewrite Rmult_assoc, Rinv_l in Hsy by assumption.
        lra.
    + intros _ _. split; assumption.
Qed.

Lemma steer_ok (k : nat) (s : Steer) (w : World) :
  exists w', steer k s w = Ok w'.
Proof.
  destruct (Nat.eq_dec (count s) 0) as [E | N].
  - exists w. apply steer_no_contribution. assumption.
  - destruct (steer_direction k s w) as (ux & uy & E & _); [lia|].
    eexists. exact E.
Qed.

Lemma updateBot_ok (now : R) (k : nat) (w : World) :
  exists w', updateBot now k w = Ok w'.
Proof.
  unfold updateBot. destruct (nth_error (aiCells w) k) as [bot|];
    [|eexists; reflexivity].
  destruct (scanOpponents_ok now (if isBoss bot then 600 else preyDistance)
              bot (opponentsOf k w) (mkSteer 0 0 0)) as ([s | s] & E);
    rewrite E; cbn [bind]; apply steer_ok.
Qed.

(** ** The loop over the bots ends *)











(** ** One bot, one tick *)

Lemma withVelocity_masses (k : nat) (ux uy : R) (w : World) :
  map mass (aiCells (withVelocity k ux uy w)) = map mass (aiCells w).
Proof.
  unfold withVelocity. cbn. generalize (aiCells w) as l. clear. intro l.
  revert k. induction l as [|h t IH]; intros [|k]; cbn in *; try reflexivity.
  f_equal. apply IH.
Qed.

Lemma withVelocity_length (k : nat) (ux uy : R) (w : World) :
  length (aiCells (withVelocity k ux uy w)) = length (aiCells w).
Proof.
  rewrite <- (length_map mass), withVelocity_masses. apply length_map.
Qed.













(** The step for an opponent that is fled from. *)
Lemma scanOpponent_flee (now eff : R) (bot op : Cell) (s : Steer) :
  let d := distance (x bot) (y bot) (x op) (y op) in
  d <> 0 -> mass op > mass bot * 1.1 -> d < dangerDistance ->
  mass bot * 0.9 <= mass op ->
  scanOpponent now eff bot op s
  = Ok (Next (mkSteer (steerX s - (x op - x bot) / d)
                      (steerY s - (y op - y bot) / d)
                      (S (count s)))).
Proof.
  intros d Hd Hm Hr Hp. unfold scanOpponent. fold d.
  rewrite (eqb0_false _ Hd), !(cdiv_ok _ _ Hd).
  rewrite (gtb_true _ _ Hm), (ltb_true _ _ Hr). cbn [andb bind].
  rewrite (ltb_false _ _ Hp). reflexivity.
Qed.

(** A scan that ends with a split has accumulated a contribution. *)
Lemma scanOpponent_break_count (now eff : R) (bot op : Cell) (s s' : Steer) :
  scanOpponent now eff bot op s = Ok (SplitAndBreak s') -> (0 < count s')%nat.
Proof.
  unfold scanOpponent.
  destruct (eqb0 _); [discriminate|].
  destruct (_ && _);
    repeat (destruct (cdiv _ _); cbn [bind]; try discriminate);
    destruct (_ && _); cbn [bind]; try discriminate;
    repeat (destruct (cdiv _ _); cbn [bind]; try discriminate);
    destruct (splitCondition _ _ _ _); try discriminate;
    intros [= <-]; cbn; lia.
Qed.

Lemma scanOpponents_break_count (now eff : R) (bot : Cell) (ops : list Cell)
      (s s' : Steer) :
  scanOpponents now eff bot ops s = Ok (SplitAndBreak s') -> (0 < count s')%nat.
Proof.
  revert s. induction ops as [|op rest IH]; intro s; cbn [scanOpponents].
  - discriminate.
  - destruct (scanOpponent now eff bot op s) as [[s1 | s1] | |] eqn:E;
      cbn [bind]; try discriminate.
    + apply IH.
    + intros [= <-]. eapply scanOpponent_break_count; eassumption.
Qed.

Lemma withVelocity_nth (k : nat) (ux uy : R) (w : World) (bot : Cell) :
  nth_error (aiCells w) k = Some bot ->
  nth_error (aiCells (withVelocity k ux uy w)) k
  = Some (set_vy (uy * (mathRandom w (randomReads w) * (2 - 0.5) + 0.5))
            (set_vx (ux * (mathRandom w (randomReads w) * (2 - 0.5) + 0.5))
                    bot)).
Proof.
  intro H. unfold withVelocity. cbn.
  rewrite (updateAt_nth _ _ _ _ H). reflexivity.
Qed.

Lemma splitBot_random (k : nat) (impulse : R) (w : World) :
  mathRandom (splitBot k impulse w) = mathRandom w /\
  randomReads (splitBot k impulse w) = randomReads w.
Proof.
  unfold splitBot. destruct (nth_error (aiCells w) k); [|split; reflexivity].
  destruct (_ <? _); split; reflexivity.
Qed.

Lemma splitBot_nth (k : nat) (impulse : R) (w : World) (bot : Cell) :
  nth_error (aiCells w) k = Some bot ->
  exists bot', nth_error (aiCells (splitBot k impulse w)) k = Some bot'.
Proof.
  intro Hk. destruct (Rlt_dec (mass bot) 40) as [Hlt | Hge].
  - rewrite (splitBot_rejected k impulse w bot Hk Hlt). eauto.
  - destruct (split_halves_bot k impulse w bot Hk) as (p & c & E & _); [lra|].
    eauto.
Qed.

(** [C6] When the scan of a bot ends with no contribution, the tick of the
    bot leaves the world, and so the bot's velocity, as it was.  When some
    contribution was accumulated, the new velocity is a direction scaled by
    the speed [0.5 + 1.5 r], where [r] is the next random draw, so the
    speed lies in [0.5, 2) for a draw in [0, 1): the direction has length
    one, and the velocity has the length of the speed, when the accumulated
    vector is not zero; when the contributions cancel out, the direction is
    not normalised and the new velocity is zero. *)
Theorem steering_velocity (now : R) (k : nat) (w : World) (bot : Cell)
        (r : ScanStep) :
  let eff := if isBoss bot then 600 else preyDistance in
  let s := match r with Next s0 => s0 | SplitAndBreak s0 => s0 end in
  let speed := mathRandom w (randomReads w) * (2 - 0.5) + 0.5 in
  nth_error (aiCells w) k = Some bot ->
  scanOpponents now eff bot (opponentsOf k w) (mkSteer 0 0 0) = Ok r ->
  0 <= mathRandom w (randomReads w) < 1 ->
  (count s = 0%nat -> updateBot now k w = Ok w) /\
  ((0 < count s)%nat ->
   exists ux uy w' bot',
     updateBot now k w = Ok w' /\
     nth_error (aiCells w') k = Some bot' /\
     vx bot' = ux * speed /\ vy bot' = uy * speed /\
     0.5 <= speed < 2 /\
     (steerX s <> 0 \/ steerY s <> 0 ->
      ux * ux + uy * uy = 1 /\
      sqrt (vx bot' * vx bot' + vy bot' * vy bot') = speed) /\
     (steerX s = 0 -> steerY s = 0 -> vx bot' = 0 /\ vy bot' = 0)).
Proof.
  intros eff s speed Hk Hscan Hr.
  assert (Hupd : updateBot now k w
                 = steer k s (match r with
                              | Next _ => w
                              | SplitAndBreak _ => splitBot k 20 w
                              end)).
  { unfold updateBot. rewrite Hk. fold eff. rewrite Hscan. cbn [bind].
    destruct r; reflexivity. }
  split.
  - intro Hc. destruct r as [s0 | s0].
    + rewrite Hupd. apply steer_no_contribution. exact Hc.
    + apply scanOpponents_break_count in Hscan. unfold s in Hc. lia.
  - intro Hc.
    set (w1 := match r with Next _ => w | SplitAndBreak _ => splitBot k 20 w end)
      in Hupd.
    assert (Hrand : mathRandom w1 (randomReads w1) = mathRandom w (randomReads w)).
    { unfold w1. destruct r; [reflexivity|].
      destruct (splitBot_random k 20 w) as [-> ->]. reflexivity. }
    assert (Hk1 : exists b1, nth_error (aiCells w1) k = Some b1).
    { unfold w1. destruct r; [eauto|]. eapply splitBot_nth; eassumption. }
    destruct Hk1 as (b1 & Hk1).
    destruct (steer_direction k s w1 Hc) as (ux & uy & E & Hunit & Hzero).
    pose proof (withVelocity_nth k ux uy w1 b1 Hk1) as Hnth.
    rewrite Hrand in Hnth. fold speed in Hnth.
    exists ux, uy, (withVelocity k ux uy w1). eexists.
    split; [rewrite Hupd; exact E|]. split; [exact Hnth|].
    cbn [vx vy set_vx set_vy].
    split; [reflexivity|]. split; [reflexivity|].
    assert (Hs : 0.5 <= speed < 2) by (unfold speed; lra).
    split; [exact Hs|]. split.
    + intro Hnz. pose proof (Hunit Hnz) as U. split; [exact U|].
      replace (ux * speed * (ux * speed) + uy * speed * (uy * speed))
        with (speed * speed * (ux * ux + uy * uy)) by ring.
      rewrite U, Rmult_1_r. apply sqrt_square. lra.
    + intros Hx Hy. destruct (Hzero Hx Hy) as [-> ->]. split; ring.
Qed.

Lemma distance_bot100_east :
  distance (x bot100) (y bot100) (x predatorEast) (y predatorEast) = 100.
Proof.
  cbn [x y bot100 predatorEast cellAt]. apply Rle_antisym.
  - apply distance_upper_bound; lra.
  - apply distance_lower_bound; lra.
Qed.

Lemma distance_bot100_west :
  distance (x bot100) (y bot100) (x predatorWest) (y predatorWest) = 100.
Proof.
  cbn [x y bot100 predatorWest cellAt]. apply Rle_antisym.
  - apply distance_upper_bound; lra.
  - apply distance_lower_bound; lra.
Qed.

Lemma scan_flee_east (s : Steer) :
  scanOpponent 10000 preyDistance bot100 predatorEast s
  = Ok (Next (mkSteer (steerX s - (1100 - 1000) / 100)
                      (steerY s - (1000 - 1000) / 100) (S (count s)))).
Proof.
  rewrite scanOpponent_flee; rewrite ?distance_bot100_east;
    unfold dangerDistance; cbn [x y mass bot100 predatorEast cellAt];
    try lra; reflexivity.
Qed.

Lemma scan_flee_west (s : Steer) :
  scanOpponent 10000 preyDistance bot100 predatorWest s
  = Ok (Next (mkSteer (steerX s - (900 - 1000) / 100)
                      (steerY s - (1000 - 1000) / 100) (S (count s)))).
Proof.
  rewrite scanOpponent_flee; rewrite ?distance_bot100_west;
    unfold dangerDistance; cbn [x y mass bot100 predatorWest cellAt];
    try lra; reflexivity.
Qed.

(** A bot of mass 100 at distance 100 of a player cell of mass 400 gets a
    velocity of length 1.25, the speed for a random draw of 1/2. *)
Lemma steering_velocity_witness :
  exists w' bot',
    updateBot 10000 0 world_flee = Ok w' /\
    nth_error (aiCells w') 0 = Some bot' /\
    sqrt (vx bot' * vx bot' + vy bot' * vy bot') = 0.5 * (2 - 0.5) + 0.5.
Proof.
  destruct (steering_velocity 10000 0 world_flee bot100
              (Next (mkSteer (0 - (1100 - 1000) / 100)
                             (0 - (1000 - 1000) / 100) 1)))
    as (_ & H).
  - reflexivity.
  - cbn [isBoss bot100 opponentsOf world_flee arena playerCells aiCells
         removeAt app scanOpponents].
    rewrite scan_flee_east. reflexivity.
  - cbn. lra.
  - destruct H as (ux & uy & w' & bot' & Hupd & Hnth & _ & _ & _ & Hunit & _).
    + cbn. lia.
    + exists w', bot'. split; [exact Hupd|]. split; [exact Hnth|].
      apply Hunit. left. cbn. lra.
Defined.

(** The claim [C6] as stated fails for a bot midway between two equal
    predators: both contribute to the accumulator, the contributions
    cancel out, and the bot, which was moving, is left with the velocity
    zero, which is not a unit vector scaled by a speed of at least 0.5. *)
Lemma standoff_velocity_zero :
  exists s w' bot',
    scanOpponents 10000 preyDistance bot100 (opponentsOf 0 world_standoff)
                  (mkSteer 0 0 0) = Ok (Next s) /\
    count s = 2%nat /\
    updateBot 10000 0 world_standoff = Ok w' /\
    nth_error (aiCells w') 0 = Some bot' /\
    vx bot100 = 1 /\ vx bot' = 0 /\ vy bot' = 0.
Proof.
  set (s := mkSteer (0 - (1100 - 1000) / 100 - (900 - 1000) / 100)
                    (0 - (1000 - 1000) / 100 - (1000 - 1000) / 100) 2).
  assert (Hscan : scanOpponents 10000 preyDistance bot100
                    (opponentsOf 0 world_standoff) (mkSteer 0 0 0)
                  = Ok (Next s)).
  { cbn [opponentsOf world_standoff arena playerCells aiCells removeAt app
         scanOpponents].
    rewrite scan_flee_east. cbn [bind]. rewrite scan_flee_west. reflexivity. }
  destruct (steer_direction 0 s world_standoff) as (ux & uy & E & _ & Hzero);
    [cbn; lia|].
  destruct Hzero as [-> ->]; [cbn; lra | cbn; lra |].
  exists s. eexists. eexists.
  split; [exact Hscan|]. split; [reflexivity|].
  split.
  { unfold updateBot.
    cbn [nth_error aiCells world_standoff arena isBoss bot100].
    rewrite Hscan. cbn [bind]. exact E. }
  split.
  { apply (withVelocity_nth 0 0 0 world_standoff bot100). reflexivity. }
  cbn. repeat split; lra.
Qed.

(** ** The collision passes *)

Lemma removeAt_length {A : Type} (l : list A) (i : nat) (a : A) :
  nth_error l i = Some a -> S (length (removeAt i l)) = length l.
Proof.
  revert i. induction l as [|h t IH]; intros [|i]; cbn; try discriminate.
  - reflexivity.
  - intro H. f_equal. apply IH. exact H.
Qed.

Lemma repeat_snoc {A : Type} (a : A) (n : nat) :
  repeat a n ++ [a] = repeat a (S n).
Proof. induction n; cbn; [reflexivity | f_equal; assumption]. Qed.

Lemma set_cellsOf_lengths (o : Owner) (f : Cell -> Cell) (p : nat) (w : World) :
  length (aiCells (set_cellsOf o (updateAt p f (cellsOf o w)) w))
  = length (aiCells w) /\
  length (playerCells (set_cellsOf o (updateAt p f (cellsOf o w)) w))
  = length (playerCells w).
Proof.
  destruct o; cbn; rewrite updateAt_length; split; reflexivity.
Qed.

(** *** Spawning *)

Lemma spawnFood_spec (w : World) :
  events (spawnFood w) = events w /\
  randomReads (spawnFood w) = (randomReads w + 5)%nat /\
  (length (foods (spawnFood w)) + length (hexagons (spawnFood w))
   = S (length (foods w) + length (hexagons w)))%nat /\
  aiCells (spawnFood w) = aiCells w /\
  playerCells (spawnFood w) = playerCells w.
Proof.
  unfold spawnFood. cbn. destruct (_ <? _); cbn; rewrite length_app; cbn;
    repeat split; lia.
Qed.

Lemma spawnAICell_spec (w : World) :
  events (spawnAICell w) = events w /\
  (exists c, aiCells (spawnAICell w) = aiCells w ++ [c]) /\
  playerCells (spawnAICell w) = playerCells w /\
  foods (spawnAICell w) = foods w /\
  hexagons (spawnAICell w) = hexagons w /\
  gameOver (spawnAICell w) = gameOver w.
Proof.
  unfold spawnAICell. cbn -[cos sin PI]. destruct (_ <? _); cbn -[cos sin PI];
    repeat split; eexists; reflexivity.
Qed.

Lemma spawnAICell_length (w : World) :
  length (aiCells (spawnAICell w)) = S (length (aiCells w)).
Proof.
  destruct (spawnAICell_spec w) as (_ & (c & E) & _).
  rewrite E, length_app. cbn. lia.
Qed.

(** *** Pellets *)

Lemma pelletPass_refl (w : World) : pelletPass w w.
Proof.
  exists 0%nat. cbn. rewrite app_nil_r. repeat split; lia.
Qed.

Lemma pelletPass_trans (w1 w2 w3 : World) :
  pelletPass w1 w2 -> pelletPass w2 w3 -> pelletPass w1 w3.
Proof.
  intros (n & E1 & R1 & L1 & A1 & P1) (m & E2 & R2 & L2 & A2 & P2).
  exists (n + m)%nat. rewrite E2, E1, R2, R1, L2, L1, A2, A1, P2, P1.
  rewrite repeat_app, app_assoc. repeat split; lia.
Qed.

(** One consumption of the pellet at index [i] by the cell at index [p]. *)
Lemma eat_one_pellet (o : Owner) (p i : nat) (amount : R) (w : World) (f : Food) :
  nth_error (foods w) i = Some f ->
  pelletPass w
    (spawnFood
       (logEvent BodyPellet
          (set_foods
             (removeAt i (foods (set_cellsOf o (updateAt p (grow amount)
                                                        (cellsOf o w)) w)))
             (set_cellsOf o (updateAt p (grow amount) (cellsOf o w)) w)))).
Proof.
  intro Hf.
  destruct (set_cellsOf_lengths o (grow amount) p w) as [La Lp].
  set (w1 := set_cellsOf o (updateAt p (grow amount) (cellsOf o w)) w) in *.
  assert (F1 : foods w1 = foods w) by (unfold w1; destruct o; reflexivity).
  assert (H1 : hexagons w1 = hexagons w) by (unfold w1; destruct o; reflexivity).
  assert (E1 : events w1 = events w) by (unfold w1; destruct o; reflexivity).
  assert (R1 : randomReads w1 = randomReads w)
    by (unfold w1; destruct o; reflexivity).
  destruct (spawnFood_spec
              (logEvent BodyPellet (set_foods (removeAt i (foods w1)) w1)))
    as (E & Rr & L & A & P).
  exists 1%nat. rewrite E, Rr, L, A, P. cbn.
  rewrite E1, R1, F1, H1, La, Lp.
  pose proof (removeAt_length _ _ _ Hf). repeat split; lia.
Qed.

Lemma eatFoods_pass (o : Owner) (p i : nat) (w : World) :
  pelletPass w (eatFoods o p i w).
Proof.
  revert w. induction i as [|i IH]; intro w; cbn [eatFoods].
  - apply pelletPass_refl.
  - destruct (nth_error (cellsOf o w) p) as [cell|]; [|apply IH].
    destruct (nth_error (foods w) i) as [f|] eqn:Hf; [|apply IH].
    destruct (_ <? _); [|apply IH].
    eapply pelletPass_trans; [|apply IH].
    apply eat_one_pellet with (f := f). exact Hf.
Qed.

Lemma eatFoodPass_pass (o : Owner) (w : World) :
  pelletPass w (eatFoodPass o w).
Proof.
  unfold eatFoodPass. generalize (seq 0 (length (cellsOf o w))) as ps.
  intro ps. revert w. induction ps as [|p ps IH]; intro w; cbn [fold_left].
  - apply pelletPass_refl.
  - eapply pelletPass_trans; [apply eatFoods_pass | apply IH].
Qed.

(** *** Bots *)

Lemma agentPass_refl (c : Category) (w : World) : agentPass c w w.
Proof.
  exists 0%nat. cbn. rewrite app_nil_r. repeat split.
Qed.

Lemma agentPass_trans (c : Category) (w1 w2 w3 : World) :
  agentPass c w1 w2 -> agentPass c w2 w3 -> agentPass c w1 w3.
Proof.
  intros (n & E1 & L1 & F1 & H1) (m & E2 & L2 & F2 & H2).
  exists (n + m)%nat. rewrite E2, E1, L2, L1, F2, F1, H2, H1.
  rewrite repeat_app, app_assoc. repeat split.
Qed.

(** The removal of the bot at index [i] followed by a spawn. *)
Lemma replace_one_bot (c : Category) (i : nat) (w w1 : World) (ai : Cell) :
  nth_error (aiCells w1) i = Some ai ->
  length (aiCells w1) = length (aiCells w) ->
  events w1 = events w -> foods w1 = foods w -> hexagons w1 = hexagons w ->
  agentPass c w
    (spawnAICell (logEvent c (set_aiCells (removeAt i (aiCells w1)) w1))).
Proof.
  intros Hi Hl He Hf Hh.
  set (w2 := logEvent c (set_aiCells (removeAt i (aiCells w1)) w1)).
  destruct (spawnAICell_spec w2) as (E & _ & _ & F & H & _).
  exists 1%nat. rewrite E, F, H, spawnAICell_length. cbn.
  pose proof (removeAt_length _ _ _ Hi).
  rewrite He, Hf, Hh. repeat split. lia.
Qed.

Lemma playerVsAIInner_pass (i j : nat) (w : World) :
  agentPass PlayerAgent w (playerVsAIInner i j w).
Proof.
  induction j as [|j IH]; cbn [playerVsAIInner].
  - apply agentPass_refl.
  - destruct (nth_error (aiCells w) i) as [ai|] eqn:Hi; [|exact IH].
    destruct (nth_error (playerCells w) j) as [cell|]; [|exact IH].
    destruct (_ <? _); [|exact IH].
    destruct (_ >? _).
    + apply (replace_one_bot PlayerAgent i w _ ai); try reflexivity.
      exact Hi.
    + destruct (_ >? _); [|exact IH].
      exists 1%nat. cbn. destruct (removeAt j (playerCells w)); cbn;
        repeat split.
Qed.

Lemma playerVsAIOuter_pass (i : nat) (w : World) :
  agentPass PlayerAgent w (playerVsAIOuter i w).
Proof.
  revert w. induction i as [|i IH]; intro w; cbn [playerVsAIOuter].
  - apply agentPass_refl.
  - eapply agentPass_trans; [apply playerVsAIInner_pass | apply IH].
Qed.

Lemma playerVsAI_pass (w : World) : agentPass PlayerAgent w (playerVsAI w).
Proof. apply playerVsAIOuter_pass. Qed.

(** The pass between bots, however far the fuel lets it run. *)
Lemma aiVsAILoop_pass (fuel i j : nat) (w : World) :
  exists w', reached (aiVsAILoop fuel i j w) w' /\ agentPass AgentAgent w w'.
Proof.
  revert i j w. induction fuel as [|f IH]; intros i j w; cbn [aiVsAILoop].
  - exists w. split; [right; reflexivity | apply agentPass_refl].
  - destruct (Nat.ltb i (length (aiCells w)));
      [|exists w; split; [left; reflexivity | apply agentPass_refl]].
    destruct (Nat.ltb j (length (aiCells w))); [|apply IH].
    destruct (nth_error (aiCells w) i) as [cellA|] eqn:Hi; [|apply IH].
    destruct (nth_error (aiCells w) j) as [cellB|] eqn:Hj; [|apply IH].
    destruct (_ <? _); [|apply IH].
    destruct (_ >? _).
    + match goal with |- context [aiVsAILoop f i j ?w1] =>
        destruct (IH i j w1) as (w' & Hr & H) end.
      exists w'. split; [exact Hr|].
      eapply agentPass_trans; [|exact H].
      destruct (Nat.eq_dec i j) as [-> | Hne].
      * apply (replace_one_bot AgentAgent j w _ (grow (mass cellB * 0.5) cellB));
          try reflexivity.
        -- apply (updateAt_nth _ _ _ _ Hj).
        -- apply updateAt_length.
      * apply (replace_one_bot AgentAgent j w _ cellB); try reflexivity.
        -- cbn [aiCells set_aiCells].
           rewrite updateAt_nth_other by assumption. exact Hj.
        -- apply updateAt_length.
    + destruct (_ >? _); [|apply IH].
      match goal with |- context [aiVsAILoop f i (S i) ?w1] =>
        destruct (IH i (S i) w1) as (w' & Hr & H) end.
      exists w'. split; [exact Hr|].
      eapply agentPass_trans; [|exact H].
      destruct (Nat.eq_dec i j) as [-> | Hne].
      * apply (replace_one_bot AgentAgent j w _ (grow (mass cellA * 0.5) cellA));
          try reflexivity.
        -- apply (updateAt_nth _ _ _ _ Hi).
        -- apply updateAt_length.
      * apply (replace_one_bot AgentAgent i w _ cellA); try reflexivity.
        -- cbn [aiCells set_aiCells].
           rewrite updateAt_nth_other by (intro; apply Hne; congruence).
           exact Hi.
        -- apply updateAt_length.
Qed.

(** *** Hexagons *)

Lemma structurePass_refl (w : World) : structurePass w w.
Proof.
  exists 0%nat. cbn. rewrite app_nil_r. repeat split. lia.
Qed.

Lemma structurePass_trans (w1 w2 w3 : World) :
  structurePass w1 w2 -> structurePass w2 w3 -> structurePass w1 w3.
Proof.
  intros (n & E1 & L1 & F1 & R1 & A1) (m & E2 & L2 & F2 & R2 & A2).
  exists (n + m)%nat. rewrite E2, E1, F2, F1, R2, R1, A2, A1.
  rewrite repeat_app, app_assoc. repeat split. lia.
Qed.

Lemma eatHexagons_pass (p i : nat) (w : World) :
  structurePass w (eatHexagons p i w).
Proof.
  revert w. induction i as [|i IH]; intro w; cbn [eatHexagons].
  - apply structurePass_refl.
  - destruct (nth_error (playerCells w) p) as [cell|]; [|apply IH].
    destruct (nth_error (hexagons w) i) as [hex|] eqn:Hh; [|apply IH].
    destruct (_ <? _); [|apply IH].
    eapply structurePass_trans; [|apply IH].
    exists 1%nat. cbn. pose proof (removeAt_length _ _ _ Hh).
    repeat split. lia.
Qed.

Lemma eatHexagonPass_pass (w : World) : structurePass w (eatHexagonPass w).
Proof.
  unfold eatHexagonPass. generalize (seq 0 (length (playerCells w))) as ps.
  intro ps. revert w. induction ps as [|p ps IH]; intro w; cbn [fold_left].
  - apply structurePass_refl.
  - eapply structurePass_trans; [apply eatHexagons_pass | apply IH].
Qed.

(** ** No division by zero in a tick *)

Lemma botLoop_no_division_by_zero (fuel : nat) (now : R) (k : nat) (w : World) :
  botLoop fuel now k w <> DivByZero.
Proof.
  revert k w. induction fuel as [|f IH]; intros k w; cbn [botLoop].
  - discriminate.
  - destruct (Nat.ltb k (length (aiCells w))); [|discriminate].
    destruct (updateBot_ok now k w) as (w' & E). rewrite E. cbn [bind].
    apply IH.
Qed.

Lemma aiVsAILoop_no_division_by_zero (fuel i j : nat) (w : World) :
  aiVsAILoop fuel i j w <> DivByZero.
Proof.
  revert i j w. induction fuel as [|f IH]; intros i j w; cbn [aiVsAILoop].
  - discriminate.
  - destruct (Nat.ltb i (length (aiCells w))); [|discriminate].
    destruct (Nat.ltb j (length (aiCells w))); [|apply IH].
    destruct (nth_error (aiCells w) i); [|apply IH].
    destruct (nth_error (aiCells w) j); [|apply IH].
    destruct (_ <? _); [|apply IH].
    destruct (_ >? _); [apply IH|].
    destruct (_ >? _); apply IH.
Qed.

Lemma updateGame_no_division_by_zero (fuel : nat) (w : World) :
  updateGame fuel w <> DivByZero.
Proof.
  unfold updateGame. destruct (gameOver w); [discriminate|].
  set (w2 := set_aiCells _ _).
  unfold updateBotAI. cbn [performanceNow].
  destruct (botLoop fuel _ 0 _) as [w3 | |] eqn:E; cbn [bind];
    [|exfalso; eapply botLoop_no_division_by_zero; eassumption | discriminate].
  unfold resolveCollisions, aiVsAI.
  destruct (aiVsAILoop fuel 0 1 _) as [w4 | |] eqn:E'; cbn [bind];
    [discriminate
    |exfalso; eapply aiVsAILoop_no_division_by_zero; eassumption
    |discriminate].
Qed.

(** ** Sample collisions *)

Lemma sqrt_100 : sqrt 100 = 10.
Proof. replace 100 with (10 * 10) by lra. apply sqrt_square. lra. Qed.

Lemma sqrt_400 : sqrt 400 = 20.
Proof. replace 400 with (20 * 20) by lra. apply sqrt_square. lra. Qed.

(** A bot heavier than a player cell by the margin, overlapping it, takes
    it out of the array; the loop over the player cells stops there. *)
Lemma playerVsAIInner_agent_eats (i j : nat) (w : World) (ai cell : Cell) :
  nth_error (aiCells w) i = Some ai ->
  nth_error (playerCells w) j = Some cell ->
  distance (x cell) (y cell) (x ai) (y ai) < radius cell + radius ai ->
  mass cell <= mass ai * 1.1 ->
  mass ai > mass cell * 1.1 ->
  playerVsAIInner i (S j) w
  = logEvent PlayerAgent
      (match removeAt j (playerCells w) with
       | [] => set_gameOver true
                 (set_playerCells (removeAt j (playerCells w)) w)
       | _ => set_playerCells (removeAt j (playerCells w)) w
       end).
Proof.
  intros Hi Hj Hd Hle Hgt. cbn [playerVsAIInner]. rewrite Hi, Hj.
  rewrite (ltb_true _ _ Hd), (gtb_false _ _ Hle), (gtb_true _ _ Hgt).
  cbn [playerCells set_playerCells]. reflexivity.
Qed.

(** The loop tests [i < aiCells.length] succeed for an index at which a
    bot was found. *)
Ltac indices_in_range :=
  repeat match goal with
         | |- context [Nat.ltb ?i (length ?l)] =>
           replace (Nat.ltb i (length l)) with true
             by (symmetry; apply Nat.ltb_lt, nth_error_Some; congruence)
         end.

(** A player cell heavier than a bot by the margin, overlapping it, grows
    by half of the bot's mass; the bot is removed and another is spawned. *)
Lemma playerVsAIInner_player_eats (i j : nat) (w : World) (ai cell : Cell) :
  nth_error (aiCells w) i = Some ai ->
  nth_error (playerCells w) j = Some cell ->
  distance (x cell) (y cell) (x ai) (y ai) < radius cell + radius ai ->
  mass cell > mass ai * 1.1 ->
  playerVsAIInner i (S j) w
  = spawnAICell
      (logEvent PlayerAgent
         (set_aiCells (removeAt i (aiCells w))
            (set_playerCells
               (updateAt j (grow (mass ai * 0.5)) (playerCells w)) w))).
Proof.
  intros Hi Hj Hd Hgt. cbn [playerVsAIInner]. rewrite Hi, Hj.
  rewrite (ltb_true _ _ Hd), (gtb_true _ _ Hgt). reflexivity.
Qed.

(** Overlapping bodies within the margin of each other are left alone, in
    the pass between player cells and bots and in the pass between bots. *)
Lemma playerVsAIInner_near_equal (i j : nat) (w : World) (ai cell : Cell) :
  nth_error (aiCells w) i = Some ai ->
  nth_error (playerCells w) j = Some cell ->
  mass cell <= mass ai * 1.1 -> mass ai <= mass cell * 1.1 ->
  playerVsAIInner i (S j) w = playerVsAIInner i j w.
Proof.
  intros Hi Hj H1 H2. cbn [playerVsAIInner]. rewrite Hi, Hj.
  rewrite (gtb_false _ _ H1), (gtb_false _ _ H2).
  destruct (_ <? _); reflexivity.
Qed.

Lemma aiVsAILoop_near_equal (fuel i j : nat) (w : World) (cellA cellB : Cell) :
  nth_error (aiCells w) i = Some cellA ->
  nth_error (aiCells w) j = Some cellB ->
  mass cellA <= mass cellB * 1.1 -> mass cellB <= mass cellA * 1.1 ->
  aiVsAILoop (S fuel) i j w = aiVsAILoop fuel i (S j) w.
Proof.
  intros Hi Hj H1 H2. cbn [aiVsAILoop].
  indices_in_range.
  rewrite Hi, Hj, (gtb_false _ _ H1), (gtb_false _ _ H2).
  destruct (_ <? _); reflexivity.
Qed.

(** In the pass between bots the heavier bot grows by half of the mass of
    the bot it removes, whichever of the two it is. *)
Lemma aiVsAILoop_first_eats (fuel i j : nat) (w : World) (cellA cellB : Cell) :
  nth_error (aiCells w) i = Some cellA ->
  nth_error (aiCells w) j = Some cellB ->
  distance (x cellA) (y cellA) (x cellB) (y cellB) < radius cellA + radius cellB ->
  mass cellA > mass cellB * 1.1 ->
  aiVsAILoop (S fuel) i j w
  = aiVsAILoop fuel i j
      (spawnAICell
         (logEvent AgentAgent
            (set_aiCells
               (removeAt j (updateAt i (grow (mass cellB * 0.5)) (aiCells w)))
               w))).
Proof.
  intros Hi Hj Hd Hgt. cbn [aiVsAILoop].
  indices_in_range.
  rewrite Hi, Hj, (ltb_true _ _ Hd), (gtb_true _ _ Hgt). reflexivity.
Qed.

Lemma aiVsAILoop_second_eats (fuel i j : nat) (w : World) (cellA cellB : Cell) :
  nth_error (aiCells w) i = Some cellA ->
  nth_error (aiCells w) j = Some cellB ->
  distance (x cellA) (y cellA) (x cellB) (y cellB) < radius cellA + radius cellB ->
  mass cellA <= mass cellB * 1.1 ->
  mass cellB > mass cellA * 1.1 ->
  aiVsAILoop (S fuel) i j w
  = aiVsAILoop fuel i (S i)
      (spawnAICell
         (logEvent AgentAgent
            (set_aiCells
               (removeAt i (updateAt j (grow (mass cellA * 0.5)) (aiCells w)))
               w))).
Proof.
  intros Hi Hj Hd Hle Hgt. cbn [aiVsAILoop].
  indices_in_range.
  rewrite Hi, Hj, (ltb_true _ _ Hd), (gtb_false _ _ Hle), (gtb_true _ _ Hgt).
  reflexivity.
Qed.

Lemma grow_mass (amount : R) (c : Cell) :
  mass (grow amount c) = mass c + amount /\
  radius (grow amount c) = sqrt (mass c + amount).
Proof. split; reflexivity. Qed.

(** A pair that does not overlap is passed over. *)
Lemma playerVsAIInner_apart (i j : nat) (w : World) (ai cell : Cell) :
  nth_error (aiCells w) i = Some ai ->
  nth_error (playerCells w) j = Some cell ->
  radius cell + radius ai <= distance (x cell) (y cell) (x ai) (y ai) ->
  playerVsAIInner i (S j) w = playerVsAIInner i j w.
Proof.
  intros Hi Hj Hd. cbn [playerVsAIInner]. rewrite Hi, Hj.
  rewrite (ltb_false _ _ Hd). reflexivity.
Qed.

(** A player cell overlapping a hexagon eats it. *)
Lemma eatHexagons_eats (p i : nat) (w : World) (cell : Cell)
      (hex : RotatingHexagon) :
  nth_error (playerCells w) p = Some cell ->
  nth_error (hexagons w) i = Some hex ->
  distance (x cell) (y cell) (hx hex) (hy hex) < radius cell + size hex ->
  eatHexagons p (S i) w
  = eatHexagons p i
      (logEvent BodyStructure
         (set_hexagons (removeAt i (hexagons w))
            (set_rainbowEffects
               (rainbowEffects w ++ [newRainbowEffect (hx hex) (hy hex)])
               (set_playerCells
                  (updateAt p (grow (massBonus hex * 1.5)) (playerCells w))
                  w)))).
Proof.
  intros Hp Hi Hd. cbn [eatHexagons]. rewrite Hp, Hi, (ltb_true _ _ Hd).
  reflexivity.
Qed.

Lemma hunter_eats_victim :
  playerVsAI world_hunt
  = logEvent PlayerAgent (set_gameOver true (set_playerCells [] world_hunt)).
Proof.
  unfold playerVsAI.
  cbn [length aiCells playerCells world_hunt arena playerVsAIOuter].
  rewrite (playerVsAIInner_agent_eats 0 0 _ hunter400 victim100);
    try reflexivity;
    cbn [x y radius mass victim100 hunter400 cellAt];
    rewrite ?sqrt_100, ?sqrt_400; try lra.
  assert (distance 0 0 5 0 <= 5) by (apply distance_upper_bound; lra). lra.
Qed.

(** [C4] A player cell of mass 100 overlaps a bot of mass 400.  The bot
    exceeds the player cell by more than the margin and the player cell is
    removed, but the bot, which is the larger body, gains nothing: it is
    left exactly as it was, with its mass of 400 and not 450. *)
Theorem agent_eats_player_without_growth :
  mass victim100 = 100 /\ mass hunter400 = 400 /\
  checkCollision victim100 hunter400 = true /\
  playerCells (playerVsAI world_hunt) = [] /\
  aiCells (playerVsAI world_hunt) = [hunter400] /\
  events (playerVsAI world_hunt) = [PlayerAgent].
Proof.
  rewrite hunter_eats_victim. repeat split.
  unfold checkCollision. apply ltb_true.
  cbn [x y radius mass victim100 hunter400 cellAt].
  rewrite sqrt_100, sqrt_400.
  assert (distance 0 0 5 0 <= 5) by (apply distance_upper_bound; lra). lra.
Qed.

(** ** The resolver on the sample worlds *)

Lemma victim_hunter_overlap :
  distance (x victim100) (y victim100) (x hunter400) (y hunter400)
  < radius victim100 + radius hunter400.
Proof.
  cbn [x y radius victim100 hunter400 cellAt]. rewrite sqrt_100, sqrt_400.
  assert (distance 0 0 5 0 <= 5) by (apply distance_upper_bound; lra). lra.
Qed.

Lemma grazer_hunter_apart :
  radius grazer100 + radius hunter400
  <= distance (x grazer100) (y grazer100) (x hunter400) (y hunter400).
Proof.
  cbn [x y radius grazer100 hunter400 cellAt]. rewrite sqrt_100, sqrt_400.
  assert (30 <= distance 1000 1000 5 0) by (apply distance_lower_bound; lra).
  lra.
Qed.

Lemma grazer_on_hexagon :
  distance (x grazer100) (y grazer100) (hx hexagon10) (hy hexagon10)
  < radius grazer100 + size hexagon10.
Proof.
  cbn [x y radius grazer100 hx hy size hexagon10 cellAt].
  rewrite distance_same, sqrt_100. lra.
Qed.

Lemma resolve_world_order :
  exists w', resolveCollisions 3 world_order = Ok w' /\
             events w' = [PlayerAgent; BodyStructure].
Proof.
  unfold resolveCollisions.
  cbn [eatFoodPass cellsOf playerCells aiCells foods world_order arena length
       seq fold_left eatFoods].
  unfold playerVsAI.
  cbn [aiCells playerCells length playerVsAIOuter world_order arena].
  rewrite (playerVsAIInner_apart 0 1 _ hunter400 grazer100);
    [| reflexivity | reflexivity | exact grazer_hunter_apart].
  rewrite (playerVsAIInner_agent_eats 0 0 _ hunter400 victim100);
    [| reflexivity | reflexivity | exact victim_hunter_overlap
     | cbn [mass victim100 hunter400 cellAt]; lra
     | cbn [mass victim100 hunter400 cellAt]; lra].
  cbn [playerCells removeAt world_order arena].
  unfold aiVsAI. cbn [aiVsAILoop aiCells logEvent set_playerCells length Nat.ltb
                      Nat.leb bind].
  eexists. split; [reflexivity|].
  unfold eatHexagonPass.
  cbn [playerCells length seq fold_left hexagons logEvent set_playerCells].
  rewrite (eatHexagons_eats 0 0 _ grazer100 hexagon10);
    [| reflexivity | reflexivity | exact grazer_on_hexagon].
  reflexivity.
Qed.

Lemma resolve_world_hexagon :
  exists w', resolveCollisions 1 world_hexagon = Ok w' /\
             events w' = [BodyStructure] /\
             hexagons w' = [] /\ foods w' = [] /\
             randomReads w' = randomReads world_hexagon.
Proof.
  unfold resolveCollisions.
  cbn [eatFoodPass cellsOf playerCells aiCells foods world_hexagon arena length
       seq fold_left eatFoods].
  unfold playerVsAI, aiVsAI.
  cbn [aiCells playerCells length playerVsAIOuter aiVsAILoop Nat.ltb Nat.leb
       bind world_hexagon arena].
  eexists. split; [reflexivity|].
  unfold eatHexagonPass.
  cbn [playerCells length seq fold_left hexagons world_hexagon arena].
  rewrite (eatHexagons_eats 0 0 _ grazer100 hexagon10);
    [| reflexivity | reflexivity | exact grazer_on_hexagon].
  repeat split.
Qed.

(** [C7] The consumptions a tick applies come in this order of
    categories: first those of pellets, then those between player cells
    and bots, then those between bots, and last those of hexagons.  This
    holds of the resolver
    however far it runs: when it ends, and at every point at which the
    pass between bots, the only one that might not end, is cut short. *)
Theorem collision_order (fuel : nat) (w : World) :
  exists w' a b c d,
    reached (resolveCollisions fuel w) w' /\
    events w' = events w ++ repeat BodyPellet a ++ repeat PlayerAgent b
                         ++ repeat AgentAgent c ++ repeat BodyStructure d.
Proof.
  unfold resolveCollisions.
  destruct (eatFoodPass_pass Players w) as (a1 & E1 & _).
  destruct (eatFoodPass_pass Agents (eatFoodPass Players w)) as (a2 & E2 & _).
  destruct (playerVsAI_pass (eatFoodPass Agents (eatFoodPass Players w)))
    as (b & E3 & _).
  set (w3 := playerVsAI _) in *.
  destruct (aiVsAILoop_pass fuel 0 1 w3) as (w4 & [Hr | Hr] & (c & E4 & _));
    unfold aiVsAI; rewrite Hr; cbn [bind].
  - destruct (eatHexagonPass_pass w4) as (d & E5 & _).
    exists (eatHexagonPass w4), (a1 + a2)%nat, b, c, d.
    split; [left; reflexivity|].
    rewrite E5, E4, E3, E2, E1, repeat_app, <- !app_assoc. reflexivity.
  - exists w4, (a1 + a2)%nat, b, c, 0%nat.
    split; [right; reflexivity|].
    cbn [repeat]. rewrite app_nil_r.
    rewrite E4, E3, E2, E1, repeat_app, <- !app_assoc. reflexivity.
Qed.

(** The claim [C7] as stated fails in a world where one player cell is
    within reach of a heavier bot and another sits on a hexagon: the
    consumption between player cell and bot is applied first and the
    consumption of the hexagon after it. *)
Lemma structure_after_player_agent :
  exists w', resolveCollisions 3 world_order = Ok w' /\
             events world_order = [] /\
             events w' = [PlayerAgent; BodyStructure].
Proof.
  destruct resolve_world_order as (w' & E & H).
  exists w'. repeat split; assumption.
Qed.

(** [C8] Consumptions of pellets and of bots are made up for by a spawn
    each, consumptions of hexagons are not.  A pass over pellets that
    applies [n] consumptions calls [spawnFood] [n] times and leaves the
    number of pellets and hexagons together unchanged; the passes between
    player cells and bots, and between bots (however far the latter runs),
    leave the number of bots unchanged; the pass over hexagons that applies
    [n] consumptions leaves [n] hexagons fewer, spawns nothing and draws no
    random number. *)
Theorem consumption_respawn (fuel : nat) (o : Owner) (w : World) :
  pelletPass w (eatFoodPass o w) /\
  agentPass PlayerAgent w (playerVsAI w) /\
  (exists w', reached (aiVsAI fuel w) w' /\ agentPass AgentAgent w w') /\
  structurePass w (eatHexagonPass w).
Proof.
  split; [apply eatFoodPass_pass|].
  split; [apply playerVsAI_pass|].
  split; [apply aiVsAILoop_pass | apply eatHexagonPass_pass].
Qed.

(** The claim [C8] as stated fails for a player cell sitting on a
    hexagon: the hexagon is consumed, and the resolver ends with no
    hexagon and no pellet, having drawn no random number, so that no
    replacement was spawned. *)
Lemma hexagon_not_replaced :
  exists w', resolveCollisions 1 world_hexagon = Ok w' /\
             hexagons world_hexagon = [hexagon10] /\
             events w' = [BodyStructure] /\
             hexagons w' = [] /\ foods w' = [] /\
             randomReads w' = randomReads world_hexagon.
Proof.
  destruct resolve_world_hexagon as (w' & E & H).
  exists w'. split; [exact E|]. split; [reflexivity | exact H].
Qed.

(** ** Pairs at distance zero *)

(** In the pass between player cells and bots, a pair with one centre
    overlaps as soon as the radii are not both zero, and is then consumed
    under the usual rule. *)
Lemma playerVsAIInner_same_centre (i j : nat) (w : World) (ai cell : Cell) :
  nth_error (aiCells w) i = Some ai ->
  nth_error (playerCells w) j = Some cell ->
  x cell = x ai -> y cell = y ai ->
  0 < radius cell + radius ai ->
  mass ai > mass cell * 1.1 -> mass cell <= mass ai * 1.1 ->
  playerCells (playerVsAIInner i (S j) w) = removeAt j (playerCells w) /\
  events (playerVsAIInner i (S j) w) = events w ++ [PlayerAgent].
Proof.
  intros Hi Hj Hx Hy Hr Hgt Hle.
  rewrite (playerVsAIInner_agent_eats i j w ai cell Hi Hj); try assumption.
  - destruct (removeAt j (playerCells w)); split; reflexivity.
  - rewrite Hx, Hy, distance_same. exact Hr.
Qed.

(** Bodies with one centre overlap as soon as the radii are not both
    zero. *)
Lemma same_centre_overlap (x1 y1 x2 y2 r : R) :
  x1 = x2 -> y1 = y2 -> 0 < r -> distance x1 y1 x2 y2 < r.
Proof. intros -> -> Hr. rewrite distance_same. exact Hr. Qed.

(** A cell overlapping a pellet eats it. *)
Lemma eatFoods_eats (o : Owner) (p i : nat) (w : World) (cell : Cell)
      (f : Food) :
  nth_error (cellsOf o w) p = Some cell ->
  nth_error (foods w) i = Some f ->
  distance (x cell) (y cell) (fx f) (fy f) < radius cell + fradius f ->
  eatFoods o p (S i) w = eatFoods o p i (eatPellet o p i f w).
Proof.
  intros Hp Hi Hd. cbn [eatFoods]. rewrite Hp, Hi, (ltb_true _ _ Hd).
  reflexivity.
Qed.

(** The pass between player cells and bots at a pair with one centre. *)
Lemma playerVsAIInner_same_centre_cases (i j : nat) (w : World)
      (ai cell : Cell) :
  nth_error (aiCells w) i = Some ai ->
  nth_error (playerCells w) j = Some cell ->
  x cell = x ai -> y cell = y ai -> 0 < radius cell + radius ai ->
  (mass cell > mass ai * 1.1 ->
   playerVsAIInner i (S j) w = playerEatsBot i j ai w) /\
  (mass cell <= mass ai * 1.1 -> mass ai > mass cell * 1.1 ->
   playerVsAIInner i (S j) w = botEatsPlayer j w) /\
  (mass cell <= mass ai * 1.1 -> mass ai <= mass cell * 1.1 ->
   playerVsAIInner i (S j) w = playerVsAIInner i j w).
Proof.
  intros Hi Hj Hx Hy Hr.
  pose proof (same_centre_overlap _ _ _ _ _ Hx Hy Hr) as Hd.
  split; [|split].
  - intro Hgt. rewrite (playerVsAIInner_player_eats i j w ai cell Hi Hj Hd Hgt).
    reflexivity.
  - intros Hle Hgt.
    rewrite (playerVsAIInner_agent_eats i j w ai cell Hi Hj Hd Hle Hgt).
    unfold botEatsPlayer. cbn [playerCells set_playerCells]. reflexivity.
  - intros H1 H2. exact (playerVsAIInner_near_equal i j w ai cell Hi Hj H1 H2).
Qed.

(** The pass between bots at a pair with one centre. *)
Lemma aiVsAILoop_same_centre_cases (fuel i j : nat) (w : World)
      (cellA cellB : Cell) :
  nth_error (aiCells w) i = Some cellA ->
  nth_error (aiCells w) j = Some cellB ->
  x cellA = x cellB -> y cellA = y cellB -> 0 < radius cellA + radius cellB ->
  (mass cellA > mass cellB * 1.1 ->
   aiVsAILoop (S fuel) i j w = aiVsAILoop fuel i j (botEatsBot i j cellB w)) /\
  (mass cellA <= mass cellB * 1.1 -> mass cellB > mass cellA * 1.1 ->
   aiVsAILoop (S fuel) i j w
   = aiVsAILoop fuel i (S i) (botEatsBot j i cellA w)) /\
  (mass cellA <= mass cellB * 1.1 -> mass cellB <= mass cellA * 1.1 ->
   aiVsAILoop (S fuel) i j w = aiVsAILoop fuel i (S j) w).
Proof.
  intros Hi Hj Hx Hy Hr.
  pose proof (same_centre_overlap _ _ _ _ _ Hx Hy Hr) as Hd.
  split; [|split].
  - intro Hgt.
    rewrite (aiVsAILoop_first_eats fuel i j w cellA cellB Hi Hj Hd Hgt).
    reflexivity.
  - intros Hle Hgt.
    rewrite (aiVsAILoop_second_eats fuel i j w cellA cellB Hi Hj Hd Hle Hgt).
    reflexivity.
  - intros H1 H2.
    exact (aiVsAILoop_near_equal fuel i j w cellA cellB Hi Hj H1 H2).
Qed.

Lemma resolveCollisions_no_division_by_zero (fuel : nat) (w : World) :
  resolveCollisions fuel w <> DivByZero.
Proof.
  unfold resolveCollisions, aiVsAI.
  destruct (aiVsAILoop fuel 0 1 _) as [w4 | |] eqn:E; cbn [bind];
    [discriminate
    |exfalso; eapply aiVsAILoop_no_division_by_zero; eassumption
    |discriminate].
Qed.

(** The merge of two cells with one centre and positive masses: the
    divisor is the total mass, and the merged cell stays at the centre. *)
Lemma mergeInto_same_centre (now : R) (cellA cellB : Cell) :
  x cellA = x cellB -> y cellA = y cellB ->
  0 < mass cellA -> 0 < mass cellB ->
  x (mergeInto now cellA cellB) = x cellA /\
  y (mergeInto now cellA cellB) = y cellA /\
  mass (mergeInto now cellA cellB) = mass cellA + mass cellB.
Proof.
  intros Hx Hy Ha Hb. unfold mergeInto. cbn. rewrite <- Hx, <- Hy.
  repeat split; field; lra.
Qed.

(** [C9] The steering scan passes over an opponent at distance zero: the
    accumulator is left as it was, no split is asked for, and no division
    is evaluated.  No step of the scan, and no tick of the game, ever
    divides by zero.  The collision passes divide by nothing and do not
    pass over a pair at distance zero: such a pair overlaps whenever the
    sum of the radii is positive, and a bot that exceeds a player cell of
    the same centre by the margin removes it.  So it is in every pass: a
    player cell and a bot, or two bots, with one centre are handled under
    the usual rule (the one that exceeds the other by the margin consumes
    it, whichever of the two it is, and within the margin the pair is left
    alone); a pellet or a hexagon at the centre of a cell is eaten; and the
    merge pass finds two player cells with one centre overlapping, merges
    them exactly when both have waited, and divides by their total mass,
    which leaves the merged cell at the centre. *)
Theorem zero_distance_pairs (now eff : R) (bot op : Cell) (s : Steer)
        (fuel : nat) (w : World) (i j : nat) (ai cell : Cell)
        (k : nat) (cellA cellB : Cell) (o : Owner) (p q h : nat)
        (body eater : Cell) (f : Food) (hex : RotatingHexagon) :
  (distance (x bot) (y bot) (x op) (y op) = 0 ->
   scanOpponent now eff bot op s = Ok (Next s)) /\
  (exists r, scanOpponent now eff bot op s = Ok r) /\
  (exists w', updateBot now i w = Ok w') /\
  updateGame fuel w <> DivByZero /\
  (nth_error (aiCells w) i = Some ai ->
   nth_error (playerCells w) j = Some cell ->
   x cell = x ai -> y cell = y ai ->
   0 < radius cell + radius ai ->
   mass ai > mass cell * 1.1 -> mass cell <= mass ai * 1.1 ->
   playerCells (playerVsAIInner i (S j) w) = removeAt j (playerCells w) /\
   events (playerVsAIInner i (S j) w) = events w ++ [PlayerAgent]) /\
  resolveCollisions fuel w <> DivByZero /\
  (nth_error (aiCells w) i = Some ai ->
   nth_error (playerCells w) j = Some cell ->
   x cell = x ai -> y cell = y ai ->
   0 < radius cell + radius ai ->
   (mass cell > mass ai * 1.1 ->
    playerVsAIInner i (S j) w = playerEatsBot i j ai w) /\
   (mass cell <= mass ai * 1.1 -> mass ai > mass cell * 1.1 ->
    playerVsAIInner i (S j) w = botEatsPlayer j w) /\
   (mass cell <= mass ai * 1.1 -> mass ai <= mass cell * 1.1 ->
    playerVsAIInner i (S j) w = playerVsAIInner i j w)) /\
  (nth_error (aiCells w) i = Some cellA ->
   nth_error (aiCells w) k = Some cellB ->
   x cellA = x cellB -> y cellA = y cellB ->
   0 < radius cellA + radius cellB ->
   (mass cellA > mass cellB * 1.1 ->
    aiVsAILoop (S fuel) i k w
    = aiVsAILoop fuel i k (botEatsBot i k cellB w)) /\
   (mass cellA <= mass cellB * 1.1 -> mass cellB > mass cellA * 1.1 ->
    aiVsAILoop (S fuel) i k w
    = aiVsAILoop fuel i (S i) (botEatsBot k i cellA w)) /\
   (mass cellA <= mass cellB * 1.1 -> mass cellB <= mass cellA * 1.1 ->
    aiVsAILoop (S fuel) i k w = aiVsAILoop fuel i (S k) w)) /\
  (nth_error (cellsOf o w) p = Some body ->
   nth_error (foods w) q = Some f ->
   x body = fx f -> y body = fy f ->
   0 < radius body + fradius f ->
   eatFoods o p (S q) w = eatFoods o p q (eatPellet o p q f w)) /\
  (nth_error (playerCells w) p = Some eater ->
   nth_error (hexagons w) h = Some hex ->
   x eater = hx hex -> y eater = hy hex ->
   0 < radius eater + size hex ->
   eatHexagons p (S h) w = eatHexagons p h (eatHexagon p h hex w)) /\
  (x cellA = x cellB -> y cellA = y cellB ->
   0 < radius cellA + radius cellB ->
   checkCollision cellA cellB = true /\
   (canMerge now cellA cellB = true <-> cooledDown now cellA cellB) /\
   (0 < mass cellA -> 0 < mass cellB ->
    x (mergeInto now cellA cellB) = x cellA /\
    y (mergeInto now cellA cellB) = y cellA /\
    mass (mergeInto now cellA cellB) = mass cellA + mass cellB)).
Proof.
  split; [apply scanOpponent_zero_distance|].
  split; [apply scanOpponent_ok|].
  split; [apply updateBot_ok|].
  split; [apply updateGame_no_division_by_zero|].
  split; [apply playerVsAIInner_same_centre|].
  split; [apply resolveCollisions_no_division_by_zero|].
  split; [apply playerVsAIInner_same_centre_cases|].
  split; [apply aiVsAILoop_same_centre_cases|].
  split.
  { intros Hp Hq Hx Hy Hr. apply (eatFoods_eats o p q w body f Hp Hq).
    apply same_centre_overlap; assumption. }
  split.
  { intros Hp Hh Hx Hy Hr.
    rewrite (eatHexagons_eats p h w eater hex Hp Hh);
      [reflexivity | apply same_centre_overlap; assumption]. }
  intros Hx Hy Hr.
  assert (Hc : checkCollision cellA cellB = true).
  { unfold checkCollision. apply ltb_true.
    apply same_centre_overlap; assumption. }
  split; [exact Hc|]. split.
  - rewrite canMerge_iff. tauto.
  - intros Ha Hb. apply mergeInto_same_centre; assumption.
Qed.

(** A bot of mass 400 and a player cell of mass 100 with the same centre:
    the scan of the bot passes over the player cell, the collision pass
    removes the player cell, and the overlap test holds of the two. *)
Lemma zero_distance_pairs_witness :
  scanOpponent 10000 preyDistance centred400 victim100 (mkSteer 0 0 0)
  = Ok (Next (mkSteer 0 0 0)) /\
  playerCells (playerVsAIInner 0 1 world_same_centre) = [] /\
  events (playerVsAIInner 0 1 world_same_centre) = [PlayerAgent] /\
  checkCollision victim100 centred400 = true.
Proof.
  destruct (zero_distance_pairs 10000 preyDistance centred400 victim100
              (mkSteer 0 0 0) 1 world_same_centre 0 0 centred400 victim100
              0 victim100 centred400 Players 0 0 0 victim100 victim100
              (mkFood 0 0 3 0%Z) hexagon10)
    as (Hscan & _ & _ & _ & Hpass & _ & _ & _ & _ & _ & Hmerge).
  split.
  - apply Hscan. cbn [x y centred400 victim100 cellAt]. apply distance_same.
  - destruct Hpass as [Hp He]; try reflexivity;
      try (cbn [radius mass centred400 victim100 cellAt];
           rewrite ?sqrt_100, ?sqrt_400; lra).
    rewrite Hp, He. split; [reflexivity|]. split; [reflexivity|].
    destruct Hmerge as (Hc & _); try reflexivity; [|exact Hc].
    cbn [radius centred400 victim100 cellAt].
    rewrite sqrt_100, sqrt_400. lra.
Defined.

(** The claim [C9] as stated fails for a player cell and a heavier bot
    with the same centre: the pair is at distance zero and the pass
    between player cells and bots does not skip it, the player cell is
    consumed. *)
Lemma same_centre_pair_consumed :
  distance (x victim100) (y victim100) (x centred400) (y centred400) = 0 /\
  playerCells world_same_centre = [victim100] /\
  aiCells world_same_centre = [centred400] /\
  playerCells (playerVsAI world_same_centre) = [] /\
  events (playerVsAI world_same_centre) = [PlayerAgent].
Proof.
  split; [cbn [x y centred400 victim100 cellAt]; apply distance_same|].
  split; [reflexivity|]. split; [reflexivity|].
  unfold playerVsAI.
  cbn [length aiCells playerCells world_same_centre arena playerVsAIOuter].
  destruct (playerVsAIInner_same_centre 0 0 world_same_centre centred400
              victim100) as [Hp He]; try reflexivity;
    try (cbn [radius mass centred400 victim100 cellAt];
         rewrite ?sqrt_100, ?sqrt_400; lra).
  rewrite Hp, He. split; reflexivity.
Qed.

(** * Further properties *)

(** ** Utility functions *)

Lemma clamp_cases (val mn mx : R) :
  mn <= clamp val mn mx /\
  (mx < mn -> clamp val mn mx = mn) /\
  (mn <= mx ->
   clamp val mn mx <= mx /\
   (mn <= val <= mx -> clamp val mn mx = val) /\
   (val < mn -> clamp val mn mx = mn) /\
   (mx < val -> clamp val mn mx = mx)).
Proof.
  unfold clamp.
  repeat split; intros;
    unfold Rmin; destruct (Rle_dec val mx);
    unfold Rmax;
    match goal with
    | |- context [Rle_dec ?a ?b] => destruct (Rle_dec a b)
    end; lra.
Qed.

(** [X1] [clamp] brings a value into the interval between its bounds and
    leaves a value of the interval as it is; when the bounds are crossed
    it answers the lower bound. *)
Theorem clamp_within (val mn mx : R) :
  mn <= clamp val mn mx /\
  (mx < mn -> clamp val mn mx = mn) /\
  (mn <= mx ->
   clamp val mn mx <= mx /\
   (mn <= val <= mx -> clamp val mn mx = val) /\
   (val < mn -> clamp val mn mx = mn) /\
   (mx < val -> clamp val mn mx = mx)).
Proof. exact (clamp_cases val mn mx). Qed.

(** The lower bound wins over a crossed upper bound, and a value is
    brought back into a proper interval. *)
Lemma clamp_within_witness :
  clamp 7 3000 2000 = 3000 /\ clamp (-5) 10 4990 = 10 /\
  clamp 5000 10 4990 = 4990 /\ clamp 42 10 4990 = 42.
Proof.
  destruct (clamp_within 7 3000 2000) as (_ & Hcross & _).
  destruct (clamp_within (-5) 10 4990) as (_ & _ & Hlow).
  destruct (clamp_within 5000 10 4990) as (_ & _ & Hhigh).
  destruct (clamp_within 42 10 4990) as (_ & _ & Hmid).
  repeat split.
  - apply Hcross. lra.
  - apply Hlow; lra.
  - apply Hhigh; lra.
  - apply Hmid; lra.
Defined.

(** [X2] [randomRange(min, max)] draws one random number and, for a draw in
    [0, 1) and [min <= max], answers a value of [min, max], below [max]
    when [min < max]. *)
Theorem randomRange_within (mn mx : R) (w : World) :
  0 <= mathRandom w (randomReads w) < 1 -> mn <= mx ->
  mn <= fst (randomRange mn mx w) <= mx /\
  (mn < mx -> fst (randomRange mn mx w) < mx) /\
  snd (randomRange mn mx w) = set_randomReads (S (randomReads w)) w.
Proof.
  intros Hr Hm. unfold randomRange. cbn.
  repeat split; try nra.
Qed.

Lemma randomRange_within_witness :
  3 <= fst (randomRange 3 6 world_small) <= 6 /\
  fst (randomRange 3 6 world_small) < 6 /\
  randomReads (snd (randomRange 3 6 world_small)) = 1%nat.
Proof.
  destruct (randomRange_within 3 6 world_small) as (H1 & H2 & H3).
  - cbn. lra.
  - lra.
  - split; [exact H1|]. split; [apply H2; lra|]. rewrite H3. reflexivity.
Defined.

Lemma distance_sym (x1 y1 x2 y2 : R) :
  distance x1 y1 x2 y2 = distance x2 y2 x1 y1.
Proof. unfold distance, Rsqr. f_equal. ring. Qed.

Lemma distance_zero_iff (x1 y1 x2 y2 : R) :
  distance x1 y1 x2 y2 = 0 <-> x1 = x2 /\ y1 = y2.
Proof.
  split.
  - intro H. unfold distance in H.
    pose proof (Rle_0_sqr (x2 - x1)) as Hx.
    pose proof (Rle_0_sqr (y2 - y1)) as Hy.
    apply sqrt_eq_0 in H; [|lra].
    assert (Ex : (x2 - x1)² = 0) by lra.
    assert (Ey : (y2 - y1)² = 0) by lra.
    apply Rsqr_0_uniq in Ex. apply Rsqr_0_uniq in Ey. lra.
  - intros [-> ->]. apply distance_same.
Qed.

Lemma distance_triangle (x1 y1 x2 y2 x3 y3 : R) :
  distance x1 y1 x3 y3 <= distance x1 y1 x2 y2 + distance x2 y2 x3 y3.
Proof.
  pose proof (distance_nonneg x1 y1 x2 y2) as H12.
  pose proof (distance_nonneg x2 y2 x3 y3) as H23.
  apply distance_upper_bound; [lra|].
  pose proof (sqrt_cauchy (x2 - x1) (y2 - y1) (x3 - x2) (y3 - y2)) as C.
  fold (distance x1 y1 x2 y2) in C. fold (distance x2 y2 x3 y3) in C.
  assert (S12 : distance x1 y1 x2 y2 * distance x1 y1 x2 y2
                = (x2 - x1) * (x2 - x1) + (y2 - y1) * (y2 - y1)).
  { unfold distance, Rsqr. apply sqrt_sqrt.
    pose proof (Rle_0_sqr (x2 - x1)). pose proof (Rle_0_sqr (y2 - y1)).
    unfold Rsqr in *. lra. }
  assert (S23 : distance x2 y2 x3 y3 * distance x2 y2 x3 y3
                = (x3 - x2) * (x3 - x2) + (y3 - y2) * (y3 - y2)).
  { unfold distance, Rsqr. apply sqrt_sqrt.
    pose proof (Rle_0_sqr (x3 - x2)). pose proof (Rle_0_sqr (y3 - y2)).
    unfold Rsqr in *. lra. }
  nra.
Qed.

(** [X3] [distance] is a metric on the plane, and so the collision test does
    not depend on the order of the two cells. *)
Theorem distance_metric (x1 y1 x2 y2 x3 y3 : R) (a b : Cell) :
  0 <= distance x1 y1 x2 y2 /\
  distance x1 y1 x2 y2 = distance x2 y2 x1 y1 /\
  (distance x1 y1 x2 y2 = 0 <-> x1 = x2 /\ y1 = y2) /\
  distance x1 y1 x3 y3 <= distance x1 y1 x2 y2 + distance x2 y2 x3 y3 /\
  checkCollision a b = checkCollision b a.
Proof.
  split; [apply distance_nonneg|].
  split; [apply distance_sym|].
  split; [apply distance_zero_iff|].
  split; [apply distance_triangle|].
  unfold checkCollision.
  rewrite (distance_sym (x a)), (Rplus_comm (radius a)). reflexivity.
Qed.

(** ** The centre of the player *)

Lemma sum_within {A : Type} (f : A -> R) (a b : R) (l : list A) (s0 : R) :
  Forall (fun c => a <= f c <= b) l ->
  s0 + a * INR (length l) <= fold_left (fun s c => s + f c) l s0
  <= s0 + b * INR (length l).
Proof.
  intro H. revert s0. induction H as [|c l Hc _ IH]; intro s0.
  - cbn. lra.
  - cbn [fold_left length]. rewrite S_INR.
    specialize (IH (s0 + f c)). lra.
Qed.

Lemma mean_within (s a b n : R) :
  0 < n -> a * n <= s <= b * n -> a <= s / n <= b.
Proof.
  intros Hn H. split.
  - apply Rmult_le_reg_r with n; [assumption|].
    unfold Rdiv. rewrite Rmult_assoc, Rinv_l by lra. lra.
  - apply Rmult_le_reg_r with n; [assumption|].
    unfold Rdiv. rewrite Rmult_assoc, Rinv_l by lra. lra.
Qed.

(** [X4] [getPlayerCenter] answers the middle of the canvas when there is no
    player cell, and otherwise a point of every rectangle that holds the
    centres of all player cells. *)
Theorem getPlayerCenter_within (w : World) (a b c d : R) :
  (playerCells w = [] ->
   getPlayerCenter w = (canvasWidth w / 2, canvasHeight w / 2)) /\
  (playerCells w <> [] ->
   Forall (fun cell => a <= x cell <= b /\ c <= y cell <= d) (playerCells w) ->
   a <= fst (getPlayerCenter w) <= b /\ c <= snd (getPlayerCenter w) <= d).
Proof.
  unfold getPlayerCenter. split.
  - intros ->. reflexivity.
  - intros Hne H. destruct (playerCells w) as [|c0 l] eqn:E; [contradiction|].
    cbn [fst snd].
    assert (Hn : 0 < INR (length (c0 :: l))).
    { apply lt_0_INR. cbn. lia. }
    assert (Hx : Forall (fun cell => a <= x cell <= b) (c0 :: l)).
    { eapply Forall_impl; [|exact H]. cbn. tauto. }
    assert (Hy : Forall (fun cell => c <= y cell <= d) (c0 :: l)).
    { eapply Forall_impl; [|exact H]. cbn. tauto. }
    pose proof (sum_within x a b _ 0 Hx) as Sx.
    pose proof (sum_within y c d _ 0 Hy) as Sy.
    split; apply mean_within; try assumption; lra.
Qed.

(** The centre of three cells in a row lies between the outer ones. *)
Lemma getPlayerCenter_within_witness :
  100 <= fst (getPlayerCenter world_row) <= 600 /\
  40 <= snd (getPlayerCenter world_row) <= 60.
Proof.
  apply (proj2 (getPlayerCenter_within world_row 100 600 40 60)).
  - discriminate.
  - repeat constructor; cbn; lra.
Defined.

(** ** [cell.update] *)

(** What one update leaves alone, and the two decays. *)
Lemma update_frame (target : R * R) (c : Cell) :
  mass (update target c) = mass c /\
  radius (update target c) = radius c /\
  color (update target c) = color c /\
  isPlayer (update target c) = isPlayer c /\
  isBoss (update target c) = isBoss c /\
  lastSplitTime (update target c) = lastSplitTime c /\
  extraVX (update target c) = extraVX c * 0.95 /\
  extraVY (update target c) = extraVY c * 0.95 /\
  drawRadius (update target c) - radius c
  = (drawRadius c - radius c) * 0.9.
Proof.
  unfold update. destruct (isPlayer c) eqn:Hp.
  - cbn -[atan2 cos sin clamp]. rewrite Hp.
    repeat split; first [reflexivity | lra].
  - cbn -[atan2 cos sin clamp].
    destruct (_ || _); destruct (_ || _); cbn; rewrite ?Hp;
      repeat split; first [reflexivity | lra].
Qed.

(** [X5] Frame after frame, whatever the targets, [update] leaves the mass,
    the radius, the colour, the kind and the time of the last split of a
    cell alone, multiplies the split impulse by 0.95 and brings the draw
    radius closer to the radius by a factor 0.9. *)
Theorem update_decays (targets : list (R * R)) (c : Cell) :
  let c' := updates targets c in
  let n := length targets in
  mass c' = mass c /\ radius c' = radius c /\ color c' = color c /\
  isPlayer c' = isPlayer c /\ isBoss c' = isBoss c /\
  lastSplitTime c' = lastSplitTime c /\
  extraVX c' = extraVX c * 0.95 ^ n /\
  extraVY c' = extraVY c * 0.95 ^ n /\
  drawRadius c' - radius c = (drawRadius c - radius c) * 0.9 ^ n.
Proof.
  unfold updates. revert c.
  induction targets as [|t ts IH]; intro c; cbn [fold_left length pow].
  - repeat split; ring.
  - destruct (update_frame t c)
      as (Hm & Hr & Hc & Hp & Hb & Hl & Hx & Hy & Hd).
    destruct (IH (update t c))
      as (Im & Ir & Ic & Ip & Ib & Il & Ix & Iy & Id).
    rewrite Im, Ir, Ic, Ip, Ib, Il, Ix, Iy, Hm, Hr, Hc, Hp, Hb, Hl, Hx, Hy.
    rewrite Hr in Id. rewrite Id, Hd.
    repeat split; ring.
Qed.

(** [X6] The update of a player cell whose radius is at most half the side
    of the map leaves the cell inside the map, its circle touching the
    border at most; a cell whose radius is more than that is put at the
    distance of its radius from the left and the top border. *)
Theorem update_player_inside (target : R * R) (c : Cell) :
  isPlayer c = true ->
  (radius c <= MAP_WIDTH / 2 ->
   radius c <= x (update target c) <= MAP_WIDTH - radius c /\
   radius c <= y (update target c) <= MAP_HEIGHT - radius c) /\
  (MAP_WIDTH / 2 < radius c ->
   x (update target c) = radius c /\ y (update target c) = radius c).
Proof.
  intro Hp. unfold update. rewrite Hp. cbn -[atan2 cos sin clamp].
  unfold MAP_WIDTH, MAP_HEIGHT.
  split; intro Hr.
  - split.
    + match goal with |- _ <= clamp ?v ?a ?b <= _ =>
        destruct (clamp_cases v a b) as (H1 & _ & H2) end.
      destruct H2 as (H2 & _); lra.
    + match goal with |- _ <= clamp ?v ?a ?b <= _ =>
        destruct (clamp_cases v a b) as (H1 & _ & H2) end.
      destruct H2 as (H2 & _); lra.
  - split.
    + match goal with |- clamp ?v ?a ?b = _ =>
        destruct (clamp_cases v a b) as (_ & H & _) end.
      apply H. lra.
    + match goal with |- clamp ?v ?a ?b = _ =>
        destruct (clamp_cases v a b) as (_ & H & _) end.
      apply H. lra.
Qed.

Lemma sqrt_900 : sqrt 900 = 30.
Proof. replace 900 with (30 * 30) by lra. apply sqrt_square. lra. Qed.

(** A big player cell thrown beyond a corner of the map is brought back
    inside. *)
Lemma update_player_inside_witness :
  radius cornered <= x (update (0, 0) cornered) <= MAP_WIDTH - radius cornered /\
  radius cornered <= y (update (0, 0) cornered) <= MAP_HEIGHT - radius cornered.
Proof.
  apply (proj1 (update_player_inside (0, 0) cornered eq_refl)).
  cbn [radius cornered]. rewrite sqrt_900. unfold MAP_WIDTH. lra.
Defined.

(** [X7] The update of a bot moves it by its velocity plus its impulse and
    never brings it back into the map: when the moved circle sticks out of
    the map to the left or to the right the horizontal velocity changes
    sign, whichever way the bot was heading, and otherwise it is kept;
    likewise for the vertical velocity; the size of both is kept. *)
Theorem update_bot_bounces (target : R * R) (c : Cell) :
  isPlayer c = false ->
  let c' := update target c in
  x c' = x c + (vx c + extraVX c) /\
  y c' = y c + (vy c + extraVY c) /\
  (x c' - radius c < 0 \/ x c' + radius c > MAP_WIDTH -> vx c' = - vx c) /\
  (0 <= x c' - radius c /\ x c' + radius c <= MAP_WIDTH -> vx c' = vx c) /\
  (y c' - radius c < 0 \/ y c' + radius c > MAP_HEIGHT -> vy c' = - vy c) /\
  (0 <= y c' - radius c /\ y c' + radius c <= MAP_HEIGHT -> vy c' = vy c) /\
  Rabs (vx c') = Rabs (vx c) /\ Rabs (vy c') = Rabs (vy c).
Proof.
  intros Hp c'. unfold c', update. rewrite Hp.
  cbn -[atan2 cos sin clamp].
  set (x1 := x c + (vx c + extraVX c)).
  set (y1 := y c + (vy c + extraVY c)).
  destruct (ltb_spec (x1 - radius c) 0) as [Hxl | Hxl];
    destruct (ltb_spec MAP_WIDTH (x1 + radius c)) as [Hxr | Hxr];
    unfold gtb;
    rewrite ?(ltb_true _ _ Hxr), ?(ltb_false MAP_WIDTH (x1 + radius c)) by lra;
    cbn [orb]; cbn -[atan2 cos sin clamp];
    destruct (ltb_spec (y1 - radius c) 0) as [Hyl | Hyl];
    destruct (ltb_spec MAP_HEIGHT (y1 + radius c)) as [Hyr | Hyr];
    rewrite ?(ltb_true _ _ Hyr), ?(ltb_false MAP_HEIGHT (y1 + radius c)) by lra;
    cbn [orb]; cbn -[atan2 cos sin clamp];
    repeat split; intros;
    try reflexivity; try lra;
    try (replace (vx c * -1) with (- vx c) by ring; apply Rabs_Ropp);
    try (replace (vy c * -1) with (- vy c) by ring; apply Rabs_Ropp).
Qed.

(** A bot beyond the left wall that heads back to the map is turned away
    from it. *)
Lemma update_bot_bounces_witness :
  x strayBot = -50 /\ vx strayBot = 1 /\
  x (update (0, 0) strayBot) = -50 + (1 + 0) /\
  vx (update (0, 0) strayBot) = - 1.
Proof.
  destruct (update_bot_bounces (0, 0) strayBot eq_refl)
    as (Hx & _ & Hflip & _).
  split; [reflexivity|]. split; [reflexivity|]. split; [exact Hx|].
  apply Hflip. left. rewrite Hx. cbn [x vx extraVX radius strayBot].
  rewrite sqrt_100. lra.
Defined.

(** ** Spawning and initialization *)

Lemma randomColor_within (w : World) :
  0 <= mathRandom w (randomReads w) < 1 ->
  (0 <= fst (randomColor w) < 16777215)%Z.
Proof.
  intro Hr. unfold randomColor. cbn.
  set (v := mathRandom w (randomReads w) * 16777215).
  destruct (archimed v) as [Hup Hlow].
  assert (Hv : 0 <= v < 16777215) by (unfold v; lra).
  split.
  - assert (0 < up v)%Z by (apply lt_IZR; lra). lia.
  - apply lt_IZR. rewrite minus_IZR. lra.
Qed.

(** The random pellet of [spawnFood] and of [initFoods]. *)
Lemma initFood_in_range (w : World) :
  fairRandom w ->
  exists f,
    foods (initFood w) = foods w ++ [f] /\ pelletInRange f /\
    hexagons (initFood w) = hexagons w /\
    aiCells (initFood w) = aiCells w /\
    playerCells (initFood w) = playerCells w /\
    rainbowEffects (initFood w) = rainbowEffects w /\
    gameOver (initFood w) = gameOver w /\
    mathRandom (initFood w) = mathRandom w.
Proof.
  intro Hf. unfold initFood. cbn.
  eexists. split; [reflexivity|]. split; [|repeat split].
  unfold pelletInRange, MAP_WIDTH, MAP_HEIGHT, FOOD_MIN_RADIUS, FOOD_MAX_RADIUS.
  cbn [fx fy fradius fcolor].
  pose proof (Hf (randomReads w)). pose proof (Hf (S (randomReads w))).
  pose proof (Hf (S (S (randomReads w)))) as H2.
  pose proof (Hf (S (S (S (randomReads w))))) as H3.
  repeat split; try lra.
  - apply (randomColor_within
             (set_randomReads (S (S (S (randomReads w)))) w) H3).
  - apply (randomColor_within
             (set_randomReads (S (S (S (randomReads w)))) w) H3).
Qed.

Lemma spawnHexagon_in_range (w : World) :
  fairRandom w ->
  exists h,
    hexagons (spawnHexagon w) = hexagons w ++ [h] /\ hexagonInRange h /\
    foods (spawnHexagon w) = foods w.
Proof.
  intro Hf. unfold spawnHexagon. cbn.
  eexists. split; [reflexivity|]. split; [|reflexivity].
  unfold hexagonInRange, MAP_WIDTH, MAP_HEIGHT.
  cbn [hx hy size massBonus rotation rotationSpeed].
  pose proof (Hf (randomReads w)). pose proof (Hf (S (randomReads w))).
  pose proof (Hf (S (S (randomReads w)))).
  pose proof (Hf (S (S (S (randomReads w))))).
  repeat split; lra.
Qed.

(** [X8] With random draws in [0, 1), [spawnFood] adds exactly one thing:
    when its first draw is below 0.1 a hexagon, which is at least 100 away
    from the border, of a size in [10, 20), bonus the square of its size,
    not yet rotated; and otherwise a pellet, inside the map, of a radius
    in [3, 6). *)
Theorem spawnFood_in_range (w : World) :
  fairRandom w ->
  (mathRandom w (randomReads w) < 0.1 ->
   exists h, hexagons (spawnFood w) = hexagons w ++ [h] /\
             hexagonInRange h /\ foods (spawnFood w) = foods w) /\
  (0.1 <= mathRandom w (randomReads w) ->
   exists f, foods (spawnFood w) = foods w ++ [f] /\
             pelletInRange f /\ hexagons (spawnFood w) = hexagons w).
Proof.
  intro Hf. unfold spawnFood. cbn [random].
  split; intro Hr.
  - rewrite (ltb_true _ _ Hr).
    apply (spawnHexagon_in_range (set_randomReads (S (randomReads w)) w)).
    exact Hf.
  - rewrite (ltb_false _ _ Hr).
    destruct (initFood_in_range (set_randomReads (S (randomReads w)) w) Hf)
      as (f & E & Hp & Hh & _).
    exists f. split; [exact E|]. split; [exact Hp | exact Hh].
Qed.

Lemma fairRandom_arena (fs : list Food) (ais players : list Cell)
      (hs : list RotatingHexagon) :
  fairRandom (arena fs ais players hs).
Proof. intro n. cbn. lra. Qed.

(** With a first draw of 1/2 a pellet is spawned. *)
Lemma spawnFood_in_range_witness :
  exists f, foods (spawnFood world_small) = foods world_small ++ [f] /\
            pelletInRange f /\ hexagons (spawnFood world_small) = [].
Proof.
  apply (proj2 (spawnFood_in_range world_small (fairRandom_arena _ _ _ _))).
  cbn. lra.
Defined.

Lemma Rabs_cos_scaled (a s bound : R) :
  0 <= s < bound -> Rabs (cos a * s) < bound.
Proof.
  intro H. rewrite Rabs_mult, (Rabs_right s) by lra.
  pose proof (COS_bound a) as C.
  assert (Rabs (cos a) <= 1) by (apply Rabs_le; lra).
  pose proof (Rabs_pos (cos a)). nra.
Qed.

Lemma Rabs_sin_scaled (a s bound : R) :
  0 <= s < bound -> Rabs (sin a * s) < bound.
Proof.
  intro H. rewrite Rabs_mult, (Rabs_right s) by lra.
  pose proof (SIN_bound a) as C.
  assert (Rabs (sin a) <= 1) by (apply Rabs_le; lra).
  pose proof (Rabs_pos (sin a)). nra.
Qed.

Lemma botInRange_healthy (t : R) (c : Cell) : botInRange t c -> healthy c.
Proof.
  intros (_ & _ & _ & Hm & _ & _ & _ & _ & Hr).
  assert (0 < radius c) by (destruct (isBoss c); lra).
  unfold healthy. rewrite Hm. split.
  - apply pow_lt. assumption.
  - symmetry. apply sqrt_pow2. lra.
Qed.

(** The bounds of a bot made by either branch of [spawnAICell]. *)
Ltac bot_bounds Hf w :=
  unfold botInRange, MAP_WIDTH, MAP_HEIGHT;
  cbn -[cos sin PI pow];
  repeat match goal with
         | |- context [mathRandom w ?n] =>
           lazymatch goal with
           | _ : 0 <= mathRandom w n < 1 |- _ => fail
           | _ => pose proof (Hf n)
           end
         end;
  repeat split; try reflexivity; try lra; try nra;
  try (apply Rabs_cos_scaled; lra); try (apply Rabs_sin_scaled; lra).

Lemma spawnAICell_bounds (w : World) :
  fairRandom w ->
  exists c,
    aiCells (spawnAICell w) = aiCells w ++ [c] /\
    botInRange (perfNow w (perfReads w)) c /\
    (isBoss c = true <-> mathRandom w (randomReads w) < 0.5) /\
    healthy c.
Proof.
  intro Hf. unfold spawnAICell. cbn [random].
  destruct (ltb_spec (mathRandom w (randomReads w)) 0.5) as [Hr | Hr].
  - cbn -[cos sin PI pow].
    eexists. split; [reflexivity|].
    match goal with |- botInRange ?t ?c /\ _ =>
      assert (B : botInRange t c) by (bot_bounds Hf w) end.
    split; [exact B|]. split; [|exact (botInRange_healthy _ _ B)].
    cbn. split; [intros _; exact Hr | reflexivity].
  - cbn -[cos sin PI pow].
    eexists. split; [reflexivity|].
    match goal with |- botInRange ?t ?c /\ _ =>
      assert (B : botInRange t c) by (bot_bounds Hf w) end.
    split; [exact B|]. split; [|exact (botInRange_healthy _ _ B)].
    cbn. split; [discriminate | intro; lra].
Qed.

(** [X9] With random draws in [0, 1), [spawnAICell] appends exactly one
    bot, stamped with the clock: a boss when the first draw is below 0.5,
    of a radius in [50, 70) and with velocity components below 1 in size,
    and otherwise a bot of a radius in [10, 25) with velocity components
    below 2 in size; either is at least 100 away from the border, has the
    square of its radius as mass and no impulse. *)
Theorem spawnAICell_in_range (w : World) :
  fairRandom w ->
  exists c,
    aiCells (spawnAICell w) = aiCells w ++ [c] /\
    botInRange (perfNow w (perfReads w)) c /\
    (isBoss c = true <-> mathRandom w (randomReads w) < 0.5) /\
    healthy c.
Proof. exact (spawnAICell_bounds w). Qed.

(** With a first draw of 1/2 the bot is no boss. *)
Lemma spawnAICell_in_range_witness :
  exists c,
    aiCells (spawnAICell world_small) = aiCells world_small ++ [c] /\
    isBoss c = false /\ 10 <= radius c < 25 /\ healthy c.
Proof.
  destruct (spawnAICell_in_range world_small (fairRandom_arena _ _ _ _))
    as (c & E & B & Hb & Hh).
  exists c. split; [exact E|].
  assert (Hn : isBoss c = false).
  { destruct (isBoss c); [|reflexivity].
    exfalso. assert (H : 0.5 < 0.5) by (apply Hb; reflexivity). lra. }
  split; [exact Hn|]. split; [|exact Hh].
  destruct B as (_ & _ & _ & _ & _ & _ & _ & _ & Hr).
  rewrite Hn in Hr. tauto.
Defined.

(** What [spawnAICell] and the loop body of [initAICells] leave alone. *)
Lemma spawnAICell_frame (w : World) :
  foods (spawnAICell w) = foods w /\
  hexagons (spawnAICell w) = hexagons w /\
  playerCells (spawnAICell w) = playerCells w /\
  rainbowEffects (spawnAICell w) = rainbowEffects w /\
  gameOver (spawnAICell w) = gameOver w /\
  mathRandom (spawnAICell w) = mathRandom w /\
  perfNow (spawnAICell w) = perfNow w.
Proof.
  unfold spawnAICell. cbn -[cos sin PI pow].
  destruct (_ <? _); cbn -[cos sin PI pow]; repeat split.
Qed.

Lemma initAICell_in_range (w : World) :
  fairRandom w ->
  exists c,
    aiCells (initAICell w) = aiCells w ++ [c] /\
    botInRange (perfNow w (perfReads w)) c /\
    foods (initAICell w) = foods w /\
    hexagons (initAICell w) = hexagons w /\
    playerCells (initAICell w) = playerCells w /\
    rainbowEffects (initAICell w) = rainbowEffects w /\
    gameOver (initAICell w) = gameOver w /\
    mathRandom (initAICell w) = mathRandom w.
Proof.
  intro Hf. unfold initAICell. cbn [random].
  destruct (_ <? _).
  - set (w0 := set_randomReads (S (randomReads w)) w).
    destruct (spawnAICell_bounds w0 Hf) as (c & E & B & _).
    destruct (spawnAICell_frame w0) as (F1 & F2 & F3 & F4 & F5 & F6 & _).
    exists c. rewrite E, F1, F2, F3, F4, F5, F6.
    split; [reflexivity|]. split; [exact B|]. repeat split.
  - cbn -[cos sin PI pow].
    eexists. split; [reflexivity|].
    split; [|repeat split].
    bot_bounds Hf w.
Qed.

Lemma fairRandom_same (w w' : World) :
  mathRandom w' = mathRandom w -> fairRandom w -> fairRandom w'.
Proof. intros E H n. rewrite E. apply H. Qed.

(** A loop that appends one thing per iteration. *)
Lemma iter_appends {A : Type} (get : World -> list A) (step : World -> World)
      (P : A -> Prop) (I : World -> Prop) :
  (forall w, I w -> exists a, get (step w) = get w ++ [a] /\ P a /\ I (step w)) ->
  forall n w, I w ->
    exists l, get (Nat.iter n step w) = get w ++ l /\ length l = n /\
              Forall P l /\ I (Nat.iter n step w).
Proof.
  intros Hstep n w Hw. induction n as [|n (l & E & L & F & Hi)].
  - exists []. cbn. rewrite app_nil_r. repeat split; [constructor | exact Hw].
  - rewrite Nat.iter_succ. destruct (Hstep _ Hi) as (a & Ea & Pa & Ia).
    exists (l ++ [a]). rewrite Ea, E, <- app_assoc, length_app, L. cbn.
    repeat split; [lia | | exact Ia].
    apply Forall_app. split; [exact F | constructor; [exact Pa | constructor]].
Qed.

(** [X10] With random draws in [0, 1), [startGame] takes the game-over flag
    down and leaves exactly 1000 pellets, all inside the map and of a
    radius in [3, 6), exactly 40 bots, all as [spawnAICell] makes them, and
    one player cell of radius 20 and mass 400 in the middle of the map; it
    does not clear the hexagons and the effects of the game before. *)
Theorem startGame_fresh (w : World) :
  fairRandom w ->
  let w' := startGame w in
  gameOver w' = false /\
  length (foods w') = FOOD_COUNT /\ Forall pelletInRange (foods w') /\
  length (aiCells w') = AI_COUNT /\
  Forall (fun c => exists t, botInRange t c) (aiCells w') /\
  (exists cell, playerCells w' = [cell] /\
                x cell = MAP_WIDTH / 2 /\ y cell = MAP_HEIGHT / 2 /\
                radius cell = 20 /\ mass cell = 400 /\
                isPlayer cell = true /\ isBoss cell = false) /\
  hexagons w' = hexagons w /\ rainbowEffects w' = rainbowEffects w.
Proof.
  intros Hf w'. unfold w', startGame, initAICells, initFoods.
  set (w1 := set_foods [] (set_gameOver false w)).
  set (I1 := fun v => fairRandom v /\ hexagons v = hexagons w /\
                      rainbowEffects v = rainbowEffects w /\
                      gameOver v = false).
  assert (S1 : forall v, I1 v ->
                 exists f, foods (initFood v) = foods v ++ [f] /\
                           pelletInRange f /\ I1 (initFood v)).
  { intros v Hv0. unfold I1 in Hv0 |- *. cbv beta in Hv0 |- *.
    destruct Hv0 as (Hv & H1 & H2 & H3).
    destruct (initFood_in_range v Hv) as (f & E & Pf & F1 & _ & _ & F4 & F5 & F6).
    exists f. split; [exact E|]. split; [exact Pf|].
    rewrite F1, F4, F5.
    split; [exact (fairRandom_same _ _ F6 Hv)|]. repeat split; assumption. }
  assert (B1 : I1 w1) by (unfold I1; split; [exact Hf | repeat split]).
  destruct (iter_appends foods initFood pelletInRange I1 S1 FOOD_COUNT w1 B1)
    as (fs & Ef & Lf & Ff & (Hf2 & Hh2 & Hr2 & Hg2)).
  change (foods w1) with (@nil Food) in Ef. cbn [app] in Ef.
  generalize dependent (Nat.iter FOOD_COUNT initFood w1).
  intros w2 Ef Hf2 Hh2 Hr2 Hg2.
  set (I2 := fun v => fairRandom v /\ hexagons v = hexagons w /\
                      rainbowEffects v = rainbowEffects w /\
                      gameOver v = false /\ foods v = fs).
  assert (S2 : forall v, I2 v ->
                 exists c, aiCells (initAICell v) = aiCells v ++ [c] /\
                           (exists t, botInRange t c) /\ I2 (initAICell v)).
  { intros v Hv0. unfold I2 in Hv0 |- *. cbv beta in Hv0 |- *.
    destruct Hv0 as (Hv & H1 & H2 & H3 & H4).
    destruct (initAICell_in_range v Hv)
      as (c & E & Bc & F1 & F2 & _ & F4 & F5 & F6).
    exists c. split; [exact E|]. split; [eexists; exact Bc|].
    rewrite F1, F2, F4, F5.
    split; [exact (fairRandom_same _ _ F6 Hv)|]. repeat split; assumption. }
  assert (B2 : I2 (set_aiCells [] w2)).
  { unfold I2. split; [exact Hf2|]. split; [exact Hh2|]. split; [exact Hr2|].
    split; [exact Hg2 | exact Ef]. }
  destruct (iter_appends aiCells initAICell _ I2 S2 AI_COUNT _ B2)
    as (bs & Eb & Lb & Fb & (Hf3 & Hh3 & Hr3 & Hg3 & Hfo3)).
  change (aiCells (set_aiCells [] w2)) with (@nil Cell) in Eb.
  cbn [app] in Eb.
  generalize dependent (Nat.iter AI_COUNT initAICell (set_aiCells [] w2)).
  intros w3 Eb Hf3 Hh3 Hr3 Hg3 Hfo3.
  unfold initPlayer, newCell, performanceNow.
  cbn [fst snd playerCells set_playerCells set_perfReads foods aiCells
       hexagons rainbowEffects gameOver app].
  rewrite Hg3, Hfo3, Eb, Hh3, Hr3.
  split; [reflexivity|]. split; [exact Lf|]. split; [exact Ff|].
  split; [exact Lb|]. split; [exact Fb|]. split; [|split; reflexivity].
  eexists. split; [reflexivity|].
  cbn [x y radius mass isPlayer isBoss]. unfold MAP_WIDTH, MAP_HEIGHT.
  repeat split; lra.
Qed.

(** A new game in a world that holds a hexagon of the game before. *)
Lemma startGame_fresh_witness :
  length (foods (startGame world_order)) = FOOD_COUNT /\
  length (aiCells (startGame world_order)) = AI_COUNT /\
  length (playerCells (startGame world_order)) = 1%nat /\
  hexagons (startGame world_order) = [hexagon10].
Proof.
  destruct (startGame_fresh world_order (fairRandom_arena _ _ _ _))
    as (_ & Hf & _ & Ha & _ & (cell & Hp & _) & Hh & _).
  split; [exact Hf|]. split; [exact Ha|]. split; [|exact Hh].
  rewrite Hp. reflexivity.
Defined.

(** ** Hexagons and effects, frame after frame *)

Lemma updateAt_app_l {A : Type} (f : A -> A) (l t : list A) (i : nat) :
  (i < length l)%nat -> updateAt i f (l ++ t) = updateAt i f l ++ t.
Proof.
  revert i. induction l as [|h l IH]; intros [|i] H; cbn in *; try lia.
  - reflexivity.
  - f_equal. apply IH. lia.
Qed.

Lemma removeAt_app_l {A : Type} (l t : list A) (i : nat) :
  (i < length l)%nat -> removeAt i (l ++ t) = removeAt i l ++ t.
Proof.
  revert i. induction l as [|h l IH]; intros [|i] H; cbn in *; try lia.
  - reflexivity.
  - f_equal. apply IH. lia.
Qed.

Lemma updateAt_last {A : Type} (f : A -> A) (l : list A) (e : A) :
  updateAt (length l) f (l ++ [e]) = l ++ [f e].
Proof. induction l as [|h l IH]; cbn; [reflexivity | f_equal; exact IH]. Qed.

Lemma removeAt_last {A : Type} (l : list A) (e : A) :
  removeAt (length l) (l ++ [e]) = l.
Proof. induction l as [|h l IH]; cbn; [reflexivity | f_equal; exact IH]. Qed.

Lemma leb_alive (e : RainbowEffect) : (lifetime e <=? 0) = negb (alive e).
Proof.
  unfold leb, alive. destruct (Rle_dec (lifetime e) 0) as [H | H].
  - rewrite ltb_false by exact H. reflexivity.
  - rewrite ltb_true by lra. reflexivity.
Qed.

(** The loop does not look beyond the index it starts from. *)
Lemma expireEffects_app (i : nat) (l t : list RainbowEffect) :
  (i <= length l)%nat -> expireEffects i (l ++ t) = expireEffects i l ++ t.
Proof.
  revert l. induction i as [|i IH]; intros l H; cbn [expireEffects].
  - reflexivity.
  - rewrite updateAt_app_l by lia.
    assert (Hl : (i < length (updateAt i (effectUpdate 16) l))%nat)
      by (rewrite updateAt_length; lia).
    rewrite nth_error_app1 by exact Hl.
    destruct (nth_error (updateAt i (effectUpdate 16) l) i) as [e|] eqn:E.
    + destruct (lifetime e <=? 0).
      * rewrite removeAt_app_l by exact Hl. apply IH.
        pose proof (removeAt_length _ _ _ E). lia.
      * apply IH. lia.
    + apply IH. lia.
Qed.

(** The loop with its removals in place comes to ageing every effect and
    keeping those that are still alive. *)
Lemma expireEffects_filter (l : list RainbowEffect) :
  expireEffects (length l) l = filter alive (map (effectUpdate 16) l).
Proof.
  induction l as [|e l IH] using rev_ind; [reflexivity|].
  rewrite length_app, Nat.add_comm. cbn [length Nat.add expireEffects].
  rewrite updateAt_last, nth_error_snoc_last, leb_alive.
  rewrite map_app, filter_app. cbn [map filter].
  destruct (alive (effectUpdate 16 e)); cbn [negb].
  - rewrite expireEffects_app by lia. rewrite IH. reflexivity.
  - rewrite removeAt_last, app_nil_r. exact IH.
Qed.

Lemma updateExtras_effects (w : World) :
  rainbowEffects (updateExtras w)
  = filter alive (map (effectUpdate 16) (rainbowEffects w)) /\
  hexagons (updateExtras w) = map hexagonUpdate (hexagons w).
Proof.
  unfold updateExtras. cbn. split; [apply expireEffects_filter | reflexivity].
Qed.

Lemma effectUpdate_twice (d1 d2 : R) (e : RainbowEffect) :
  effectUpdate d2 (effectUpdate d1 e) = effectUpdate (d1 + d2) e.
Proof. unfold effectUpdate. cbn. f_equal. ring. Qed.

(** An effect that is dead stays dead as it ages. *)
Lemma filter_alive_aged (d1 d2 : R) (l : list RainbowEffect) :
  0 <= d2 ->
  filter alive (map (effectUpdate d2) (filter alive (map (effectUpdate d1) l)))
  = filter alive (map (effectUpdate (d1 + d2)) l).
Proof.
  intro Hd. induction l as [|e l IH]; [reflexivity|].
  cbn [map filter].
  destruct (alive (effectUpdate d1 e)) eqn:E1.
  - cbn [map filter]. rewrite effectUpdate_twice, IH. reflexivity.
  - rewrite IH.
    replace (alive (effectUpdate (d1 + d2) e)) with false; [reflexivity|].
    symmetry. unfold alive in *. cbn [lifetime effectUpdate] in *.
    apply ltb_false.
    destruct (ltb_spec 0 (lifetime e - d1)); [discriminate | lra].
Qed.

(** [X11] After [n + 1] calls of [updateExtras] the effects shown are the
    effects of the start whose lifetime exceeds [16 (n + 1)], in their
    order and with that much less to live, so that every effect shown has
    a positive lifetime; and every hexagon has turned by [n + 1] times its
    rotation speed.  The loop that splices dead effects out while it runs
    down the array skips none. *)
Theorem updateExtras_frames (n : nat) (w : World) :
  let w' := Nat.iter (S n) updateExtras w in
  rainbowEffects w'
  = filter alive (map (effectUpdate (16 * INR (S n))) (rainbowEffects w)) /\
  Forall (fun e => 0 < lifetime e) (rainbowEffects w') /\
  hexagons w' = map (rotated (S n)) (hexagons w).
Proof.
  cbv zeta.
  assert (H : rainbowEffects (Nat.iter (S n) updateExtras w)
              = filter alive (map (effectUpdate (16 * INR (S n)))
                                  (rainbowEffects w)) /\
              hexagons (Nat.iter (S n) updateExtras w)
              = map (rotated (S n)) (hexagons w)).
  { induction n as [|n [IHe IHh]].
    - cbn [Nat.iter nat_rect]. destruct (updateExtras_effects w) as [-> ->].
      split.
      + replace (16 * INR 1) with 16 by (cbn; lra). reflexivity.
      + apply map_ext. intro h. unfold hexagonUpdate, rotated. f_equal.
        cbn. lra.
    - rewrite Nat.iter_succ.
      destruct (updateExtras_effects (Nat.iter (S n) updateExtras w))
        as [-> ->].
      rewrite IHe, IHh. split.
      + rewrite filter_alive_aged by lra.
        replace (16 * INR (S (S n))) with (16 * INR (S n) + 16)
          by (rewrite (S_INR (S n)); ring).
        reflexivity.
      + rewrite map_map. apply map_ext. intro h.
        unfold hexagonUpdate, rotated. cbn [hx hy size rotation rotationSpeed
          massBonus]. f_equal. rewrite (S_INR (S n)). ring. }
  destruct H as [He Hh]. split; [exact He|]. split; [|exact Hh].
  rewrite He. apply Forall_forall. intros e Hin.
  apply filter_In in Hin. destruct Hin as [_ Ha].
  unfold alive in Ha. apply ltb_true_iff in Ha. exact Ha.
Qed.

(** ** Sums over cells *)

Lemma totalMass_cons (c : Cell) (l : list Cell) :
  totalMass (c :: l) = mass c + totalMass l.
Proof. reflexivity. Qed.

Lemma momentX_cons (c : Cell) (l : list Cell) :
  momentX (c :: l) = x c * mass c + momentX l.
Proof. reflexivity. Qed.

Lemma momentY_cons (c : Cell) (l : list Cell) :
  momentY (c :: l) = y c * mass c + momentY l.
Proof. reflexivity. Qed.

Lemma totalMass_app (l1 l2 : list Cell) :
  totalMass (l1 ++ l2) = totalMass l1 + totalMass l2.
Proof.
  induction l1 as [|c l IH]; cbn [app].
  - change (totalMass []) with 0. lra.
  - rewrite !totalMass_cons, IH. lra.
Qed.

Lemma momentX_app (l1 l2 : list Cell) :
  momentX (l1 ++ l2) = momentX l1 + momentX l2.
Proof.
  induction l1 as [|c l IH]; cbn [app].
  - change (momentX []) with 0. lra.
  - rewrite !momentX_cons, IH. lra.
Qed.

Lemma momentY_app (l1 l2 : list Cell) :
  momentY (l1 ++ l2) = momentY l1 + momentY l2.
Proof.
  induction l1 as [|c l IH]; cbn [app].
  - change (momentY []) with 0. lra.
  - rewrite !momentY_cons, IH. lra.
Qed.

Lemma totalMass_updateAt (f : Cell -> Cell) (l : list Cell) (i : nat) (c : Cell) :
  nth_error l i = Some c ->
  totalMass (updateAt i f l) = totalMass l - mass c + mass (f c).
Proof.
  revert i. induction l as [|h t IH]; intros [|i]; cbn [nth_error updateAt];
    try discriminate.
  - intros [= ->]. rewrite !totalMass_cons. lra.
  - intro H. rewrite !totalMass_cons, (IH i H). lra.
Qed.

Lemma totalMass_removeAt (l : list Cell) (i : nat) (c : Cell) :
  nth_error l i = Some c ->
  totalMass (removeAt i l) = totalMass l - mass c.
Proof.
  revert i. induction l as [|h t IH]; intros [|i]; cbn [nth_error removeAt];
    try discriminate.
  - intros [= ->]. rewrite totalMass_cons. lra.
  - intro H. rewrite !totalMass_cons, (IH i H). lra.
Qed.

Lemma totalMass_perm (l1 l2 : list Cell) :
  Permutation l1 l2 -> totalMass l1 = totalMass l2.
Proof. induction 1; rewrite ?totalMass_cons; lra. Qed.

Lemma momentX_perm (l1 l2 : list Cell) :
  Permutation l1 l2 -> momentX l1 = momentX l2.
Proof. induction 1; rewrite ?momentX_cons; lra. Qed.

Lemma momentY_perm (l1 l2 : list Cell) :
  Permutation l1 l2 -> momentY l1 = momentY l2.
Proof. induction 1; rewrite ?momentY_cons; lra. Qed.

Lemma removeAt_perm {A : Type} (l : list A) (i : nat) (a : A) :
  nth_error l i = Some a -> Permutation l (a :: removeAt i l).
Proof.
  revert i. induction l as [|h t IH]; intros [|i]; cbn; try discriminate.
  - intros [= ->]. reflexivity.
  - intro H. rewrite (IH i H) at 1. apply perm_swap.
Qed.

(** ** What the merge pass conserves *)

Lemma totalMass_positive (l : list Cell) :
  Forall (fun c => 0 < mass c) l -> 0 <= totalMass l.
Proof.
  induction 1; [change (totalMass []) with 0 | rewrite totalMass_cons]; lra.
Qed.

(** The cell left of a group has the mass and the moments of the group. *)
Lemma survivor_sums (now : R) (absorbed : list Cell) (c : Cell) :
  0 < mass c -> Forall (fun a => 0 < mass a) absorbed ->
  mass (survivor now (c, absorbed)) = totalMass (c :: absorbed) /\
  x (survivor now (c, absorbed)) * mass (survivor now (c, absorbed))
  = momentX (c :: absorbed) /\
  y (survivor now (c, absorbed)) * mass (survivor now (c, absorbed))
  = momentY (c :: absorbed).
Proof.
  unfold survivor. cbn [fst snd]. intros Hc Ha. revert c Hc.
  induction Ha as [|b t Hb Ht IH]; intros c Hc; cbn [fold_left].
  - rewrite totalMass_cons, momentX_cons, momentY_cons.
    change (totalMass []) with 0. change (momentX []) with 0.
    change (momentY []) with 0. repeat split; lra.
  - assert (Em : mass (mergeInto now c b) = mass c + mass b) by reflexivity.
    assert (Ex : x (mergeInto now c b) * mass (mergeInto now c b)
                 = x c * mass c + x b * mass b).
    { unfold mergeInto. cbn. field. lra. }
    assert (Ey : y (mergeInto now c b) * mass (mergeInto now c b)
                 = y c * mass c + y b * mass b).
    { unfold mergeInto. cbn. field. lra. }
    assert (Hm : 0 < mass (mergeInto now c b)) by (rewrite Em; lra).
    destruct (IH _ Hm) as (Im & Ix & Iy). rewrite Ix, Iy, Im.
    rewrite !totalMass_cons, !momentX_cons, !momentY_cons, Ex, Ey, Em.
    repeat split; lra.
Qed.

Lemma groups_sums (now : R) (groups : list (Cell * list Cell)) :
  Forall (fun c => 0 < mass c) (flat_map members groups) ->
  totalMass (map (survivor now) groups) = totalMass (flat_map members groups) /\
  momentX (map (survivor now) groups) = momentX (flat_map members groups) /\
  momentY (map (survivor now) groups) = momentY (flat_map members groups) /\
  Forall (fun c => 0 < mass c) (map (survivor now) groups).
Proof.
  induction groups as [|[c abs] gs IH]; intro H.
  - cbn. repeat split; constructor.
  - cbn [flat_map members fst snd app] in H.
    apply Forall_cons_iff in H. destruct H as [Hc H].
    apply Forall_app in H. destruct H as [Ha Hg].
    destruct (IH Hg) as (Im & Ix & Iy & Ip).
    destruct (survivor_sums now abs c Hc Ha) as (Sm & Sx & Sy).
    cbn [map flat_map members fst snd].
    rewrite totalMass_app, momentX_app, momentY_app.
    rewrite (totalMass_cons (survivor now (c, abs))),
            (momentX_cons (survivor now (c, abs))),
            (momentY_cons (survivor now (c, abs))).
    rewrite Im, Ix, Iy, Sx, Sy, Sm.
    split; [reflexivity|]. split; [reflexivity|]. split; [reflexivity|].
    constructor; [|exact Ip].
    rewrite Sm, totalMass_cons. pose proof (totalMass_positive _ Ha). lra.
Qed.

(** [X12] The merge pass conserves the total mass of the player cells and,
    the masses being positive, their centre of mass: the sums of mass,
    of mass times x and of mass times y over the player cells are the same
    before and after the pass.  It never adds a cell, never leaves none
    where there was one, and leaves positive masses positive. *)
Theorem merge_conserves (w : World) :
  Forall (fun c => 0 < mass c) (playerCells w) ->
  let w' := mergePlayerCells w in
  totalMass (playerCells w') = totalMass (playerCells w) /\
  momentX (playerCells w') = momentX (playerCells w) /\
  momentY (playerCells w') = momentY (playerCells w) /\
  (length (playerCells w') <= length (playerCells w))%nat /\
  (playerCells w' = [] -> playerCells w = []) /\
  Forall (fun c => 0 < mass c) (playerCells w').
Proof.
  intros Hpos w'. unfold w', mergePlayerCells, performanceNow.
  cbn [playerCells set_playerCells set_perfReads].
  destruct (mergeOuter_groups (perfNow w (perfReads w))
              (length (playerCells w)) (playerCells w))
    as (groups & E & P); [lia|].
  rewrite E.
  assert (Hg : Forall (fun c => 0 < mass c) (flat_map members groups)).
  { apply Forall_forall. intros c Hin. rewrite Forall_forall in Hpos.
    apply Hpos. eapply Permutation_in; [symmetry; exact P | exact Hin]. }
  destruct (groups_sums (perfNow w (perfReads w)) groups Hg)
    as (Sm & Sx & Sy & Sp).
  rewrite Sm, Sx, Sy.
  rewrite (totalMass_perm _ _ P), (momentX_perm _ _ P), (momentY_perm _ _ P).
  repeat split; try exact Sp.
  - rewrite length_map, (Permutation_length P).
    clear. induction groups as [|[c abs] gs IH]; cbn; [lia|].
    rewrite length_app. lia.
  - intro Hnil. destruct groups as [|g gs]; [|discriminate].
    cbn in P. apply Permutation_nil. symmetry. exact P.
Qed.

(** The two cells of masses 50 and 70 merge into one of mass 120 whose
    position times mass is the sum of theirs. *)
Lemma merge_conserves_witness :
  totalMass (playerCells (mergePlayerCells world_merge)) = 50 + (70 + 0) /\
  momentX (playerCells (mergePlayerCells world_merge))
  = 0 * 50 + (3 * 70 + 0) /\
  momentY (playerCells (mergePlayerCells world_merge))
  = 0 * 50 + (4 * 70 + 0).
Proof.
  destruct (merge_conserves world_merge) as (Hm & Hx & Hy & _).
  - repeat constructor; cbn; lra.
  - split; [exact Hm|]. split; [exact Hx | exact Hy].
Defined.

(** ** After the merge pass *)

Lemma canMerge_stamped_l (now : R) (a b : Cell) :
  lastSplitTime a = now -> canMerge now a b = false.
Proof.
  intro H. unfold canMerge. rewrite H.
  replace (now - now >? MERGE_DELAY) with false
    by (symmetry; apply gtb_false; unfold MERGE_DELAY; lra).
  destruct (checkCollision a b); reflexivity.
Qed.

Lemma canMerge_stamped_r (now : R) (a b : Cell) :
  lastSplitTime b = now -> canMerge now a b = false.
Proof.
  intro H. unfold canMerge. rewrite H.
  replace (now - now >? MERGE_DELAY) with false
    by (symmetry; apply gtb_false; unfold MERGE_DELAY; lra).
  destruct (checkCollision a b); destruct (_ >? _); reflexivity.
Qed.

Lemma mergeInner_post (now : R) (rest : list Cell) (cellA : Cell) :
  Forall (fun c => canMerge now (fst (mergeInner now cellA rest)) c = false)
         (snd (mergeInner now cellA rest)) /\
  (fst (mergeInner now cellA rest) = cellA \/
   lastSplitTime (fst (mergeInner now cellA rest)) = now) /\
  incl (snd (mergeInner now cellA rest)) rest.
Proof.
  revert cellA. induction rest as [|b t IH]; intro a; cbn [mergeInner].
  - cbn. split; [constructor|]. split; [left; reflexivity | apply incl_refl].
  - destruct (canMerge now a b) eqn:Hab.
    + destruct (IH (mergeInto now a b)) as (F & D & I).
      split; [exact F|]. split.
      * right. destruct D as [-> | D]; [reflexivity | exact D].
      * apply incl_tl. exact I.
    + destruct (IH a) as (F & D & I).
      destruct (mergeInner now a t) as [a' t']. cbn [fst snd] in *.
      split; [|split; [exact D|]].
      * constructor; [|exact F].
        destruct D as [-> | D]; [exact Hab | apply canMerge_stamped_l; exact D].
      * intros c [<- | Hc]; [left; reflexivity | right; apply I; exact Hc].
Qed.

Lemma mergeOuter_post (now : R) (fuel : nat) (cells : list Cell) :
  (length cells <= fuel)%nat ->
  ForallOrdPairs (fun a b => canMerge now a b = false)
                 (mergeOuter fuel now cells) /\
  Forall (fun c => In c cells \/ lastSplitTime c = now)
         (mergeOuter fuel now cells).
Proof.
  revert cells. induction fuel as [|f IH]; intros cells Hlen.
  - destruct cells; [|cbn in Hlen; lia]. cbn. split; constructor.
  - destruct cells as [|a rest]; cbn [mergeOuter]; [split; constructor|].
    destruct (mergeInner_post now rest a) as (F & D & I).
    pose proof (mergeInner_length now rest a) as L.
    destruct (mergeInner now a rest) as [a' rest']. cbn [fst snd] in *.
    destruct (IH rest') as (P & Q); [cbn in Hlen; lia|].
    rewrite Forall_forall in F, Q. split.
    + constructor; [|exact P]. apply Forall_forall. intros c Hc.
      destruct (Q c Hc) as [Hin | Hs];
        [apply F; exact Hin | apply canMerge_stamped_r; exact Hs].
    + constructor.
      * destruct D as [-> | D]; [left; left; reflexivity | right; exact D].
      * apply Forall_forall. intros c Hc.
        destruct (Q c Hc) as [Hin | Hs];
          [left; right; apply I; exact Hin | right; exact Hs].
Qed.

(** Cells of which no two can merge are left alone by the pass. *)
Lemma mergeInner_idle (now : R) (rest : list Cell) (cellA : Cell) :
  Forall (fun c => canMerge now cellA c = false) rest ->
  mergeInner now cellA rest = (cellA, rest).
Proof.
  induction 1 as [|b t Hb _ IH]; cbn [mergeInner]; [reflexivity|].
  rewrite Hb, IH. reflexivity.
Qed.

Lemma mergeOuter_idle (now : R) (fuel : nat) (cells : list Cell) :
  ForallOrdPairs (fun a b => canMerge now a b = false) cells ->
  mergeOuter fuel now cells = cells.
Proof.
  intro H. revert fuel. induction H as [|a l Ha _ IH]; intros [|f]; cbn [mergeOuter];
    try reflexivity.
  rewrite (mergeInner_idle now l a Ha), IH. reflexivity.
Qed.

(** [X13] After the merge pass no two player cells satisfy the condition of
    a merge at the time of the pass, although a cell that has grown may
    overlap cells it did not overlap before: a cell that has merged is
    stamped with that time and has to wait again.  A pass over the cells
    left, at the same time, changes nothing. *)
Theorem merge_leaves_no_pair (w : World) :
  let now := perfNow w (perfReads w) in
  let cells := playerCells (mergePlayerCells w) in
  ForallOrdPairs (fun a b => canMerge now a b = false) cells /\
  mergeOuter (length cells) now cells = cells.
Proof.
  cbv zeta. unfold mergePlayerCells. cbn.
  destruct (mergeOuter_post (perfNow w (perfReads w))
              (length (playerCells w)) (playerCells w)) as (P & _); [lia|].
  split; [exact P | apply mergeOuter_idle; exact P].
Qed.

(** ** The split of the player *)

Lemma Forall_updateAt {A : Type} (P : A -> Prop) (f : A -> A) (l : list A)
      (i : nat) :
  Forall P l -> (forall a, nth_error l i = Some a -> P (f a)) ->
  Forall P (updateAt i f l).
Proof.
  intro H. revert i. induction H as [|h t Hh Ht IH]; intros [|i] Hf;
    cbn [updateAt]; constructor; try assumption.
  - apply Hf. reflexivity.
  - apply IH. intros a Ha. apply Hf. exact Ha.
Qed.

Lemma splitPlayerCell_effect (i : nat) (w : World) :
  foods (splitPlayerCell i w) = foods w /\
  aiCells (splitPlayerCell i w) = aiCells w /\
  hexagons (splitPlayerCell i w) = hexagons w /\
  gameOver (splitPlayerCell i w) = gameOver w /\
  totalMass (playerCells (splitPlayerCell i w)) = totalMass (playerCells w) /\
  (length (playerCells w) <= length (playerCells (splitPlayerCell i w))
   <= S (length (playerCells w)))%nat /\
  (Forall healthy (playerCells w) ->
   Forall healthy (playerCells (splitPlayerCell i w))).
Proof.
  destruct (nth_error (playerCells w) i) as [cell|] eqn:Hi.
  - destruct (Rlt_dec (mass cell) 80) as [Hlt | Hge].
    + rewrite (splitPlayerCell_rejected i w cell Hi Hlt).
      repeat split; try lia. exact (fun H => H).
    + destruct (splitPlayerCell_accepted i w cell Hi)
        as (p & c & E & Mp & Mc & Rp & Rc & _ & _ & _ & _ & Ha); [lra|].
      assert (F : foods (splitPlayerCell i w) = foods w /\
                  hexagons (splitPlayerCell i w) = hexagons w /\
                  gameOver (splitPlayerCell i w) = gameOver w).
      { unfold splitPlayerCell. rewrite Hi. destruct (_ <? _); [repeat split|].
        cbn -[atan2 updateAt cos sin sqrt playerTarget].
        destruct (playerTarget _). repeat split. }
      destruct F as (F1 & F2 & F3). rewrite E.
      split; [exact F1|]. split; [exact Ha|]. split; [exact F2|].
      split; [exact F3|]. split; [|split].
      * rewrite totalMass_app, (totalMass_updateAt _ _ _ _ Hi), Mp. cbn.
        rewrite Mc. lra.
      * rewrite length_app, updateAt_length. cbn. lia.
      * intro H. apply Forall_app. split.
        -- apply Forall_updateAt; [exact H|]. intros _ _.
           split; [lra|]. rewrite Rp, Mp. reflexivity.
        -- constructor; [|constructor]. split; [lra|]. rewrite Rc, Mc.
           reflexivity.
  - unfold splitPlayerCell. rewrite Hi. repeat split; try lia.
    exact (fun H => H).
Qed.

Lemma splitLoop_effect (n i : nat) (w : World) :
  foods (splitLoop n i w) = foods w /\
  aiCells (splitLoop n i w) = aiCells w /\
  hexagons (splitLoop n i w) = hexagons w /\
  gameOver (splitLoop n i w) = gameOver w /\
  totalMass (playerCells (splitLoop n i w)) = totalMass (playerCells w) /\
  (length (playerCells w) <= length (playerCells (splitLoop n i w))
   <= length (playerCells w) + n)%nat /\
  ((length (playerCells w) <= MAX_CELLS)%nat ->
   (length (playerCells (splitLoop n i w)) <= MAX_CELLS)%nat) /\
  (Forall healthy (playerCells w) ->
   Forall healthy (playerCells (splitLoop n i w))).
Proof.
  revert i w. induction n as [|n IH]; intros i w; cbn [splitLoop].
  - repeat split; try lia; exact (fun H => H).
  - destruct (Nat.leb_spec MAX_CELLS (length (playerCells w))) as [Hmax | Hmax].
    + repeat split; try lia; exact (fun H => H).
    + destruct (splitPlayerCell_effect i w)
        as (F1 & F2 & F3 & F4 & M & L & H).
      destruct (IH (S i) (splitPlayerCell i w))
        as (G1 & G2 & G3 & G4 & M' & L' & C' & H').
      split; [congruence|]. split; [congruence|]. split; [congruence|].
      split; [congruence|]. split; [lra|]. split; [lia|].
      split; [intros _; apply C'; lia | intro Hh; apply H', H, Hh].
Qed.

(** [X14] A split request of the player conserves the total mass of the
    player cells, removes none of them, at most doubles their number and
    does not take it beyond 16 when it was not beyond; it leaves cells
    with positive mass and [radius = sqrt(mass)] so, and does not touch the
    bots, the pellets, the hexagons and the game-over flag. *)
Theorem splitPlayerCells_pass (w : World) :
  let w' := splitPlayerCells w in
  totalMass (playerCells w') = totalMass (playerCells w) /\
  (length (playerCells w) <= length (playerCells w')
   <= 2 * length (playerCells w))%nat /\
  ((length (playerCells w) <= MAX_CELLS)%nat ->
   (length (playerCells w') <= MAX_CELLS)%nat) /\
  (Forall healthy (playerCells w) -> Forall healthy (playerCells w')) /\
  foods w' = foods w /\ aiCells w' = aiCells w /\
  hexagons w' = hexagons w /\ gameOver w' = gameOver w.
Proof.
  cbv zeta. unfold splitPlayerCells.
  destruct (splitLoop_effect (length (playerCells w)) 0 w)
    as (F1 & F2 & F3 & F4 & M & L & C & H).
  repeat split; try assumption; lia.
Qed.

(** ** Invariants of a tick *)

(** The tick of a bot ends in one of four worlds. *)
Lemma updateBot_shape (now : R) (k : nat) (w w' : World) :
  updateBot now k w = Ok w' ->
  exists w0, (w0 = w \/ w0 = splitBot k 20 w) /\
             (w' = w0 \/ exists ux uy, w' = withVelocity k ux uy w0).
Proof.
  assert (S : forall s v, steer k s v = Ok w' ->
                w' = v \/ exists ux uy, w' = withVelocity k ux uy v).
  { intros s v H. destruct (Nat.eq_dec (count s) 0) as [E | N].
    - rewrite (steer_no_contribution k s v E) in H. injection H as <-.
      left. reflexivity.
    - destruct (steer_direction k s v) as (ux & uy & E & _); [lia|].
      rewrite E in H. injection H as <-. right. eauto. }
  unfold updateBot. destruct (nth_error (aiCells w) k) as [bot|].
  - destruct (scanOpponents _ _ _ _ _) as [[s | s] | | ?]; cbn [bind];
      try discriminate; intro H.
    + exists w. split; [left; reflexivity | exact (S _ _ H)].
    + exists (splitBot k 20 w). split; [right; reflexivity | exact (S _ _ H)].
  - intros [= <-]. exists w. split; left; reflexivity.
Qed.

Section Invariant.

(** A property of the world that every mutation of a tick keeps is kept
    by the tick, also when a loop is cut short. *)
Variable I : World -> Prop.

Hypothesis I_splitBot :
  forall k w, I w -> I (splitBot k 20 w).
Hypothesis I_withVelocity :
  forall k ux uy w, I w -> I (withVelocity k ux uy w).
Hypothesis I_clock :
  forall w, I w -> I (set_perfReads (S (perfReads w)) w).

Lemma botLoop_invariant (fuel : nat) (now : R) (k : nat) (w : World) :
  I w -> exists w', reached (botLoop fuel now k w) w' /\ I w'.
Proof.
  revert k w. induction fuel as [|f IH]; intros k w Hw; cbn [botLoop].
  - exists w. split; [right; reflexivity | exact Hw].
  - destruct (Nat.ltb k (length (aiCells w)));
      [|exists w; split; [left; reflexivity | exact Hw]].
    destruct (updateBot_ok now k w) as (w1 & E). rewrite E. cbn [bind].
    apply IH. destruct (updateBot_shape now k w w1 E) as (w0 & H0 & H1).
    assert (I w0) by (destruct H0 as [-> | ->]; [|apply I_splitBot]; exact Hw).
    destruct H1 as [-> | (ux & uy & ->)]; [|apply I_withVelocity]; assumption.
Qed.

Lemma updateBotAI_invariant (fuel : nat) (w : World) :
  I w -> exists w', reached (updateBotAI fuel w) w' /\ I w'.
Proof.
  intro Hw. unfold updateBotAI, performanceNow.
  apply botLoop_invariant. apply I_clock. exact Hw.
Qed.

Hypothesis I_eatPellet :
  forall o p i cell f w,
    nth_error (cellsOf o w) p = Some cell -> nth_error (foods w) i = Some f ->
    I w -> I (eatPellet o p i f w).

Lemma eatFoods_invariant (o : Owner) (p i : nat) (w : World) :
  I w -> I (eatFoods o p i w).
Proof.
  revert w. induction i as [|i IH]; intros w Hw; cbn [eatFoods];
    [exact Hw|].
  destruct (nth_error (cellsOf o w) p) as [cell|] eqn:Ep; [|apply IH, Hw].
  destruct (nth_error (foods w) i) as [f|] eqn:Ef; [|apply IH, Hw].
  destruct (_ <? _); [|apply IH, Hw].
  apply IH. exact (I_eatPellet o p i cell f w Ep Ef Hw).
Qed.

Lemma eatFoodPass_invariant (o : Owner) (w : World) :
  I w -> I (eatFoodPass o w).
Proof.
  unfold eatFoodPass. generalize (seq 0 (length (cellsOf o w))) as ps.
  intro ps. revert w. induction ps as [|p ps IH]; intros w Hw;
    cbn [fold_left]; [exact Hw|].
  apply IH, eatFoods_invariant, Hw.
Qed.

Hypothesis I_playerEatsBot :
  forall i j ai cell w,
    nth_error (aiCells w) i = Some ai ->
    nth_error (playerCells w) j = Some cell ->
    I w -> I (playerEatsBot i j ai w).
Hypothesis I_botEatsPlayer :
  forall j cell w,
    nth_error (playerCells w) j = Some cell -> I w -> I (botEatsPlayer j w).

Lemma playerVsAIInner_invariant (i j : nat) (w : World) :
  I w -> I (playerVsAIInner i j w).
Proof.
  revert w. induction j as [|j IH]; intros w Hw; cbn [playerVsAIInner];
    [exact Hw|].
  destruct (nth_error (aiCells w) i) as [ai|] eqn:Ei; [|apply IH, Hw].
  destruct (nth_error (playerCells w) j) as [cell|] eqn:Ej; [|apply IH, Hw].
  destruct (_ <? _); [|apply IH, Hw].
  destruct (_ >? _);
    [exact (I_playerEatsBot i j ai cell w Ei Ej Hw)|].
  destruct (_ >? _); [|apply IH, Hw].
  exact (I_botEatsPlayer j cell w Ej Hw).
Qed.

Lemma playerVsAI_invariant (w : World) : I w -> I (playerVsAI w).
Proof.
  unfold playerVsAI. generalize (length (aiCells w)) as n. intro n.
  revert w. induction n as [|n IH]; intros w Hw; cbn [playerVsAIOuter];
    [exact Hw|].
  apply IH, playerVsAIInner_invariant, Hw.
Qed.

Hypothesis I_botEatsBot :
  forall i j eater eaten w,
    nth_error (aiCells w) i = Some eater ->
    nth_error (aiCells w) j = Some eaten ->
    I w -> I (botEatsBot i j eaten w).

Lemma aiVsAILoop_invariant (fuel i j : nat) (w : World) :
  I w -> exists w', reached (aiVsAILoop fuel i j w) w' /\ I w'.
Proof.
  revert i j w. induction fuel as [|f IH]; intros i j w Hw;
    cbn [aiVsAILoop].
  - exists w. split; [right; reflexivity | exact Hw].
  - destruct (Nat.ltb i (length (aiCells w)));
      [|exists w; split; [left; reflexivity | exact Hw]].
    destruct (Nat.ltb j (length (aiCells w))); [|apply IH, Hw].
    destruct (nth_error (aiCells w) i) as [a|] eqn:Ei; [|apply IH, Hw].
    destruct (nth_error (aiCells w) j) as [b|] eqn:Ej; [|apply IH, Hw].
    destruct (_ <? _); [|apply IH, Hw].
    destruct (_ >? _);
      [apply IH; exact (I_botEatsBot i j a b w Ei Ej Hw)|].
    destruct (_ >? _); [|apply IH, Hw].
    apply IH. exact (I_botEatsBot j i b a w Ej Ei Hw).
Qed.

Hypothesis I_eatHexagon :
  forall p i cell hex w,
    nth_error (playerCells w) p = Some cell ->
    nth_error (hexagons w) i = Some hex ->
    I w -> I (eatHexagon p i hex w).

Lemma eatHexagons_invariant (p i : nat) (w : World) :
  I w -> I (eatHexagons p i w).
Proof.
  revert w. induction i as [|i IH]; intros w Hw; cbn [eatHexagons];
    [exact Hw|].
  destruct (nth_error (playerCells w) p) as [cell|] eqn:Ep; [|apply IH, Hw].
  destruct (nth_error (hexagons w) i) as [hex|] eqn:Eh; [|apply IH, Hw].
  destruct (_ <? _); [|apply IH, Hw].
  apply IH. exact (I_eatHexagon p i cell hex w Ep Eh Hw).
Qed.

Lemma eatHexagonPass_invariant (w : World) : I w -> I (eatHexagonPass w).
Proof.
  unfold eatHexagonPass. generalize (seq 0 (length (playerCells w))) as ps.
  intro ps. revert w. induction ps as [|p ps IH]; intros w Hw;
    cbn [fold_left]; [exact Hw|].
  apply IH, eatHexagons_invariant, Hw.
Qed.

Lemma resolveCollisions_invariant (fuel : nat) (w : World) :
  I w -> exists w', reached (resolveCollisions fuel w) w' /\ I w'.
Proof.
  intro Hw. unfold resolveCollisions, aiVsAI.
  destruct (aiVsAILoop_invariant fuel 0 1
              (playerVsAI (eatFoodPass Agents (eatFoodPass Players w))))
    as (w4 & [E | E] & H4).
  - apply playerVsAI_invariant. do 2 apply eatFoodPass_invariant. exact Hw.
  - rewrite E. cbn [bind]. eexists. split; [left; reflexivity|].
    apply eatHexagonPass_invariant, H4.
  - rewrite E. cbn [bind]. exists w4. split; [right; reflexivity | exact H4].
Qed.

Hypothesis I_moveCells : forall w, I w -> I (moveCells w).
Hypothesis I_merge : forall w, I w -> I (mergePlayerCells w).

Lemma updateGame_invariant (fuel : nat) (w : World) :
  I w -> exists w', reached (updateGame fuel w) w' /\ I w'.
Proof.
  intro Hw. unfold updateGame.
  destruct (gameOver w); [exists w; split; [left; reflexivity | exact Hw]|].
  change (set_aiCells _ _) with (moveCells w).
  destruct (updateBotAI_invariant fuel (moveCells w) (I_moveCells w Hw))
    as (w3 & [E | E] & H3); rewrite E; cbn [bind];
    [|exists w3; split; [right; reflexivity | exact H3]].
  destruct (resolveCollisions_invariant fuel w3 H3)
    as (w4 & [E4 | E4] & H4); rewrite E4; cbn [bind];
    [|exists w4; split; [right; reflexivity | exact H4]].
  eexists. split; [left; reflexivity | apply I_merge, H4].
Qed.

End Invariant.

(** ** What the mutations keep *)

Lemma Forall_removeAt {A : Type} (P : A -> Prop) (l : list A) (i : nat) :
  Forall P l -> Forall P (removeAt i l).
Proof.
  intro H. revert i. induction H as [|h t Hh Ht IH]; intros [|i];
    cbn [removeAt]; try constructor; auto.
Qed.

Lemma Forall_nth_error {A : Type} (P : A -> Prop) (l : list A) (i : nat) (a : A) :
  Forall P l -> nth_error l i = Some a -> P a.
Proof.
  intros H Hi. rewrite Forall_forall in H. apply H.
  eapply nth_error_In. exact Hi.
Qed.

Lemma healthy_grow (amount : R) (c : Cell) :
  0 <= amount -> healthy c -> healthy (grow amount c).
Proof.
  intros Ha [Hm Hr]. unfold healthy, grow. cbn. split; [lra | reflexivity].
Qed.

Lemma healthy_update (target : R * R) (c : Cell) :
  healthy c -> healthy (update target c).
Proof.
  intros [Hm Hr]. destruct (update_frame target c) as (Em & Er & _).
  unfold healthy. rewrite Em, Er. split; assumption.
Qed.

Lemma healthy_mergeInto (now : R) (a b : Cell) :
  healthy a -> healthy b -> healthy (mergeInto now a b).
Proof.
  intros [Ha _] [Hb _]. unfold healthy, mergeInto. cbn.
  split; [lra | reflexivity].
Qed.

Lemma healthy_survivor (now : R) (absorbed : list Cell) (c : Cell) :
  healthy c -> Forall healthy absorbed -> healthy (survivor now (c, absorbed)).
Proof.
  unfold survivor. cbn [fst snd]. intros Hc Ha. revert c Hc.
  induction Ha as [|b t Hb Ht IH]; intros c Hc; cbn [fold_left];
    [exact Hc | apply IH, healthy_mergeInto; assumption].
Qed.

Lemma healthy_groups (now : R) (groups : list (Cell * list Cell)) :
  Forall healthy (flat_map members groups) ->
  Forall healthy (map (survivor now) groups).
Proof.
  induction groups as [|[c abs] gs IH]; intro H; cbn [map]; [constructor|].
  cbn [flat_map members fst snd app] in H.
  apply Forall_cons_iff in H. destruct H as [Hc H].
  apply Forall_app in H. destruct H as [Ha Hg].
  constructor; [apply healthy_survivor; assumption | apply IH, Hg].
Qed.

Lemma mergePlayerCells_frame (w : World) :
  foods (mergePlayerCells w) = foods w /\
  aiCells (mergePlayerCells w) = aiCells w /\
  hexagons (mergePlayerCells w) = hexagons w /\
  rainbowEffects (mergePlayerCells w) = rainbowEffects w /\
  gameOver (mergePlayerCells w) = gameOver w /\
  events (mergePlayerCells w) = events w /\
  mathRandom (mergePlayerCells w) = mathRandom w.
Proof. unfold mergePlayerCells, performanceNow. cbn. repeat split. Qed.

Lemma mergePlayerCells_cells (w : World) :
  exists groups,
    playerCells (mergePlayerCells w)
    = map (survivor (perfNow w (perfReads w))) groups /\
    Permutation (playerCells w) (flat_map members groups).
Proof.
  unfold mergePlayerCells, performanceNow.
  cbn [playerCells set_playerCells set_perfReads].
  apply mergeOuter_groups. lia.
Qed.

Lemma splitBot_frame (k : nat) (impulse : R) (w : World) :
  foods (splitBot k impulse w) = foods w /\
  playerCells (splitBot k impulse w) = playerCells w /\
  hexagons (splitBot k impulse w) = hexagons w /\
  rainbowEffects (splitBot k impulse w) = rainbowEffects w /\
  gameOver (splitBot k impulse w) = gameOver w /\
  events (splitBot k impulse w) = events w /\
  mathRandom (splitBot k impulse w) = mathRandom w.
Proof.
  unfold splitBot. destruct (nth_error (aiCells w) k); [|repeat split].
  destruct (_ <? _); [repeat split|].
  cbn -[atan2 cos sin sqrt updateAt]. repeat split.
Qed.

Lemma splitBot_cells (k : nat) (impulse : R) (w : World) :
  aiCells (splitBot k impulse w) = aiCells w \/
  exists bot parent child,
    nth_error (aiCells w) k = Some bot /\ 40 <= mass bot /\
    aiCells (splitBot k impulse w)
    = updateAt k (fun _ => parent) (aiCells w) ++ [child] /\
    mass parent = mass bot / 2 /\ mass child = mass bot / 2 /\
    radius parent = sqrt (mass bot / 2) /\
    radius child = sqrt (mass bot / 2).
Proof.
  destruct (nth_error (aiCells w) k) as [bot|] eqn:Hk.
  - destruct (Rlt_dec (mass bot) 40) as [Hlt | Hge].
    + left. rewrite (splitBot_rejected k impulse w bot Hk Hlt). reflexivity.
    + right. destruct (splitBot_accepted k impulse w bot Hk)
        as (p & c & E & Mp & Mc & Rp & Rc & _); [lra|].
      exists bot, p, c. repeat split; try assumption. lra.
  - left. unfold splitBot. rewrite Hk. reflexivity.
Qed.

Lemma splitBot_healthy (k : nat) (impulse : R) (w : World) :
  Forall healthy (aiCells w) -> Forall healthy (aiCells (splitBot k impulse w)).
Proof.
  intro H. destruct (splitBot_cells k impulse w)
    as [-> | (bot & p & c & Hk & Hm & -> & Mp & Mc & Rp & Rc)]; [exact H|].
  apply Forall_app. split.
  - apply Forall_updateAt; [exact H|]. intros _ _.
    split; [lra | rewrite Rp, Mp; reflexivity].
  - constructor; [|constructor].
    split; [lra | rewrite Rc, Mc; reflexivity].
Qed.

Lemma withVelocity_frame (k : nat) (ux uy : R) (w : World) :
  foods (withVelocity k ux uy w) = foods w /\
  playerCells (withVelocity k ux uy w) = playerCells w /\
  hexagons (withVelocity k ux uy w) = hexagons w /\
  rainbowEffects (withVelocity k ux uy w) = rainbowEffects w /\
  gameOver (withVelocity k ux uy w) = gameOver w /\
  events (withVelocity k ux uy w) = events w /\
  mathRandom (withVelocity k ux uy w) = mathRandom w.
Proof. unfold withVelocity, randomRange, random. cbn. repeat split. Qed.

Lemma withVelocity_healthy (k : nat) (ux uy : R) (w : World) :
  Forall healthy (aiCells w) -> Forall healthy (aiCells (withVelocity k ux uy w)).
Proof.
  intro H. unfold withVelocity, randomRange, random.
  cbn [aiCells set_aiCells set_randomReads].
  apply Forall_updateAt; [exact H|]. intros a Ha.
  exact (Forall_nth_error _ _ _ _ H Ha).
Qed.

Lemma spawnFood_frame (w : World) :
  playerCells (spawnFood w) = playerCells w /\
  aiCells (spawnFood w) = aiCells w /\
  rainbowEffects (spawnFood w) = rainbowEffects w /\
  gameOver (spawnFood w) = gameOver w /\
  mathRandom (spawnFood w) = mathRandom w /\
  (Forall (fun h => 0 <= massBonus h) (hexagons w) ->
   Forall (fun h => 0 <= massBonus h) (hexagons (spawnFood w))) /\
  (length (foods (spawnFood w)) + length (hexagons (spawnFood w))
   = S (length (foods w) + length (hexagons w)))%nat.
Proof.
  unfold spawnFood, spawnHexagon, newHexagon, randomColor, randomRange, random.
  destruct (_ <? _);
    cbn [playerCells aiCells rainbowEffects gameOver mathRandom hexagons foods
         set_hexagons set_foods set_randomReads randomReads];
    (split; [reflexivity|]); (split; [reflexivity|]); (split; [reflexivity|]);
    (split; [reflexivity|]); (split; [reflexivity|]); rewrite length_app;
    cbn [length]; (split; [|lia]); intro H; try exact H.
  apply Forall_app. split; [exact H|]. constructor; [|constructor].
  cbn [massBonus]. apply Rle_0_sqr.
Qed.

(** ** Cells stay healthy *)

Lemma healthyWorld_eatPellet (o : Owner) (p i : nat) (cell : Cell) (f : Food)
      (w : World) :
  nth_error (cellsOf o w) p = Some cell -> nth_error (foods w) i = Some f ->
  healthyWorld w -> healthyWorld (eatPellet o p i f w).
Proof.
  intros _ _ (Hp & Ha & Hh & Hf). unfold eatPellet, healthyWorld.
  destruct (spawnFood_frame
              (logEvent BodyPellet
                 (set_foods
                    (removeAt i (foods (set_cellsOf o
                       (updateAt p (grow (fradius f ^ 2 * 0.5)) (cellsOf o w))
                       w)))
                    (set_cellsOf o
                       (updateAt p (grow (fradius f ^ 2 * 0.5)) (cellsOf o w))
                       w))))
    as (-> & -> & _ & _ & Er & Hx & _).
  assert (G : forall l, Forall healthy l ->
                Forall healthy (updateAt p (grow (fradius f ^ 2 * 0.5)) l)).
  { intros l Hl. apply Forall_updateAt; [exact Hl|]. intros a Hin.
    apply healthy_grow; [|exact (Forall_nth_error _ _ _ _ Hl Hin)].
    pose proof (pow2_ge_0 (fradius f)). lra. }
  split; [|split; [|split]].
  - destruct o; cbn; [apply G|]; assumption.
  - destruct o; cbn; [|apply G]; assumption.
  - apply Hx. destruct o; cbn; exact Hh.
  - apply (fairRandom_same w); [|exact Hf]. rewrite Er.
    destruct o; reflexivity.
Qed.

Lemma healthyWorld_spawnAICell (w : World) :
  healthyWorld w -> healthyWorld (spawnAICell w).
Proof.
  intros (Hp & Ha & Hh & Hf).
  destruct (spawnAICell_bounds w Hf) as (c & E & _ & _ & Hc).
  destruct (spawnAICell_frame w) as (_ & Eh & Ep & _ & _ & Er & _).
  unfold healthyWorld. rewrite E, Eh, Ep.
  split; [exact Hp|]. split; [|split; [exact Hh|]].
  - apply Forall_app. split; [exact Ha | constructor; [exact Hc | constructor]].
  - exact (fairRandom_same _ _ Er Hf).
Qed.

Lemma healthyWorld_playerEatsBot (i j : nat) (ai cell : Cell) (w : World) :
  nth_error (aiCells w) i = Some ai ->
  nth_error (playerCells w) j = Some cell ->
  healthyWorld w -> healthyWorld (playerEatsBot i j ai w).
Proof.
  intros Hi _ (Hp & Ha & Hh & Hf). unfold playerEatsBot.
  apply healthyWorld_spawnAICell. unfold healthyWorld. cbn.
  split; [|split; [|split; assumption]].
  - apply Forall_updateAt; [exact Hp|]. intros a Hin.
    apply healthy_grow; [|exact (Forall_nth_error _ _ _ _ Hp Hin)].
    destruct (Forall_nth_error _ _ _ _ Ha Hi) as [Hm _]. lra.
  - apply Forall_removeAt, Ha.
Qed.

Lemma healthyWorld_botEatsPlayer (j : nat) (cell : Cell) (w : World) :
  nth_error (playerCells w) j = Some cell ->
  healthyWorld w -> healthyWorld (botEatsPlayer j w).
Proof.
  intros _ (Hp & Ha & Hh & Hf). unfold botEatsPlayer.
  cbn [playerCells set_playerCells].
  pose proof (Forall_removeAt healthy (playerCells w) j Hp) as Hr.
  destruct (removeAt j (playerCells w)); unfold healthyWorld;
    cbn [playerCells aiCells hexagons logEvent set_gameOver set_playerCells];
    (split; [|split; [|split]]); assumption.
Qed.

Lemma healthyWorld_botEatsBot (i j : nat) (eater eaten : Cell) (w : World) :
  nth_error (aiCells w) i = Some eater ->
  nth_error (aiCells w) j = Some eaten ->
  healthyWorld w -> healthyWorld (botEatsBot i j eaten w).
Proof.
  intros _ Hj (Hp & Ha & Hh & Hf). unfold botEatsBot.
  apply healthyWorld_spawnAICell. unfold healthyWorld. cbn.
  split; [exact Hp|]. split; [|split; assumption].
  apply Forall_removeAt, Forall_updateAt; [exact Ha|]. intros a Hin.
  apply healthy_grow; [|exact (Forall_nth_error _ _ _ _ Ha Hin)].
  destruct (Forall_nth_error _ _ _ _ Ha Hj) as [Hm _]. lra.
Qed.

Lemma healthyWorld_eatHexagon (p i : nat) (cell : Cell) (hex : RotatingHexagon)
      (w : World) :
  nth_error (playerCells w) p = Some cell ->
  nth_error (hexagons w) i = Some hex ->
  healthyWorld w -> healthyWorld (eatHexagon p i hex w).
Proof.
  intros _ Hi (Hp & Ha & Hh & Hf). unfold eatHexagon, healthyWorld. cbn.
  split; [|split; [exact Ha|split; [|exact Hf]]].
  - apply Forall_updateAt; [exact Hp|]. intros a Hin.
    apply healthy_grow; [|exact (Forall_nth_error _ _ _ _ Hp Hin)].
    pose proof (Forall_nth_error _ _ _ _ Hh Hi) as Hb. cbv beta in Hb. lra.
  - apply Forall_removeAt, Hh.
Qed.

Lemma healthyWorld_moveCells (w : World) :
  healthyWorld w -> healthyWorld (moveCells w).
Proof.
  intros (Hp & Ha & Hh & Hf). unfold moveCells, healthyWorld. cbn.
  split; [|split; [|split; assumption]];
    apply Forall_map; eapply Forall_impl; try eassumption;
    intros c Hc; apply healthy_update, Hc.
Qed.

Lemma healthyWorld_merge (w : World) :
  healthyWorld w -> healthyWorld (mergePlayerCells w).
Proof.
  intros (Hp & Ha & Hh & Hf).
  destruct (mergePlayerCells_frame w) as (_ & Ea & Eh & _ & _ & _ & Er).
  destruct (mergePlayerCells_cells w) as (groups & E & P).
  unfold healthyWorld. rewrite Ea, Eh, E.
  split; [|split; [exact Ha | split; [exact Hh|]]].
  - apply healthy_groups. apply Forall_forall. intros c Hin.
    rewrite Forall_forall in Hp. apply Hp.
    eapply Permutation_in; [symmetry; exact P | exact Hin].
  - exact (fairRandom_same _ _ Er Hf).
Qed.

(** [X15] A tick keeps the cells well formed.  When every cell has a
    positive mass and the radius [sqrt(mass)], every hexagon a bonus that
    is not negative and every random draw lies in [0, 1), then
    [updateGame] ends without a division by zero in a world of which the
    same holds, whatever it moved, split, consumed, spawned and merged; so
    does a tick that runs out of fuel, in the world it has reached. *)
Theorem updateGame_keeps_healthy (fuel : nat) (w : World) :
  healthyWorld w ->
  exists w', reached (updateGame fuel w) w' /\ healthyWorld w'.
Proof.
  apply updateGame_invariant.
  - intros k v (Hp & Ha & Hh & Hf).
    destruct (splitBot_frame k 20 v) as (_ & Ep & Eh & _ & _ & _ & Er).
    unfold healthyWorld. rewrite Ep, Eh.
    split; [exact Hp|]. split; [apply splitBot_healthy, Ha|].
    split; [exact Hh | exact (fairRandom_same _ _ Er Hf)].
  - intros k ux uy v (Hp & Ha & Hh & Hf).
    destruct (withVelocity_frame k ux uy v) as (_ & Ep & Eh & _ & _ & _ & Er).
    unfold healthyWorld. rewrite Ep, Eh.
    split; [exact Hp|]. split; [apply withVelocity_healthy, Ha|].
    split; [exact Hh | exact (fairRandom_same _ _ Er Hf)].
  - intros v H. exact H.
  - exact healthyWorld_eatPellet.
  - exact healthyWorld_playerEatsBot.
  - exact healthyWorld_botEatsPlayer.
  - exact healthyWorld_botEatsBot.
  - exact healthyWorld_eatHexagon.
  - exact healthyWorld_moveCells.
  - exact healthyWorld_merge.
Qed.

(** The hunter, its victim and a second player cell on a hexagon. *)
Lemma updateGame_keeps_healthy_witness :
  healthyWorld world_order /\
  exists w', reached (updateGame 10 world_order) w' /\ healthyWorld w'.
Proof.
  assert (H : healthyWorld world_order).
  { unfold healthyWorld, world_order, arena.
    cbn [playerCells aiCells hexagons].
    split; [|split; [|split]].
    - repeat constructor; cbn; lra.
    - repeat constructor; cbn; lra.
    - repeat constructor; cbn; lra.
    - intro n. cbn. lra. }
  split; [exact H | exact (updateGame_keeps_healthy 10 world_order H)].
Defined.

(** ** The game-over flag *)

Lemma flagged_same (w w' : World) :
  gameOver w' = gameOver w ->
  length (playerCells w') = length (playerCells w) ->
  flagged w -> flagged w'.
Proof.
  unfold flagged. intros Eg El H. rewrite Eg.
  rewrite <- (length_zero_iff_nil (playerCells w')), El,
          (length_zero_iff_nil (playerCells w)).
  exact H.
Qed.

Lemma flagged_botEatsPlayer (j : nat) (cell : Cell) (w : World) :
  nth_error (playerCells w) j = Some cell ->
  flagged w -> flagged (botEatsPlayer j w).
Proof.
  intros Hj H. unfold botEatsPlayer. cbn [playerCells set_playerCells].
  destruct (removeAt j (playerCells w)) as [|c t] eqn:E; unfold flagged;
    cbn [gameOver playerCells logEvent set_gameOver set_playerCells].
  - split; reflexivity.
  - split; [|discriminate]. intro Hg. apply H in Hg.
    rewrite Hg in Hj. destruct j; discriminate.
Qed.

Lemma flagged_merge (w : World) : flagged w -> flagged (mergePlayerCells w).
Proof.
  intro H. destruct (mergePlayerCells_frame w) as (_ & _ & _ & _ & Eg & _).
  destruct (mergePlayerCells_cells w) as (groups & E & P).
  unfold flagged. rewrite Eg, E. split.
  - intro Hg. apply H in Hg. rewrite Hg in P.
    apply Permutation_nil in P. destruct groups; [reflexivity | discriminate].
  - intro Hn. apply H. destruct groups; [|discriminate].
    apply Permutation_nil. symmetry. exact P.
Qed.

Lemma updateExtras_frame (w : World) :
  foods (updateExtras w) = foods w /\
  aiCells (updateExtras w) = aiCells w /\
  playerCells (updateExtras w) = playerCells w /\
  gameOver (updateExtras w) = gameOver w /\
  events (updateExtras w) = events w.
Proof. unfold updateExtras. cbn. repeat split. Qed.

Lemma updateGame_flagged (fuel : nat) (w : World) :
  flagged w -> exists w', reached (updateGame fuel w) w' /\ flagged w'.
Proof.
  apply updateGame_invariant.
  - intros k v. destruct (splitBot_frame k 20 v) as (_ & Ep & _ & _ & Eg & _).
    apply flagged_same; [exact Eg | rewrite Ep; reflexivity].
  - intros k ux uy v.
    destruct (withVelocity_frame k ux uy v) as (_ & Ep & _ & _ & Eg & _).
    apply flagged_same; [exact Eg | rewrite Ep; reflexivity].
  - intros v H. exact H.
  - intros o p i cell f v _ _. unfold eatPellet.
    match goal with |- _ -> flagged (spawnFood ?u) =>
      destruct (spawnFood_frame u) as (Ep & _ & _ & Eg & _) end.
    apply flagged_same; [rewrite Eg | rewrite Ep]; destruct o; cbn;
      rewrite ?updateAt_length; reflexivity.
  - intros i j ai cell v _ _. unfold playerEatsBot.
    match goal with |- _ -> flagged (spawnAICell ?u) =>
      destruct (spawnAICell_frame u) as (_ & _ & Ep & _ & Eg & _) end.
    apply flagged_same; [rewrite Eg | rewrite Ep]; cbn;
      rewrite ?updateAt_length; reflexivity.
  - exact flagged_botEatsPlayer.
  - intros i j a b v _ _. unfold botEatsBot.
    match goal with |- _ -> flagged (spawnAICell ?u) =>
      destruct (spawnAICell_frame u) as (_ & _ & Ep & _ & Eg & _) end.
    apply flagged_same; [rewrite Eg | rewrite Ep]; reflexivity.
  - intros p i cell hex v _ _. unfold eatHexagon.
    apply flagged_same; cbn; rewrite ?updateAt_length; reflexivity.
  - intros v. unfold moveCells.
    apply flagged_same; cbn; rewrite ?length_map; reflexivity.
  - exact flagged_merge.
Qed.

(** [X16] The game-over flag is up exactly when no player cell is left, and
    a frame of the game loop keeps it so: the flag goes up in the frame in
    which the last player cell is consumed, a frame that leaves a player
    cell leaves the flag down, and once the flag is up the frame changes
    nothing at all. *)
Theorem gameFrame_keeps_flag (fuel : nat) (w : World) :
  flagged w ->
  exists w', reached (gameFrame fuel w) w' /\ flagged w' /\
             (gameOver w = true -> w' = w).
Proof.
  intro H. unfold gameFrame. destruct (gameOver w) eqn:Eg.
  - exists w. split; [left; reflexivity|]. split; [exact H | reflexivity].
  - destruct (updateGame_flagged fuel w H) as (w1 & [E | E] & H1);
      rewrite E; cbn [bind].
    + eexists. split; [left; reflexivity|]. split; [|discriminate].
      destruct (updateExtras_frame w1) as (_ & _ & Ep & Eg1 & _).
      apply (flagged_same w1); [exact Eg1 | rewrite Ep; reflexivity | exact H1].
    + exists w1. split; [right; reflexivity|]. split; [exact H1|discriminate].
Qed.

(** The world of the hunter and its single victim: the flag is down
    before the frame and up after it. *)
Lemma gameFrame_keeps_flag_witness :
  flagged world_hunt /\
  exists w', reached (gameFrame 10 world_hunt) w' /\ flagged w' /\
             (gameOver world_hunt = true -> w' = world_hunt).
Proof.
  assert (H : flagged world_hunt) by (split; discriminate).
  split; [exact H | exact (gameFrame_keeps_flag 10 world_hunt H)].
Defined.

(** ** Populations *)

Lemma removeAt_updateAt_length {A : Type} (f : A -> A) (l : list A)
      (i j : nat) (a : A) :
  nth_error l j = Some a ->
  S (length (removeAt j (updateAt i f l))) = length l.
Proof.
  intro H. assert (Hj : (j < length (updateAt i f l))%nat).
  { rewrite updateAt_length. apply nth_error_Some. rewrite H. discriminate. }
  apply nth_error_Some in Hj.
  destruct (nth_error (updateAt i f l) j) as [b|] eqn:E; [|contradiction].
  rewrite (removeAt_length _ _ _ E). apply updateAt_length.
Qed.

Lemma splitBot_grows (k : nat) (impulse : R) (w : World) :
  (length (aiCells w) <= length (aiCells (splitBot k impulse w)))%nat.
Proof.
  destruct (splitBot_cells k impulse w) as [-> | (b & p & c & _ & _ & -> & _)];
    [lia|].
  rewrite length_app, updateAt_length. lia.
Qed.

Lemma populations_step (w v v' : World) :
  (length (foods v') + length (hexagons v') + length (rainbowEffects v')
   = length (foods v) + length (hexagons v) + length (rainbowEffects v))%nat ->
  (length (aiCells v) <= length (aiCells v'))%nat ->
  (length (playerCells v') <= length (playerCells v))%nat ->
  populations w v -> populations w v'.
Proof. unfold populations. intros H1 H2 H3 (G1 & G2 & G3). repeat split; lia. Qed.

Lemma populations_eatPellet (w : World) (o : Owner) (p i : nat) (cell : Cell)
      (f : Food) (v : World) :
  nth_error (cellsOf o v) p = Some cell -> nth_error (foods v) i = Some f ->
  populations w v -> populations w (eatPellet o p i f v).
Proof.
  intros _ Hf. unfold eatPellet.
  match goal with |- context [spawnFood ?u] =>
    destruct (spawnFood_frame u) as (Ep & Ea & Ee & _ & _ & _ & Ec) end.
  pose proof (removeAt_length _ _ _ Hf) as Hr.
  apply populations_step; rewrite ?Ep, ?Ea, ?Ee.
  - assert (E1 : length (foods v) = S (length (removeAt i (foods v)))) by lia.
    rewrite E1.
    destruct o;
      cbn [foods hexagons rainbowEffects logEvent set_foods set_cellsOf
           set_playerCells set_aiCells] in Ec |- *; lia.
  - destruct o; cbn [aiCells logEvent set_foods set_cellsOf set_playerCells
                     set_aiCells cellsOf];
      rewrite ?updateAt_length; lia.
  - destruct o; cbn [playerCells logEvent set_foods set_cellsOf set_playerCells
                     set_aiCells cellsOf];
      rewrite ?updateAt_length; lia.
Qed.

Lemma populations_playerEatsBot (w : World) (i j : nat) (ai cell : Cell)
      (v : World) :
  nth_error (aiCells v) i = Some ai ->
  nth_error (playerCells v) j = Some cell ->
  populations w v -> populations w (playerEatsBot i j ai v).
Proof.
  intros Hi _. unfold playerEatsBot.
  match goal with |- context [spawnAICell ?u] =>
    destruct (spawnAICell_frame u) as (Ef & Eh & Ep & Ee & _);
    pose proof (spawnAICell_length u) as El end.
  pose proof (removeAt_length _ _ _ Hi) as Hr.
  apply populations_step; rewrite ?Ef, ?Eh, ?Ep, ?Ee.
  - reflexivity.
  - rewrite El. cbn [aiCells logEvent set_aiCells set_playerCells]. lia.
  - cbn [playerCells logEvent set_aiCells set_playerCells].
    rewrite updateAt_length. lia.
Qed.

Lemma populations_botEatsPlayer (w : World) (j : nat) (cell : Cell) (v : World) :
  nth_error (playerCells v) j = Some cell ->
  populations w v -> populations w (botEatsPlayer j v).
Proof.
  intros Hj. unfold botEatsPlayer.
  pose proof (removeAt_length _ _ _ Hj) as Hr.
  cbn [playerCells set_playerCells].
  destruct (removeAt j (playerCells v)) as [|c t]; apply populations_step;
    cbn [foods hexagons rainbowEffects aiCells playerCells logEvent
         set_gameOver set_playerCells]; cbn [length] in Hr |- *; lia.
Qed.

Lemma populations_botEatsBot (w : World) (i j : nat) (eater eaten : Cell)
      (v : World) :
  nth_error (aiCells v) i = Some eater ->
  nth_error (aiCells v) j = Some eaten ->
  populations w v -> populations w (botEatsBot i j eaten v).
Proof.
  intros _ Hj. unfold botEatsBot.
  match goal with |- context [spawnAICell ?u] =>
    destruct (spawnAICell_frame u) as (Ef & Eh & Ep & Ee & _);
    pose proof (spawnAICell_length u) as El end.
  pose proof (removeAt_updateAt_length (grow (mass eaten * 0.5)) _ i j eaten Hj)
    as Hr.
  apply populations_step; rewrite ?Ef, ?Eh, ?Ep, ?Ee.
  - reflexivity.
  - rewrite El. cbn [aiCells logEvent set_aiCells]. lia.
  - cbn [playerCells logEvent set_aiCells]. lia.
Qed.

Lemma populations_eatHexagon (w : World) (p i : nat) (cell : Cell)
      (hex : RotatingHexagon) (v : World) :
  nth_error (playerCells v) p = Some cell ->
  nth_error (hexagons v) i = Some hex ->
  populations w v -> populations w (eatHexagon p i hex v).
Proof.
  intros _ Hi. unfold eatHexagon.
  pose proof (removeAt_length _ _ _ Hi) as Hr.
  apply populations_step;
    cbn [foods hexagons rainbowEffects aiCells playerCells logEvent
         set_hexagons set_rainbowEffects set_playerCells];
    rewrite ?length_app, ?updateAt_length; cbn [length]; lia.
Qed.

Lemma populations_merge (w v : World) :
  populations w v -> populations w (mergePlayerCells v).
Proof.
  destruct (mergePlayerCells_frame v) as (Ef & Ea & Eh & Ee & _).
  destruct (mergePlayerCells_cells v) as (groups & Ec & P).
  apply populations_step; rewrite ?Ef, ?Ea, ?Eh, ?Ee, ?Ec; try lia.
  rewrite length_map. apply Permutation_length in P. rewrite P.
  clear. induction groups as [|[c abs] gs IH]; cbn [length flat_map members
    fst snd app]; [lia|].
  rewrite length_app. lia.
Qed.

(** [X17] What a tick does to the populations: the pellets, the hexagons and
    the effects together stay as many as they are (a pellet consumed is
    replaced by a pellet or a hexagon, a hexagon consumed leaves an
    effect), the bots never become fewer (a bot consumed is replaced, a
    split adds one) and the player cells never become more. *)
Theorem updateGame_populations (fuel : nat) (w : World) :
  exists w', reached (updateGame fuel w) w' /\ populations w w'.
Proof.
  apply (updateGame_invariant (populations w)).
  - intros k v.
    destruct (splitBot_frame k 20 v) as (Ef & Ep & Eh & Ee & _).
    pose proof (splitBot_grows k 20 v).
    apply populations_step; rewrite ?Ef, ?Ep, ?Eh, ?Ee; lia.
  - intros k ux uy v.
    destruct (withVelocity_frame k ux uy v) as (Ef & Ep & Eh & Ee & _).
    apply populations_step;
      rewrite ?Ef, ?Ep, ?Eh, ?Ee, ?withVelocity_length; lia.
  - intros v H. exact H.
  - exact (populations_eatPellet w).
  - exact (populations_playerEatsBot w).
  - exact (populations_botEatsPlayer w).
  - exact (populations_botEatsBot w).
  - exact (populations_eatHexagon w).
  - intros v. unfold moveCells.
    apply populations_step;
      cbn [foods hexagons rainbowEffects aiCells playerCells set_aiCells
           set_playerCells]; rewrite ?length_map; lia.
  - exact (populations_merge w).
  - unfold populations. repeat split; lia.
Qed.

(** ** The bots' tick *)

Lemma totalMass_masses (l1 l2 : list Cell) :
  map mass l1 = map mass l2 -> totalMass l1 = totalMass l2.
Proof.
  revert l2. induction l1 as [|a l1 IH]; intros [|b l2] H; cbn [map] in H;
    try discriminate; [reflexivity|].
  injection H as Hm Ht. rewrite !totalMass_cons, Hm, (IH l2 Ht). reflexivity.
Qed.

Lemma splitBot_totalMass (k : nat) (impulse : R) (w : World) :
  totalMass (aiCells (splitBot k impulse w)) = totalMass (aiCells w).
Proof.
  destruct (splitBot_cells k impulse w)
    as [-> | (b & p & c & Hk & _ & -> & Mp & Mc & _)]; [reflexivity|].
  rewrite totalMass_app, (totalMass_updateAt _ _ _ _ Hk), totalMass_cons, Mp, Mc.
  change (totalMass []) with 0. lra.
Qed.

(** [X18] The steering pass of the bots moves no mass: whatever the bots
    decide, and however many of them split, the total mass of the bots is
    the same after [updateBotAI], no bot is lost, and the player cells, the
    pellets, the hexagons, the effects, the game-over flag and the
    consumptions recorded are untouched. *)
Theorem updateBotAI_conserves (fuel : nat) (w : World) :
  exists w',
    reached (updateBotAI fuel w) w' /\
    totalMass (aiCells w') = totalMass (aiCells w) /\
    (length (aiCells w) <= length (aiCells w'))%nat /\
    playerCells w' = playerCells w /\ foods w' = foods w /\
    hexagons w' = hexagons w /\ rainbowEffects w' = rainbowEffects w /\
    gameOver w' = gameOver w /\ events w' = events w.
Proof.
  apply (updateBotAI_invariant
           (fun v =>
              totalMass (aiCells v) = totalMass (aiCells w) /\
              (length (aiCells w) <= length (aiCells v))%nat /\
              playerCells v = playerCells w /\ foods v = foods w /\
              hexagons v = hexagons w /\
              rainbowEffects v = rainbowEffects w /\
              gameOver v = gameOver w /\ events v = events w)).
  - intros k v (Hm & Hl & H).
    destruct (splitBot_frame k 20 v) as (-> & -> & -> & -> & -> & -> & _).
    rewrite splitBot_totalMass. pose proof (splitBot_grows k 20 v).
    split; [exact Hm|]. split; [lia|]. split; [apply H|].
    split; apply H.
  - intros k ux uy v (Hm & Hl & H).
    destruct (withVelocity_frame k ux uy v) as (-> & -> & -> & -> & -> & -> & _).
    rewrite withVelocity_length,
      (totalMass_masses _ _ (withVelocity_masses k ux uy v)).
    split; [exact Hm|]. split; [exact Hl|]. split; [apply H|].
    split; apply H.
  - intros v H. exact H.
  - repeat split. lia.
Qed.

(** ** The hexagons eaten *)

Lemma bonusSum_app (l1 l2 : list RotatingHexagon) :
  bonusSum (l1 ++ l2) = bonusSum l1 + bonusSum l2.
Proof.
  unfold bonusSum. induction l1 as [|h l IH]; cbn [app fold_right];
    [lra | rewrite IH; lra].
Qed.

(** [X19] The hexagon pass eats some of the hexagons, in some order: those
    and the hexagons left make up the hexagons there were; one effect is
    appended for each hexagon eaten, at its place and in the order of the
    meal; the player cells, as many as before, gain 1.5 times the bonuses
    of the hexagons eaten; pellets, bots and the flag are untouched and no
    random number is drawn. *)
Theorem eatHexagonPass_accounts (w : World) :
  let w' := eatHexagonPass w in
  exists eaten,
    Permutation (hexagons w) (eaten ++ hexagons w') /\
    rainbowEffects w'
    = rainbowEffects w
      ++ map (fun h => newRainbowEffect (hx h) (hy h)) eaten /\
    totalMass (playerCells w')
    = totalMass (playerCells w) + 1.5 * bonusSum eaten /\
    length (playerCells w') = length (playerCells w) /\
    events w' = events w ++ repeat BodyStructure (length eaten) /\
    foods w' = foods w /\ aiCells w' = aiCells w /\
    gameOver w' = gameOver w /\ randomReads w' = randomReads w.
Proof.
  cbv zeta.
  apply (eatHexagonPass_invariant
           (fun v => exists eaten,
              Permutation (hexagons w) (eaten ++ hexagons v) /\
              rainbowEffects v
              = rainbowEffects w
                ++ map (fun h => newRainbowEffect (hx h) (hy h)) eaten /\
              totalMass (playerCells v)
              = totalMass (playerCells w) + 1.5 * bonusSum eaten /\
              length (playerCells v) = length (playerCells w) /\
              events v = events w ++ repeat BodyStructure (length eaten) /\
              foods v = foods w /\ aiCells v = aiCells w /\
              gameOver v = gameOver w /\ randomReads v = randomReads w)).
  - intros p i cell hex v Hp Hi (eaten & P & Ee & Em & El & Ev & H).
    exists (eaten ++ [hex]). unfold eatHexagon.
    cbn [hexagons rainbowEffects playerCells events foods aiCells gameOver
         randomReads logEvent set_hexagons set_rainbowEffects set_playerCells].
    split; [|split; [|split; [|split; [|split; [|exact H]]]]].
    + rewrite <- app_assoc. cbn [app].
      rewrite P. apply Permutation_app_head, removeAt_perm, Hi.
    + rewrite Ee, map_app, app_assoc. reflexivity.
    + rewrite (totalMass_updateAt _ _ _ _ Hp), Em, bonusSum_app.
      unfold grow. cbn [mass set_mass set_radius].
      change (bonusSum [hex]) with (massBonus hex + 0). lra.
    + rewrite updateAt_length. exact El.
    + rewrite Ev, length_app, repeat_app, app_assoc. reflexivity.
  - exists []. cbn [app map length repeat]. rewrite !app_nil_r.
    change (bonusSum []) with 0.
    split; [reflexivity|]. split; [reflexivity|]. split; [lra|].
    repeat split.
Qed.

(** ** The step of a player cell *)

(** [X20] A player cell never rests.  With no impulse left and at least four
    units of room to every wall, an update moves the cell by exactly its
    speed, [clamp(4 - radius / 20, 1, 4)], which is at least 1 and at most
    4, wherever the target is: also when the cell sits on its target. *)
Theorem update_player_step (target : R * R) (c : Cell) :
  isPlayer c = true -> extraVX c = 0 -> extraVY c = 0 ->
  radius c + 4 <= x c <= MAP_WIDTH - radius c - 4 ->
  radius c + 4 <= y c <= MAP_HEIGHT - radius c - 4 ->
  let c' := update target c in
  let speed := clamp (4 - radius c / 20) 1 4 in
  distance (x c) (y c) (x c') (y c') = speed /\ 1 <= speed <= 4.
Proof.
  intros Hp Hvx Hvy Hx Hy c' speed.
  destruct (clamp_cases (4 - radius c / 20) 1 4) as (Hlo & _ & Hhi).
  assert (H14 : 1 <= 4) by lra. destruct (Hhi H14) as (Hup & _).
  fold speed in Hlo, Hup.
  assert (E : exists a, x c' = x c + cos a * speed /\
                        y c' = y c + sin a * speed).
  { unfold c', update. rewrite Hp. cbn -[atan2 cos sin clamp].
    rewrite Hvx, Hvy. fold speed.
    match goal with |- context [cos ?a] => exists a; set (ang := a) end.
    pose proof (COS_bound ang) as [C1 C2].
    pose proof (SIN_bound ang) as [S1 S2].
    assert (-4 <= cos ang * speed <= 4) by nra.
    assert (-4 <= sin ang * speed <= 4) by nra.
    split.
    - match goal with |- clamp ?v ?a ?b = _ =>
        destruct (clamp_cases v a b) as (_ & _ & H1) end.
      assert (Hb : radius c <= MAP_WIDTH - radius c)
        by (unfold MAP_WIDTH in *; lra).
      destruct (H1 Hb) as (_ & H2 & _). rewrite H2; lra.
    - match goal with |- clamp ?v ?a ?b = _ =>
        destruct (clamp_cases v a b) as (_ & _ & H1) end.
      assert (Hb : radius c <= MAP_HEIGHT - radius c)
        by (unfold MAP_HEIGHT in *; lra).
      destruct (H1 Hb) as (_ & H2 & _). rewrite H2; lra. }
  destruct E as (a & -> & ->). split; [|lra].
  unfold distance.
  replace ((x c + cos a * speed - x c)² + (y c + sin a * speed - y c)²)
    with (speed²).
  - apply sqrt_Rsqr. lra.
  - pose proof (sin2_cos2 a) as T. unfold Rsqr in *. nra.
Qed.

(** A cell of mass 400 in the middle of the map, sitting on its target,
    moves by 3. *)
Lemma update_player_step_witness :
  distance 2500 2500 (x (update (2500, 2500) (cellAt 2500 2500 400 true false 0)))
           (y (update (2500, 2500) (cellAt 2500 2500 400 true false 0)))
  = clamp (4 - sqrt 400 / 20) 1 4 /\
  1 <= clamp (4 - sqrt 400 / 20) 1 4 <= 4.
Proof.
  apply (update_player_step (2500, 2500) (cellAt 2500 2500 400 true false 0));
    cbn [isPlayer extraVX extraVY radius x y cellAt];
    rewrite ?sqrt_400; unfold MAP_WIDTH, MAP_HEIGHT; first [reflexivity | lra].
Defined.

(** ** One opponent *)

Lemma unit_direction (x1 y1 x2 y2 : R) :
  distance x1 y1 x2 y2 <> 0 ->
  (x2 - x1) / distance x1 y1 x2 y2 * ((x2 - x1) / distance x1 y1 x2 y2)
  + (y2 - y1) / distance x1 y1 x2 y2 * ((y2 - y1) / distance x1 y1 x2 y2) = 1.
Proof.
  intro Hd. set (d := distance x1 y1 x2 y2) in *.
  assert (E : d * d = (x2 - x1) * (x2 - x1) + (y2 - y1) * (y2 - y1)).
  { unfold d, distance. rewrite sqrt_sqrt; [unfold Rsqr; ring|].
    pose proof (Rle_0_sqr (x2 - x1)). pose proof (Rle_0_sqr (y2 - y1)). lra. }
  replace ((x2 - x1) / d * ((x2 - x1) / d) + (y2 - y1) / d * ((y2 - y1) / d))
    with (((x2 - x1) * (x2 - x1) + (y2 - y1) * (y2 - y1)) / (d * d))
    by (field; exact Hd).
  rewrite <- E. field. exact Hd.
Qed.

(** A single contribution of length 1 is the direction of the bot. *)
Lemma steer_single (k : nat) (sx sy : R) (w : World) :
  sx * sx + sy * sy = 1 ->
  steer k (mkSteer sx sy 1) w = Ok (withVelocity k sx sy w).
Proof.
  intro H. unfold steer. cbn [count steerX steerY Nat.ltb Nat.leb INR].
  assert (H1 : 1 <> 0) by lra.
  rewrite !(cdiv_ok _ _ H1). cbn [bind].
  replace (sx / 1) with sx by (field).
  replace (sy / 1) with sy by (field).
  rewrite H, sqrt_1. rewrite (gtb_true 1 0) by lra.
  rewrite !(cdiv_ok _ _ H1). cbn [bind fst snd].
  replace (sx / 1) with sx by (field).
  replace (sy / 1) with sy by (field).
  reflexivity.
Qed.

(** [X21] A bot with a single opponent heads straight away from it or
    straight for it.  When the opponent exceeds the bot by more than the
    margin and is nearer than the danger distance, the new velocity is the
    unit vector from the opponent to the bot, scaled by the random speed;
    when the opponent is below 0.9 times the bot, nearer than the prey
    distance of the bot, and the bot does not split, it is the unit vector
    from the bot to the opponent, scaled likewise. *)
Theorem lone_opponent_heading (now : R) (k : nat) (w : World) (bot op : Cell) :
  nth_error (aiCells w) k = Some bot -> opponentsOf k w = [op] ->
  0 < mass bot ->
  let d := distance (x bot) (y bot) (x op) (y op) in
  let ux := (x op - x bot) / d in
  let uy := (y op - y bot) / d in
  d <> 0 ->
  (mass op > mass bot * 1.1 -> d < dangerDistance ->
   updateBot now k w = Ok (withVelocity k (- ux) (- uy) w)) /\
  (mass op < mass bot * 0.9 ->
   d < (if isBoss bot then 600 else preyDistance) ->
   splitCondition now bot op d = false ->
   updateBot now k w = Ok (withVelocity k ux uy w)).
Proof.
  intros Hk Ho Hm d ux uy Hd.
  pose proof (unit_direction (x bot) (y bot) (x op) (y op) Hd) as U.
  fold d in U. fold ux uy in U.
  split.
  - intros Hb Hr. unfold updateBot. rewrite Hk, Ho. cbn [scanOpponents].
    rewrite scanOpponent_flee by (try assumption; lra).
    cbn [bind steerX steerY count]. fold d. fold ux uy.
    replace (0 - ux) with (- ux) by ring.
    replace (0 - uy) with (- uy) by ring.
    apply steer_single. lra.
  - intros Hs Hr Hc. unfold updateBot. rewrite Hk, Ho. cbn [scanOpponents].
    unfold scanOpponent. fold d.
    rewrite (eqb0_false _ Hd), !(cdiv_ok _ _ Hd).
    rewrite (gtb_false (mass op) (mass bot * 1.1)) by lra.
    cbn [andb bind].
    rewrite (ltb_true _ _ Hs), (ltb_true _ _ Hr). cbn [andb bind].
    rewrite Hc. cbn [bind steerX steerY count]. fold ux uy.
    replace (0 + ux) with ux by ring.
    replace (0 + uy) with uy by ring.
    apply steer_single. exact U.
Qed.

(** The bot of mass 100 with a player cell of mass 400 at distance 100 to
    its east heads west. *)
Lemma lone_opponent_heading_witness :
  updateBot 10000 0 world_flee = Ok (withVelocity 0 (-1) 0 world_flee).
Proof.
  destruct (lone_opponent_heading 10000 0 world_flee bot100 predatorEast)
    as [H _].
  - reflexivity.
  - reflexivity.
  - cbn [mass bot100]. lra.
  - rewrite distance_bot100_east. lra.
  - rewrite H.
    + rewrite distance_bot100_east. cbn [x y bot100 predatorEast cellAt].
      replace (- ((1100 - 1000) / 100)) with (-1) by lra.
      replace (- ((1000 - 1000) / 100)) with 0 by lra.
      reflexivity.
    + cbn [mass bot100 predatorEast cellAt]. lra.
    + rewrite distance_bot100_east. unfold dangerDistance. lra.
Defined.

(** ** Quiet worlds *)

Lemma consumes_false (a b : Cell) :
  consumes a b = false ->
  (distance (x a) (y a) (x b) (y b) <? radius a + radius b) = false \/
  (mass a >? mass b * 1.1) = false /\ (mass b >? mass a * 1.1) = false.
Proof.
  unfold consumes. destruct (_ <? _); [|left; reflexivity].
  destruct (_ >? _); [discriminate|]. destruct (_ >? _); [discriminate|].
  right. split; reflexivity.
Qed.

Lemma playerVsAIInner_quiet (i j : nat) (w : World) :
  quietPlayers w -> playerVsAIInner i j w = w.
Proof.
  intro Q. induction j as [|j IH]; cbn [playerVsAIInner]; [reflexivity|].
  destruct (nth_error (aiCells w) i) as [ai|] eqn:Ei; [|exact IH].
  destruct (nth_error (playerCells w) j) as [cell|] eqn:Ej; [|exact IH].
  destruct (consumes_false _ _ (Q i j ai cell Ei Ej)) as [-> | [-> ->]];
    [exact IH|].
  destruct (_ <? _); exact IH.
Qed.

Lemma playerVsAIOuter_quiet (n : nat) (w : World) :
  quietPlayers w -> playerVsAIOuter n w = w.
Proof.
  intro Q. induction n as [|n IH]; cbn [playerVsAIOuter]; [reflexivity|].
  rewrite (playerVsAIInner_quiet _ _ _ Q). exact IH.
Qed.

Lemma aiVsAILoop_quiet (fuel i j : nat) (w : World) :
  quietBots w -> (i < j)%nat ->
  ((length (aiCells w) - i) * S (length (aiCells w))
   + (length (aiCells w) - j) < fuel)%nat ->
  aiVsAILoop fuel i j w = Ok w.
Proof.
  intro Q. revert i j. induction fuel as [|f IH]; intros i j Hij Hf;
    [exfalso; exact (Nat.nlt_0_r _ Hf)|]. cbn [aiVsAILoop].
  destruct (Nat.ltb_spec i (length (aiCells w))) as [Hi | Hi]; [|reflexivity].
  destruct (Nat.ltb_spec j (length (aiCells w))) as [Hj | Hj].
  - assert (Hn : aiVsAILoop f i (S j) w = Ok w) by (apply IH; lia).
    destruct (nth_error (aiCells w) i) as [a|] eqn:Ei; [|exact Hn].
    destruct (nth_error (aiCells w) j) as [b|] eqn:Ej; [|exact Hn].
    assert (Hne : i <> j) by lia.
    destruct (consumes_false _ _ (Q i j a b Ei Ej Hne)) as [-> | [-> ->]];
      [exact Hn|].
    destruct (_ <? _); exact Hn.
  - apply IH; [lia|]. nia.
Qed.

(** [X22] Where no player cell and bot, and no two bots, overlap with masses
    more than 10% apart, the two passes between cells change nothing, and
    the pass over the bots ends within [(n + 1)^2] steps for [n] bots:
    only a consumption, which appends a bot to the array under scan, can
    make it longer. *)
Theorem quiet_collisions (fuel : nat) (w : World) :
  quietPlayers w -> quietBots w ->
  (S (length (aiCells w)) * S (length (aiCells w)) <= fuel)%nat ->
  playerVsAI w = w /\ aiVsAI fuel w = Ok w.
Proof.
  intros Qp Qb Hf. split.
  - apply playerVsAIOuter_quiet, Qp.
  - apply aiVsAILoop_quiet; [exact Qb | lia | nia].
Qed.

(** A bot and a player cell of mass 30, far apart. *)
Lemma quiet_collisions_witness :
  playerVsAI world_small = world_small /\
  aiVsAI 4 world_small = Ok world_small.
Proof.
  apply (quiet_collisions 4 world_small).
  - intros [|[|i]] [|[|j]] ai cell Hi Hj; cbn in Hi, Hj; try discriminate.
    injection Hi as <-. injection Hj as <-. unfold consumes.
    replace (_ <? _) with false; [reflexivity|]. symmetry. apply ltb_false.
    cbn [x y radius player30 bot30 cellAt].
    apply Rle_trans with 1500.
    + assert (sqrt 30 <= 30).
      { rewrite <- (sqrt_square 30) at 2 by lra. apply sqrt_le_1; lra. }
      lra.
    + apply distance_lower_bound; lra.
  - intros [|[|i]] [|[|j]] a b Hi Hj Hne; cbn in Hi, Hj; try discriminate.
    contradiction.
  - cbn. lia.
Defined.
